(** * 8-Ball Classic: physics, referee and shot optimizer

    A shallow embedding of the simulation core of the game
    (vector2.ts, ball.ts, state.ts, player.ts, referee.ts, stick.ts,
    game-world.ts, ai-policy.ts, ai-opponent.ts, ai-trainer.ts), of its mouse
    input (button-state.ts, mouse.ts) and of the sound command of its menu
    (toggle-sound-command.ts); the properties of its natural-language
    specification, stated and settled over it; and further properties of
    the code.

    Numbers.  A JavaScript [number] is modelled by the type [number] below:
    a finite value is an exact real; [+Infinity], [-Infinity] and [NaN]
    are kept, with the IEEE 754 rules for them (a non-zero value divided by
    zero is an infinity, [0/0] and [0 * Infinity] are [NaN], every comparison
    with [NaN] is false).  Rounding, overflow and the sign of zero are not
    modelled. *)

From Stdlib Require Import Reals Lra Lia ZArith Bool Arith.
From Stdlib Require String.
From stdpp Require Import base list.

Local Open Scope R_scope.

(** ** Numbers *)

Inductive number : Type :=
| Fin (r : R)
| PInf
| NInf
| NaN.

Definition Rltb (a b : R) : bool := if Rlt_dec a b then true else false.
Definition Rleb (a b : R) : bool := if Rle_dec a b then true else false.
Definition Reqb (a b : R) : bool := if Req_dec_T a b then true else false.

Module Num.

Definition neg (a : number) : number :=
  match a with
  | Fin r => Fin (- r)
  | PInf => NInf
  | NInf => PInf
  | NaN => NaN
  end.

Definition add (a b : number) : number :=
  match a, b with
  | NaN, _ | _, NaN => NaN
  | Fin r, Fin s => Fin (r + s)
  | PInf, NInf | NInf, PInf => NaN
  | PInf, _ | _, PInf => PInf
  | NInf, _ | _, NInf => NInf
  end.

Definition sub (a b : number) : number := add a (neg b).

(** The infinity whose sign is the sign of [r] times [s] ([s] is [true] for
    a positive infinity); [NaN] when [r] is zero. *)
Definition signed_inf (r : R) (s : bool) : number :=
  if Req_dec_T r 0 then NaN
  else if Rltb 0 r then (if s then PInf else NInf)
       else (if s then NInf else PInf).

Definition mul (a b : number) : number :=
  match a, b with
  | NaN, _ | _, NaN => NaN
  | Fin r, Fin s => Fin (r * s)
  | Fin r, PInf | PInf, Fin r => signed_inf r true
  | Fin r, NInf | NInf, Fin r => signed_inf r false
  | PInf, PInf | NInf, NInf => PInf
  | PInf, NInf | NInf, PInf => NInf
  end.

Definition div (a b : number) : number :=
  match a, b with
  | NaN, _ | _, NaN => NaN
  | Fin r, Fin s =>
      if Req_dec_T s 0 then signed_inf r true else Fin (r / s)
  | Fin _, _ => Fin 0
  | PInf, Fin s => if Rltb s 0 then NInf else PInf
  | NInf, Fin s => if Rltb s 0 then PInf else NInf
  | _, _ => NaN
  end.

(** [Math.sqrt] *)
Definition sqrt (a : number) : number :=
  match a with
  | Fin r => if Rltb r 0 then NaN else Fin (R_sqrt.sqrt r)
  | PInf => PInf
  | _ => NaN
  end.

(** [Math.cos], [Math.sin] *)
Definition cos (a : number) : number :=
  match a with Fin r => Fin (Rtrigo_def.cos r) | _ => NaN end.
Definition sin (a : number) : number :=
  match a with Fin r => Fin (Rtrigo_def.sin r) | _ => NaN end.

(** [a < b] *)
Definition ltb (a b : number) : bool :=
  match a, b with
  | NaN, _ | _, NaN => false
  | Fin r, Fin s => Rltb r s
  | _, NInf => false
  | NInf, _ => true
  | PInf, _ => false
  | _, PInf => true
  end.

(** [a <= b] *)
Definition leb (a b : number) : bool :=
  match a, b with
  | NaN, _ | _, NaN => false
  | Fin r, Fin s => Rleb r s
  | NInf, _ => true
  | _, PInf => true
  | _, _ => false
  end.

(** [a > b], [a >= b] *)
Definition gtb (a b : number) : bool := ltb b a.
Definition geb (a b : number) : bool := leb b a.

(** [Number.isFinite] *)
Definition isFinite (a : number) : bool :=
  match a with Fin _ => true | _ => false end.

End Num.

Declare Scope num_scope.
Delimit Scope num_scope with num.
Bind Scope num_scope with number.
Infix "+" := Num.add : num_scope.
Infix "-" := Num.sub : num_scope.
Infix "*" := Num.mul : num_scope.
Infix "/" := Num.div : num_scope.
Notation "- a" := (Num.neg a) : num_scope.
Infix "<?" := Num.ltb (at level 70) : num_scope.
Infix "<=?" := Num.leb (at level 70) : num_scope.
Infix ">?" := Num.gtb (at level 70) : num_scope.
Infix ">=?" := Num.geb (at level 70) : num_scope.

(** ** common/color.ts *)

(** Modelled from the spec: the [Color] enum of common/color.ts is not among
    the sources; the specification gives it as
    [enum{white, black, red, yellow}], and a field that may hold no color as
    [Color|null].  A missing color is [None]; every color is a truthy
    value. *)
Inductive Color : Type := white | black | red | yellow.

Definition Color_eqb (a b : Color) : bool :=
  match a, b with
  | white, white | black, black | red, red | yellow, yellow => true
  | _, _ => false
  end.

(** [a === b] on values of type [Color | null] *)
Definition optColor_eqb (a b : option Color) : bool :=
  match a, b with
  | Some c, Some d => Color_eqb c d
  | None, None => true
  | _, _ => false
  end.

(** ** physics/vector2.ts *)

Record Vector2 : Type := mkVector2 { x : number; y : number }.

Module Vector2.

Definition zero : Vector2 := mkVector2 (Fin 0) (Fin 0).
Definition copy (v : Vector2) : Vector2 := mkVector2 (x v) (y v).

Definition addToX (v : Vector2) (a : number) : Vector2 :=
  mkVector2 (x v + a)%num (y v).
Definition addToY (v : Vector2) (a : number) : Vector2 :=
  mkVector2 (x v) (y v + a)%num.
Definition addX (v : Vector2) (a : number) : Vector2 := addToX (copy v) a.
Definition addY (v : Vector2) (a : number) : Vector2 := addToY (copy v) a.
Definition addTo (v w : Vector2) : Vector2 := addToY (addToX v (x w)) (y w).
Definition add (v w : Vector2) : Vector2 := addTo (copy v) w.
Definition subtractTo (v w : Vector2) : Vector2 :=
  mkVector2 (x v - x w)%num (y v - y w)%num.
Definition subtract (v w : Vector2) : Vector2 := subtractTo (copy v) w.
Definition multBy (v : Vector2) (k : number) : Vector2 :=
  mkVector2 (x v * k)%num (y v * k)%num.
Definition mult (v : Vector2) (k : number) : Vector2 := multBy (copy v) k.
Definition dot (v w : Vector2) : number := (x v * x w + y v * y w)%num.

(** [Math.sqrt(Math.pow(x, 2) + Math.pow(y, 2))] *)
Definition length (v : Vector2) : number :=
  Num.sqrt (x v * x v + y v * y v)%num.
Definition distFrom (v w : Vector2) : number := length (subtract v w).

End Vector2.

(** A vector with finite coordinates. *)
Definition V (a b : R) : Vector2 := mkVector2 (Fin a) (Fin b).

(** ** game-objects/player.ts, state.ts, ball.ts *)

Record Player : Type := mkPlayer {
  color : option Color;
  matchScore : Z;
  overallScore : Z
}.

(** A reference to an object of the store: the index of the object in the
    list that holds every object of its class. *)
Abbreviation ref := nat (only parsing).

(** A ball object; the sprite is left out. *)
Record Ball : Type := mkBall {
  _position : Vector2;
  _velocity : Vector2;
  _color : Color;
  _moving : bool;
  _visible : bool
}.

Record State : Type := mkState {
  firstCollidedBallColor : option Color;
  pocketedBalls : list ref;
  ballInHand : bool;
  isValid : bool
}.

#[global] Instance Ball_inhabited : Inhabited Ball :=
  populate (mkBall (V 0 0) (V 0 0) white false false).
#[global] Instance Player_inhabited : Inhabited Player :=
  populate (mkPlayer None 0 0).

(** [new State()] *)
Definition newState : State := mkState None [] false false.

(** ** game-objects/referee.ts *)

Module Referee.

Definition isValidFirstTouch (player : Player)
    (collidedBallColor : option Color) (somePocketed : bool) : bool :=
  match collidedBallColor with
  | None => false
  | Some c =>
      match color player with
      | None => negb (Color_eqb c black)
      | Some pc =>
          Color_eqb pc c
          || ((matchScore player =? 1)%Z && somePocketed
              && negb (Color_eqb c black))
          || ((matchScore player =? 7)%Z && Color_eqb c black)
          || ((matchScore player =? 8)%Z && Color_eqb c black)
      end
  end.

(** [pocketedBalls.every(ball => ball.color === c)] *)
Definition everyColor (c : Color) (pocketed : list Ball) : bool :=
  forallb (fun ball => Color_eqb (_color ball) c) pocketed.

Definition isValidPocketedBalls (player : Player) (pocketed : list Ball)
  : bool :=
  match pocketed with
  | [] => true
  | b0 :: rest =>
      match color player with
      | Some pc =>
          if (matchScore player =? 8)%Z
          then match rest with [] => Color_eqb (_color b0) black | _ => false end
          else everyColor pc pocketed
      | None =>
          let c := _color b0 in
          negb (Color_eqb c white) && negb (Color_eqb c black)
          && everyColor c pocketed
      end
  end.

(** [state.pocketedBalls] holds references; [store] is the list of the ball
    objects they point to. *)
Definition isValidTurn (store : list Ball) (player : Player) (state : State)
  : bool :=
  isValidFirstTouch player (firstCollidedBallColor state)
    (negb (Nat.eqb (length (pocketedBalls state)) 0))
  && isValidPocketedBalls player
       ((fun r : ref => store !!! r) <$> pocketedBalls state).

Definition isGameOver (currentPlayer : Player) (cueBall eightBall : Ball)
  : bool :=
  negb (_visible eightBall)
  || (negb (_visible cueBall) && (matchScore currentPlayer =? 7)%Z)
  || (negb (_visible cueBall) && (matchScore currentPlayer =? 8)%Z).

End Referee.

(** ** game.config.type.ts, game.config.ts *)

(** The configuration values the simulation reads.  They are numeric
    literals of the configuration file, hence finite. *)
Definition IVector2 : Type := (R * R)%type.
Definition toVector2 (p : IVector2) : Vector2 := V (fst p) (snd p).

Record IPhysicsConfig : Type := mkPhysics {
  friction : R;
  collisionLoss : R
}.

Record ITableConfig : Type := mkTable {
  cushionWidth : R;
  pocketRadius : R;
  pocketsPositions : list IVector2
}.

Record IBallConfig : Type := mkBallConfig {
  diameter : R;
  minVelocityLength : R
}.

Record IStickConfig : Type := mkStickConfig {
  origin : IVector2;
  shotOrigin : IVector2;
  powerToAddPerFrame : R;
  movementPerFrame : R;
  maxPower : R
}.

Record IInputConfig : Type := mkInput {
  mouseShootButton : nat;
  mousePlaceBallButton : nat;
  increaseShotPowerKey : nat;
  decreaseShotPowerKey : nat
}.

Record IAIConfig : Type := mkAI {
  on : bool;
  trainIterations : nat;
  playerIndex : nat;
  ballDistanceBonus : R;
  validTurnBonus : R;
  pocketedBallBonus : R;
  invalidTurnPenalty : R;
  gameWonBonus : R;
  gameLossPenalty : R;
  shotPowerMutationVariance : R;
  minShotPower : R
}.

Record IGameConfig : Type := mkGameConfig {
  gameSize : IVector2;
  redBallsPositions : list IVector2;
  yellowBallsPositions : list IVector2;
  cueBallPosition : IVector2;
  eightBallPosition : IVector2;
  physics : IPhysicsConfig;
  table : ITableConfig;
  ball : IBallConfig;
  stick : IStickConfig;
  input : IInputConfig;
  ai : IAIConfig
}.

(** The values of game.config.ts. *)
Definition GameConfig : IGameConfig := {|
  gameSize := (1500, 825);
  redBallsPositions :=
    [(1056, 433); (1090, 374); (1126, 393); (1126, 472);
     (1162, 335); (1162, 374); (1162, 452)];
  yellowBallsPositions :=
    [(1022, 413); (1056, 393); (1090, 452); (1126, 354);
     (1126, 433); (1162, 413); (1162, 491)];
  cueBallPosition := (413, 413);
  eightBallPosition := (1090, 413);
  physics := {| friction := 18 / 1000; collisionLoss := 18 / 1000 |};
  table := {|
    cushionWidth := 57;
    pocketRadius := 48;
    pocketsPositions :=
      [(62, 62); (750, 32); (1435, 62); (62, 762); (750, 794); (1435, 762)]
  |};
  ball := {| diameter := 38; minVelocityLength := 5 / 100 |};
  stick := {|
    origin := (970, 11);
    shotOrigin := (950, 11);
    powerToAddPerFrame := 1;
    movementPerFrame := 3;
    maxPower := 50
  |};
  input := {|
    mouseShootButton := 0;
    mousePlaceBallButton := 0;
    increaseShotPowerKey := 87;
    decreaseShotPowerKey := 83
  |};
  ai := {|
    on := true;
    trainIterations := 30;
    playerIndex := 1;
    ballDistanceBonus := 1 / 5800;
    validTurnBonus := 5000;
    pocketedBallBonus := 2000;
    invalidTurnPenalty := 3000;
    gameWonBonus := 50000;
    gameLossPenalty := 50000;
    shotPowerMutationVariance := 15;
    minShotPower := 10
  |}
|}.

(** ** What the simulation reads from its surroundings in one frame:
    input/mouse.ts, input/keyboard.ts, the session flag of the AI trainer and
    [Math.atan2]. *)
Record Env : Type := mkEnv {
  Mouse_position : Vector2;
  Mouse_isPressed : nat -> bool;
  Keyboard_isDown : nat -> bool;
  AI_finishedSession : bool;
  Math_atan2 : number -> number -> number
}.

(** ** game-objects/ball.ts *)

Module Ball.
Section WithConfig.
Variable cfg : IGameConfig.
Let physicsConfig := physics cfg.
Let ballConfig := ball cfg.

(** [new Ball(position, color)] *)
Definition new (position : Vector2) (color : Color) : Ball :=
  mkBall position Vector2.zero color false true.

Definition position (b : Ball) : Vector2 := Vector2.copy (_position b).

Definition set_position (b : Ball) (value : Vector2) : Ball :=
  mkBall value (_velocity b) (_color b) (_moving b) (_visible b).

Definition nextPosition (b : Ball) : Vector2 :=
  Vector2.add (position b)
    (Vector2.mult (_velocity b) (Fin 1 - Fin (friction physicsConfig))%num).

Definition velocity (b : Ball) : Vector2 := Vector2.copy (_velocity b).

Definition set_velocity (b : Ball) (value : Vector2) : Ball :=
  mkBall (_position b) value (_color b)
    (Vector2.length value >? Fin 0)%num (_visible b).

Definition shoot (b : Ball) (power angle : number) : Ball :=
  mkBall (_position b)
    (mkVector2 (power * Num.cos angle)%num (power * Num.sin angle)%num)
    (_color b) true (_visible b).

Definition show (b : Ball) (position : Vector2) : Ball :=
  mkBall position Vector2.zero (_color b) (_moving b) true.

Definition hide (b : Ball) : Ball :=
  mkBall (_position b) Vector2.zero (_color b) false false.

Definition update (b : Ball) : Ball :=
  if _moving b then
    let v := Vector2.multBy (_velocity b)
               (Fin 1 - Fin (friction physicsConfig))%num in
    let p := Vector2.addTo (_position b) v in
    let b1 := mkBall p v (_color b) (_moving b) (_visible b) in
    if (Vector2.length v <? Fin (minVelocityLength ballConfig))%num then
      let b2 := set_velocity b1 Vector2.zero in
      mkBall (_position b2) (_velocity b2) (_color b2) false (_visible b2)
    else b1
  else b.

End WithConfig.
End Ball.

(** ** game-objects/stick.ts *)

Record Stick : Type := mkStick {
  s_position : Vector2;
  s_rotation : number;
  s_origin : Vector2;
  s_power : number;
  s_movable : bool;
  s_visible : bool
}.

Module Stick.
Section WithConfig.
Variable cfg : IGameConfig.
Variable env : Env.
Let stickConfig := stick cfg.
Let inputConfig := input cfg.

(** [new Stick(position)] *)
Definition new (position : Vector2) : Stick :=
  mkStick position (Fin 0) (toVector2 (origin stickConfig)) (Fin 0) true true.

Definition set_movable (s : Stick) (value : bool) : Stick :=
  mkStick (s_position s) (s_rotation s) (s_origin s) (s_power s) value
    (s_visible s).

Definition set_visible (s : Stick) (value : bool) : Stick :=
  mkStick (s_position s) (s_rotation s) (s_origin s) (s_power s)
    (s_movable s) value.

Definition set_rotation (s : Stick) (value : number) : Stick :=
  mkStick (s_position s) value (s_origin s) (s_power s) (s_movable s)
    (s_visible s).

Definition increasePower (s : Stick) : Stick :=
  mkStick (s_position s) (s_rotation s)
    (Vector2.addToX (s_origin s) (Fin (movementPerFrame stickConfig)))
    (s_power s + Fin (powerToAddPerFrame stickConfig))%num
    (s_movable s) (s_visible s).

Definition decreasePower (s : Stick) : Stick :=
  mkStick (s_position s) (s_rotation s)
    (Vector2.addToX (s_origin s) (- Fin (movementPerFrame stickConfig))%num)
    (s_power s - Fin (powerToAddPerFrame stickConfig))%num
    (s_movable s) (s_visible s).

Definition isLessThanMaxPower (s : Stick) : bool :=
  (s_power s <? Fin (maxPower stickConfig))%num.

Definition isMoreThanMinPower (s : Stick) : bool :=
  (s_power s >=? Fin 0)%num.

Definition updatePower (s : Stick) : Stick :=
  if Keyboard_isDown env (increaseShotPowerKey inputConfig)
     && isLessThanMaxPower s
  then increasePower s
  else if Keyboard_isDown env (decreaseShotPowerKey inputConfig)
          && isMoreThanMinPower s
  then decreasePower s
  else s.

Definition updateRotation (s : Stick) : Stick :=
  let opposite := (y (Mouse_position env) - y (s_position s))%num in
  let adjacent := (x (Mouse_position env) - x (s_position s))%num in
  set_rotation s (Math_atan2 env opposite adjacent).

Definition hide (s : Stick) : Stick :=
  mkStick (s_position s) (s_rotation s) (s_origin s) (Fin 0) false false.

Definition show (s : Stick) (position : Vector2) : Stick :=
  mkStick position (s_rotation s) (toVector2 (origin stickConfig))
    (s_power s) true true.

(** The strike sound is left out. *)
Definition shoot (s : Stick) : Stick :=
  mkStick (s_position s) (s_rotation s) (toVector2 (shotOrigin stickConfig))
    (s_power s) (s_movable s) (s_visible s).

Definition update (s : Stick) : Stick :=
  if s_movable s then updatePower (updateRotation s) else s.

End WithConfig.
End Stick.

(** ** game-objects/game-world.ts *)

(** The world.  [store] holds every ball object created for the match;
    [_balls], [_cueBall], [_8Ball] and the turn state's [pocketedBalls] refer
    to them, as the JavaScript fields share the objects.  A ball removed from
    [_balls] stays in the store, where [_8Ball] still reaches it. *)
Record GameWorld : Type := mkWorld {
  store : list Ball;
  _stick : Stick;
  _cueBall : ref;
  _8Ball : ref;
  _balls : list ref;
  _players : list Player;
  _currentPlayerIndex : nat;
  _turnState : State
}.

Module GameWorld.

Definition with_store (w : GameWorld) (s : list Ball) : GameWorld :=
  mkWorld s (_stick w) (_cueBall w) (_8Ball w) (_balls w) (_players w)
    (_currentPlayerIndex w) (_turnState w).
Definition with_stick (w : GameWorld) (s : Stick) : GameWorld :=
  mkWorld (store w) s (_cueBall w) (_8Ball w) (_balls w) (_players w)
    (_currentPlayerIndex w) (_turnState w).
Definition with_balls (w : GameWorld) (l : list ref) : GameWorld :=
  mkWorld (store w) (_stick w) (_cueBall w) (_8Ball w) l (_players w)
    (_currentPlayerIndex w) (_turnState w).
Definition with_players (w : GameWorld) (l : list Player) : GameWorld :=
  mkWorld (store w) (_stick w) (_cueBall w) (_8Ball w) (_balls w) l
    (_currentPlayerIndex w) (_turnState w).
Definition with_currentPlayerIndex (w : GameWorld) (i : nat) : GameWorld :=
  mkWorld (store w) (_stick w) (_cueBall w) (_8Ball w) (_balls w)
    (_players w) i (_turnState w).
Definition with_turnState (w : GameWorld) (s : State) : GameWorld :=
  mkWorld (store w) (_stick w) (_cueBall w) (_8Ball w) (_balls w)
    (_players w) (_currentPlayerIndex w) s.

(** The ball object behind a reference, and an update of it in place. *)
Definition deref (w : GameWorld) (r : ref) : Ball := store w !!! r.
Definition modify (f : Ball -> Ball) (r : ref) (w : GameWorld) : GameWorld :=
  with_store w (alter f r (store w)).

Definition set_color (p : Player) (c : option Color) : Player :=
  mkPlayer c (matchScore p) (overallScore p).
Definition set_matchScore (p : Player) (n : Z) : Player :=
  mkPlayer (color p) n (overallScore p).
Definition set_overallScore (p : Player) (n : Z) : Player :=
  mkPlayer (color p) (matchScore p) n.

Definition set_firstCollidedBallColor (s : State) (c : option Color) : State :=
  mkState c (pocketedBalls s) (ballInHand s) (isValid s).
Definition set_pocketedBalls (s : State) (l : list ref) : State :=
  mkState (firstCollidedBallColor s) l (ballInHand s) (isValid s).
Definition set_ballInHand (s : State) (v : bool) : State :=
  mkState (firstCollidedBallColor s) (pocketedBalls s) v (isValid s).
Definition set_isValid (s : State) (v : bool) : State :=
  mkState (firstCollidedBallColor s) (pocketedBalls s) (ballInHand s) v.

(** [Array.includes], [Array.indexOf] on references. *)
Definition includes (l : list ref) (r : ref) : bool :=
  existsb (Nat.eqb r) l.

Fixpoint indexOf (l : list ref) (r : ref) : option nat :=
  match l with
  | [] => None
  | r' :: l' => if Nat.eqb r' r then Some 0%nat else S <$> indexOf l' r
  end.

(** [l.splice(l.indexOf(r), 1)]: an index of [-1] counts from the end and
    removes the last element. *)
Definition spliceIndexOf (l : list ref) (r : ref) : list ref :=
  match indexOf l r with
  | Some i => delete i l
  | None => removelast l
  end.

Section WithConfig.
Variable cfg : IGameConfig.
Let physicsConfig := physics cfg.
Let inputConfig := input cfg.
Let ballConfig := ball cfg.
Let tableConfig := table cfg.
Let aiConfig := ai cfg.

(** *** Properties *)

Definition nextPlayerIndex (w : GameWorld) : nat :=
  ((_currentPlayerIndex w + 1) mod length (_players w))%nat.
Definition currentPlayer (w : GameWorld) : Player :=
  _players w !!! _currentPlayerIndex w.
Definition nextPlayer (w : GameWorld) : Player :=
  _players w !!! nextPlayerIndex w.
Definition isBallInHand (w : GameWorld) : bool := ballInHand (_turnState w).
Definition isTurnValid (w : GameWorld) : bool := isValid (_turnState w).
Definition isGameOver (w : GameWorld) : bool :=
  Referee.isGameOver (currentPlayer w) (deref w (_cueBall w))
    (deref w (_8Ball w)).
Definition isBallsMoving (w : GameWorld) : bool :=
  existsb (fun r => _moving (deref w r)) (_balls w).
Definition numOfPocketedBallsOnTurn (w : GameWorld) : nat :=
  length (pocketedBalls (_turnState w)).

(** *** Cushions *)

Definition getBallsByColor (w : GameWorld) (c : Color) : list ref :=
  List.filter (fun r => Color_eqb (_color (deref w r)) c) (_balls w).

Definition halfDiameter : number := (Fin (diameter ballConfig) / Fin 2)%num.

Definition isBallPosOutsideTopBorder (position : Vector2) : bool :=
  let topBallEdge := (y position - halfDiameter)%num in
  (topBallEdge <=? Fin (cushionWidth tableConfig))%num.

Definition isBallPosOutsideLeftBorder (position : Vector2) : bool :=
  let leftBallEdge := (x position - halfDiameter)%num in
  (leftBallEdge <=? Fin (cushionWidth tableConfig))%num.

Definition isBallPosOutsideRightBorder (position : Vector2) : bool :=
  let rightBallEdge := (x position + halfDiameter)%num in
  (rightBallEdge >=?
     Fin (fst (gameSize cfg)) - Fin (cushionWidth tableConfig))%num.

Definition isBallPosOutsideBottomBorder (position : Vector2) : bool :=
  let bottomBallEdge := (y position + halfDiameter)%num in
  (bottomBallEdge >=?
     Fin (snd (gameSize cfg)) - Fin (cushionWidth tableConfig))%num.

Definition handleCollisionWithTopCushion (b : Ball) : Ball :=
  let b1 := Ball.set_position b
    (Vector2.addY (Ball.position b)
       (Fin (cushionWidth tableConfig) - y (Ball.position b)
        + halfDiameter)%num) in
  Ball.set_velocity b1
    (mkVector2 (x (Ball.velocity b1)) (- y (Ball.velocity b1))%num).

Definition handleCollisionWithLeftCushion (b : Ball) : Ball :=
  let b1 := Ball.set_position b
    (Vector2.addX (Ball.position b)
       (Fin (cushionWidth tableConfig) - x (Ball.position b)
        + halfDiameter)%num) in
  Ball.set_velocity b1
    (mkVector2 (- x (Ball.velocity b1))%num (y (Ball.velocity b1))).

Definition handleCollisionWithRightCushion (b : Ball) : Ball :=
  let b1 := Ball.set_position b
    (Vector2.addX (Ball.position b)
       (Fin (fst (gameSize cfg)) - Fin (cushionWidth tableConfig)
        - x (Ball.position b) - halfDiameter)%num) in
  Ball.set_velocity b1
    (mkVector2 (- x (Ball.velocity b1))%num (y (Ball.velocity b1))).

Definition handleCollisionWithBottomCushion (b : Ball) : Ball :=
  let b1 := Ball.set_position b
    (Vector2.addY (Ball.position b)
       (Fin (snd (gameSize cfg)) - Fin (cushionWidth tableConfig)
        - y (Ball.position b) - halfDiameter)%num) in
  Ball.set_velocity b1
    (mkVector2 (x (Ball.velocity b1)) (- y (Ball.velocity b1))%num).

(** Each of the four tests reads [ball.nextPosition] anew, after the
    handlers before it have run. *)
Definition resolveBallCollisionWithCushion (b : Ball) : Ball :=
  let '(b1, c1) :=
    if isBallPosOutsideTopBorder (Ball.nextPosition cfg b)
    then (handleCollisionWithTopCushion b, true) else (b, false) in
  let '(b2, c2) :=
    if isBallPosOutsideLeftBorder (Ball.nextPosition cfg b1)
    then (handleCollisionWithLeftCushion b1, true) else (b1, c1) in
  let '(b3, c3) :=
    if isBallPosOutsideRightBorder (Ball.nextPosition cfg b2)
    then (handleCollisionWithRightCushion b2, true) else (b2, c2) in
  let '(b4, c4) :=
    if isBallPosOutsideBottomBorder (Ball.nextPosition cfg b3)
    then (handleCollisionWithBottomCushion b3, true) else (b3, c3) in
  if c4 then
    Ball.set_velocity b4
      (Vector2.mult (Ball.velocity b4)
         (Fin 1 - Fin (collisionLoss physicsConfig))%num)
  else b4.

(** *** Ball against ball *)

(** The two balls after the call, and the value returned. *)
Definition resolveBallsCollision (first second : Ball)
  : Ball * Ball * bool :=
  if negb (_visible first) || negb (_visible second) then
    (first, second, false)
  else
    let n := Vector2.subtract (Ball.position first) (Ball.position second) in
    let dist := Vector2.length n in
    if (dist >? Fin (diameter ballConfig))%num then (first, second, false)
    else
      let mtd := Vector2.mult n ((Fin (diameter ballConfig) - dist) / dist)%num in
      let first1 := Ball.set_position first
        (Vector2.add (Ball.position first) (Vector2.mult mtd (Fin (1 / 2)))) in
      let second1 := Ball.set_position second
        (Vector2.subtract (Ball.position second)
           (Vector2.mult mtd (Fin (1 / 2)))) in
      let un := Vector2.mult n (Fin 1 / Vector2.length n)%num in
      let ut := mkVector2 (- y un)%num (x un) in
      let v1n := Vector2.dot un (Ball.velocity first1) in
      let v1t := Vector2.dot ut (Ball.velocity first1) in
      let v2n := Vector2.dot un (Ball.velocity second1) in
      let v2t := Vector2.dot ut (Ball.velocity second1) in
      let v1nTag := Vector2.mult un v2n in
      let v1tTag := Vector2.mult ut v1t in
      let v2nTag := Vector2.mult un v1n in
      let v2tTag := Vector2.mult ut v2t in
      let first2 := Ball.set_velocity first1 (Vector2.add v1nTag v1tTag) in
      let second2 := Ball.set_velocity second1 (Vector2.add v2nTag v2tTag) in
      let first3 := Ball.set_velocity first2
        (Vector2.mult (Ball.velocity first2)
           (Fin 1 - Fin (collisionLoss physicsConfig))%num) in
      let second3 := Ball.set_velocity second2
        (Vector2.mult (Ball.velocity second2)
           (Fin 1 - Fin (collisionLoss physicsConfig))%num) in
      (first3, second3, true).

(** The body of the inner loop of [handleCollisions] for the balls behind
    [i] and [j]; the sound is left out. *)
Definition collidePair (i j : ref) (w : GameWorld) : GameWorld :=
  let firstBall := deref w i in
  let secondBall := deref w j in
  let '(first', second', collided) :=
    resolveBallsCollision firstBall secondBall in
  let w1 := with_store w (<[j := second']> (<[i := first']> (store w))) in
  if collided then
    match firstCollidedBallColor (_turnState w1) with
    | None =>
        let c := if Color_eqb (_color firstBall) white
                 then _color secondBall else _color firstBall in
        with_turnState w1 (set_firstCollidedBallColor (_turnState w1) (Some c))
    | Some _ => w1
    end
  else w1.

(** The outer loop over [_balls[i]], the inner one over the balls after
    it. *)
Fixpoint handleCollisionsFrom (balls : list ref) (w : GameWorld) : GameWorld :=
  match balls with
  | [] => w
  | i :: rest =>
      let w1 := modify resolveBallCollisionWithCushion i w in
      let w2 := fold_left (fun acc j => collidePair i j acc) rest w1 in
      handleCollisionsFrom rest w2
  end.

Definition handleCollisions (w : GameWorld) : GameWorld :=
  handleCollisionsFrom (_balls w) w.

(** *** Pockets *)

Definition isInsidePocket (position : Vector2) : bool :=
  existsb
    (fun pocketPos : IVector2 =>
       (Vector2.distFrom position (toVector2 pocketPos)
        <=? Fin (pocketRadius tableConfig))%num)
    (pocketsPositions tableConfig).

Definition resolveBallInPocket (b : Ball) : Ball :=
  if isInsidePocket (Ball.position b) then Ball.hide b else b.

Definition isValidPlayerColor (c : Color) : bool :=
  Color_eqb c red || Color_eqb c yellow.

(** The body of the [forEach] of [handleBallsInPockets] for the ball behind
    [r]; the sound is left out. *)
Definition handleBallInPocket (w : GameWorld) (r : ref) : GameWorld :=
  let w1 := modify resolveBallInPocket r w in
  let b := deref w1 r in
  if negb (_visible b) && negb (includes (pocketedBalls (_turnState w1)) r)
  then
    let w2 :=
      match color (currentPlayer w1) with
      | None =>
          if isValidPlayerColor (_color b) then
            let ps1 := alter (fun p => set_color p (Some (_color b)))
                         (_currentPlayerIndex w1) (_players w1) in
            let w' := with_players w1 ps1 in
            with_players w'
              (alter
                 (fun p => set_color p
                    (Some (if Color_eqb (_color b) yellow then red else yellow)))
                 (nextPlayerIndex w') (_players w'))
          else w1
      | Some _ => w1
      end in
    with_turnState w2
      (set_pocketedBalls (_turnState w2)
         (pocketedBalls (_turnState w2) ++ [r]))
  else w1.

Definition handleBallsInPockets (w : GameWorld) : GameWorld :=
  fold_left handleBallInPocket (_balls w) w.

(** *** Cue ball in hand *)

Definition isInsideTableBoundaries (position : Vector2) : bool :=
  let insideTable := negb (isInsidePocket position) in
  let insideTable := insideTable && negb (isBallPosOutsideTopBorder position) in
  let insideTable := insideTable && negb (isBallPosOutsideLeftBorder position) in
  let insideTable := insideTable && negb (isBallPosOutsideRightBorder position) in
  let insideTable := insideTable && negb (isBallPosOutsideBottomBorder position) in
  insideTable.

Definition isValidPosToPlaceCueBall (w : GameWorld) (position : Vector2)
  : bool :=
  let noOverlap :=
    forallb
      (fun r =>
         Color_eqb (_color (deref w r)) white
         || (Vector2.distFrom (Ball.position (deref w r)) position
             >? Fin (diameter ballConfig))%num)
      (_balls w) in
  noOverlap && isInsideTableBoundaries position.

Definition placeBallInHand (w : GameWorld) (position : Vector2) : GameWorld :=
  let w1 := modify (fun b => Ball.set_position b position) (_cueBall w) w in
  let w2 := with_turnState w1 (set_ballInHand (_turnState w1) false) in
  with_stick w2
    (Stick.show cfg (_stick w2) (Ball.position (deref w2 (_cueBall w2)))).

Definition handleBallInHand (env : Env) (w : GameWorld) : GameWorld :=
  if Mouse_isPressed env (mousePlaceBallButton inputConfig)
     && isValidPosToPlaceCueBall w (Mouse_position env)
  then placeBallInHand w (Mouse_position env)
  else
    let w1 := with_stick w (Stick.set_movable (_stick w) false) in
    let w2 := with_stick w1 (Stick.set_visible (_stick w1) false) in
    modify (fun b => Ball.set_position b (Mouse_position env)) (_cueBall w2) w2.

(** *** Turns *)

Definition isAITurn (env : Env) (w : GameWorld) : bool :=
  AI_finishedSession env && on aiConfig
  && Nat.eqb (_currentPlayerIndex w) (playerIndex aiConfig).

(** [initMatch] makes new ball objects, so the store is new; the players
    keep their overall scores.  The second component tells whether
    [AI.startSession(this)] is called on the new world. *)
Definition initMatch (env : Env) (w : GameWorld) : GameWorld * bool :=
  let redBalls :=
    (fun p => Ball.new (toVector2 p) yellow) <$> redBallsPositions cfg in
  let yellowBalls :=
    (fun p => Ball.new (toVector2 p) red) <$> yellowBallsPositions cfg in
  let eight := Ball.new (toVector2 (eightBallPosition cfg)) black in
  let cue := Ball.new (toVector2 (cueBallPosition cfg)) white in
  let balls := redBalls ++ yellowBalls ++ [eight; cue] in
  let n := (length redBalls + length yellowBalls)%nat in
  let w' := {|
    store := balls;
    _stick := Stick.new cfg (toVector2 (cueBallPosition cfg));
    _cueBall := S n;
    _8Ball := n;
    _balls := seq 0 (length balls);
    _players :=
      (fun p => set_color (set_matchScore p 0) None) <$> _players w;
    _currentPlayerIndex := 0;
    _turnState := newState
  |} in
  (w', isAITurn env w').

Definition shootCueBall (w : GameWorld) (power rotation : number)
  : GameWorld :=
  if (power >? Fin 0)%num then
    let w1 := with_stick w (Stick.set_rotation (_stick w) rotation) in
    let w2 := with_stick w1 (Stick.shoot cfg (_stick w1)) in
    let w3 := modify (fun b => Ball.shoot b power rotation) (_cueBall w2) w2 in
    with_stick w3 (Stick.set_movable (_stick w3) false)
  else w.

(** The callback that [shootCueBall] hands to [setTimeout]; it runs when the
    timer fires, between two frames. *)
Definition hideStickAfterShot (w : GameWorld) : GameWorld :=
  with_stick w (Stick.hide (_stick w)).

Definition handleInput (env : Env) (w : GameWorld) : GameWorld :=
  if AI_finishedSession env
     && Mouse_isPressed env (mouseShootButton inputConfig)
  then shootCueBall w (s_power (_stick w)) (s_rotation (_stick w))
  else w.

Definition concludeTurn (w : GameWorld) : GameWorld :=
  let w1 :=
    fold_left
      (fun acc r =>
         if negb (Color_eqb (_color (deref acc r)) white)
         then with_balls acc (spliceIndexOf (_balls acc) r)
         else acc)
      (pocketedBalls (_turnState w)) w in
  let score (acc : GameWorld) (c : Color) : Z :=
    (8 - Z.of_nat (length (getBallsByColor acc c))
       - Z.of_nat (length (getBallsByColor acc black)))%Z in
  let w2 :=
    match color (currentPlayer w1) with
    | Some c =>
        with_players w1
          (alter (fun p => set_matchScore p (score w1 c))
             (_currentPlayerIndex w1) (_players w1))
    | None => w1
    end in
  let w3 :=
    match color (nextPlayer w2) with
    | Some c =>
        with_players w2
          (alter (fun p => set_matchScore p (score w2 c))
             (nextPlayerIndex w2) (_players w2))
    | None => w2
    end in
  with_turnState w3
    (set_isValid (_turnState w3)
       (Referee.isValidTurn (store w3) (currentPlayer w3) (_turnState w3))).

Definition handleGameOver (env : Env) (w : GameWorld) : GameWorld * bool :=
  let w1 :=
    if isValid (_turnState w) then
      with_players w
        (alter (fun p => set_overallScore p (overallScore p + 1)%Z)
           (_currentPlayerIndex w) (_players w))
    else
      with_players w
        (alter (fun p => set_overallScore p (overallScore p + 1)%Z)
           (nextPlayerIndex w) (_players w)) in
  initMatch env w1.

(** The second component tells whether [AI.startSession(this)] is called
    before [nextTurn] returns; the session itself is the trainer's. *)
Definition nextTurn (env : Env) (w : GameWorld) : GameWorld * bool :=
  let foul := negb (isValid (_turnState w)) in
  if isGameOver w then handleGameOver env w
  else
    let w1 :=
      if negb (_visible (deref w (_cueBall w))) then
        modify (fun b => Ball.show b (Vector2.copy (toVector2 (cueBallPosition cfg))))
          (_cueBall w) w
      else w in
    let w2 :=
      if foul || Nat.eqb (length (pocketedBalls (_turnState w1))) 0 then
        with_currentPlayerIndex w1
          ((_currentPlayerIndex w1 + 1) mod length (_players w1))%nat
      else w1 in
    let w3 :=
      with_stick w2
        (Stick.show cfg (_stick w2) (Ball.position (deref w2 (_cueBall w2)))) in
    let w4 := with_turnState w3 newState in
    let w5 := with_turnState w4 (set_ballInHand (_turnState w4) foul) in
    (w5, isAITurn env w5).

(** *** The frame *)

Definition update (env : Env) (w : GameWorld) : GameWorld * bool :=
  if isBallInHand w then (handleBallInHand env w, false)
  else
    let w1 := handleBallsInPockets w in
    let w2 := handleCollisions w1 in
    let w3 := handleInput env w2 in
    let w4 := with_stick w3 (Stick.update cfg env (_stick w3)) in
    let w5 :=
      fold_left (fun acc r => modify (Ball.update cfg) r acc) (_balls w4) w4 in
    if negb (isBallsMoving w5) && negb (s_visible (_stick w5)) then
      nextTurn env (concludeTurn w5)
    else (w5, false).

End WithConfig.
End GameWorld.

(** ** ai/ai-policy.ts *)

Module AIPolicy.
Section WithConfig.
Variable cfg : IGameConfig.
Let aiConfig := ai cfg.

(** The two nested loops over the pairs of [gameWorld.balls]. *)
Fixpoint distanceBonus (w : GameWorld) (balls : list ref) (evaluation : number)
  : number :=
  match balls with
  | [] => evaluation
  | i :: rest =>
      distanceBonus w rest
        (fold_left
           (fun acc j =>
              (acc + Vector2.distFrom (Ball.position (GameWorld.deref w i))
                       (Ball.position (GameWorld.deref w j))
                     * Fin (ballDistanceBonus aiConfig))%num)
           rest evaluation)
  end.

Definition evaluate (gameWorld : GameWorld) : number :=
  let evaluation := distanceBonus gameWorld (_balls gameWorld) (Fin 1) in
  if GameWorld.isTurnValid gameWorld then
    let evaluation := (evaluation + Fin (validTurnBonus aiConfig))%num in
    let evaluation :=
      (evaluation
       + Fin (pocketedBallBonus aiConfig)
         * Fin (INR (GameWorld.numOfPocketedBallsOnTurn gameWorld)))%num in
    if GameWorld.isGameOver gameWorld
    then (evaluation + Fin (gameWonBonus aiConfig))%num
    else evaluation
  else
    let evaluation := (evaluation - Fin (invalidTurnPenalty aiConfig))%num in
    if GameWorld.isGameOver gameWorld
    then (evaluation - Fin (gameLossPenalty aiConfig))%num
    else evaluation.

End WithConfig.
End AIPolicy.

(** ** ai/ai-opponent.ts *)

Record AIOpponent : Type := mkOpponent {
  power : number;
  rotation : number;
  evaluation : number
}.

#[global] Instance AIOpponent_inhabited : Inhabited AIOpponent :=
  populate (mkOpponent (Fin 50) (Fin 0) (Fin 0)).

(** ** ai/ai-trainer.ts *)

(** The trainer.  [opponentStore] holds every [AIOpponent] object made
    during the session; [_opponents], [_currentOpponent] and [_bestOpponent]
    refer to them: [init] makes the last two one and the same object.
    [randomCalls] counts the calls of [Math.random]. *)
Record AITrainer : Type := mkTrainer {
  opponentStore : list AIOpponent;
  _opponents : list ref;
  _currentOpponent : ref;
  _initialGameWorld : GameWorld;
  _gameWorld : GameWorld;
  _iteration : nat;
  _finishedSession : bool;
  _bestOpponent : ref;
  randomCalls : nat
}.

Module AITrainer.
Section WithConfig.
Variable cfg : IGameConfig.
(** [Math_random k] is the value of the [k]-th call of [Math.random]. *)
Variable Math_random : nat -> R.
Let aiConfig := ai cfg.
Let stickConfig := stick cfg.

Definition set_evaluation (e : number) (o : AIOpponent) : AIOpponent :=
  mkOpponent (power o) (rotation o) e.

(** [new AIOpponent(power, rotation)]: the evaluation defaults to 0. *)
Definition newOpponent (power rotation : number) : AIOpponent :=
  mkOpponent power rotation (Fin 0).

(** The opponent made, from the [k]-th call of [Math.random] on; both
    makers call it twice. *)
Definition createMutation (k : nat) (opponent : AIOpponent) : AIOpponent :=
  let newPower := power opponent in
  let newPower :=
    (newPower
     + (Fin (Math_random k) * Fin 2 * Fin (shotPowerMutationVariance aiConfig)
        - Fin (shotPowerMutationVariance aiConfig)))%num in
  let newPower :=
    if (newPower <? Fin (minShotPower aiConfig))%num
    then Fin (minShotPower aiConfig) else newPower in
  let newPower :=
    if (newPower >? Fin (maxPower stickConfig))%num
    then Fin (maxPower stickConfig) else newPower in
  let newRotation := rotation opponent in
  let newRotation :=
    if (evaluation opponent >? Fin 0)%num then
      (newRotation
       + (Fin 1 / evaluation opponent)
         * (Fin (Math_random (S k)) * Fin 2 * Fin PI - Fin PI))%num
    else (Fin (Math_random (S k)) * Fin 2 * Fin PI - Fin PI)%num in
  newOpponent newPower newRotation.

Definition createRandomOpponent (k : nat) : AIOpponent :=
  let power := (Fin (Math_random k) * Fin 75 + Fin 1)%num in
  let rotation := (Fin (Math_random (S k)) * Fin 2 * Fin PI)%num in
  newOpponent power rotation.

Definition init (t : AITrainer) : AITrainer :=
  let o := length (opponentStore t) in
  {| opponentStore := opponentStore t ++ [createRandomOpponent (randomCalls t)];
     _opponents := [];
     _currentOpponent := o;
     _initialGameWorld := _initialGameWorld t;
     _gameWorld := _gameWorld t;
     _iteration := 0;
     _finishedSession := _finishedSession t;
     _bestOpponent := o;
     randomCalls := S (S (randomCalls t)) |}.

Definition buildNewOpponent (t : AITrainer) : AIOpponent :=
  if Nat.eqb (_iteration t mod 10) 0
  then createRandomOpponent (randomCalls t)
  else createMutation (randomCalls t) (opponentStore t !!! _bestOpponent t).

Definition with_worlds (t : AITrainer) (initial sim : GameWorld) : AITrainer :=
  mkTrainer (opponentStore t) (_opponents t) (_currentOpponent t) initial sim
    (_iteration t) (_finishedSession t) (_bestOpponent t) (randomCalls t).

Definition playTurn (t : AITrainer) : AITrainer :=
  let best := opponentStore t !!! _bestOpponent t in
  with_worlds t
    (GameWorld.shootCueBall cfg (_initialGameWorld t) (power best)
       (rotation best))
    (_gameWorld t).

Definition simulate (t : AITrainer) : AITrainer :=
  let current := opponentStore t !!! _currentOpponent t in
  with_worlds t (_initialGameWorld t)
    (GameWorld.shootCueBall cfg (_gameWorld t) (power current)
       (rotation current)).

(** One call of [train].  [cloneDeep] of a world is the world itself, as a
    value; the sound switch is left out. *)
Definition train (t : AITrainer) : AITrainer :=
  if Nat.eqb (_iteration t) (trainIterations aiConfig) then
    let t1 := playTurn t in
    mkTrainer (opponentStore t1) (_opponents t1) (_currentOpponent t1)
      (_initialGameWorld t1) (_gameWorld t1) (_iteration t1) true
      (_bestOpponent t1) (randomCalls t1)
  else if GameWorld.isBallsMoving (_gameWorld t) then t
  else
    let gw := GameWorld.concludeTurn (_gameWorld t) in
    (* this._currentOpponent.evaluation = this._policy.evaluate(...) *)
    let store1 :=
      alter (set_evaluation (AIPolicy.evaluate cfg gw)) (_currentOpponent t)
        (opponentStore t) in
    let cur := store1 !!! _currentOpponent t in
    (* const current = new AIOpponent(...) *)
    let current : ref := length store1 in
    let store2 :=
      store1 ++ [mkOpponent (power cur) (rotation cur) (evaluation cur)] in
    let opponents := _opponents t ++ [current] in
    let best :=
      if (evaluation (store2 !!! current)
          >? evaluation (store2 !!! _bestOpponent t))%num
      then current else _bestOpponent t in
    let t2 :=
      mkTrainer store2 opponents (_currentOpponent t) (_initialGameWorld t)
        (_initialGameWorld t) (_iteration t) (_finishedSession t) best
        (randomCalls t) in
    (* this._currentOpponent = this.buildNewOpponent() *)
    let t3 :=
      mkTrainer (store2 ++ [buildNewOpponent t2]) opponents (length store2)
        (_initialGameWorld t2) (_gameWorld t2) (S (_iteration t2))
        (_finishedSession t2) best (S (S (randomCalls t2))) in
    simulate t3.

(** The body of the loop of [opponentTrainingLoop]: [train], then a frame of
    the simulated world.  The frame sees the trainer's session flag. *)
Definition trainingStep (env : Env) (t : AITrainer) : AITrainer :=
  let t1 := train t in
  let env1 :=
    mkEnv (Mouse_position env) (Mouse_isPressed env) (Keyboard_isDown env)
      (_finishedSession t1) (Math_atan2 env) in
  with_worlds t1 (_initialGameWorld t1)
    (fst (GameWorld.update cfg env1 (_gameWorld t1))).

(** [opponentTrainingLoop], for at most [fuel] turns of the loop. *)
Fixpoint opponentTrainingLoop (env : Env) (fuel : nat) (t : AITrainer)
  : AITrainer :=
  match fuel with
  | O => t
  | S fuel' =>
      if _finishedSession t then t
      else opponentTrainingLoop env fuel' (trainingStep env t)
  end.

(** The loop of [placeBallInHand]: the first position, from [pos] on in
    steps of 5 to the right, at which the cue ball may be put down; [None]
    when none is found within [fuel] steps. *)
Fixpoint findPlaceForCueBall (fuel : nat) (gameWorld : GameWorld)
    (pos : Vector2) : option Vector2 :=
  if GameWorld.isValidPosToPlaceCueBall cfg gameWorld pos then Some pos
  else match fuel with
       | O => None
       | S fuel' =>
           findPlaceForCueBall fuel' gameWorld (Vector2.addToX pos (Fin 5))
       end.

Definition placeBallInHand (fuel : nat) (gameWorld : GameWorld)
  : option GameWorld :=
  match findPlaceForCueBall fuel gameWorld
          (Vector2.copy (toVector2 (cueBallPosition cfg))) with
  | Some pos => Some (GameWorld.placeBallInHand cfg gameWorld pos)
  | None => None
  end.

(** [startSession] up to its call of [opponentTrainingLoop]; the sound
    switch is left out. *)
Definition beginSession (fuel : nat) (gameWorld : GameWorld) (t : AITrainer)
  : option AITrainer :=
  let placed :=
    if GameWorld.isBallInHand gameWorld
    then placeBallInHand fuel gameWorld else Some gameWorld in
  match placed with
  | None => None
  | Some gw =>
      let t1 := init (with_worlds t gw gw) in
      let t2 :=
        mkTrainer (opponentStore t1) (_opponents t1) (_currentOpponent t1)
          (_initialGameWorld t1) (_gameWorld t1) (_iteration t1) false
          (_bestOpponent t1) (randomCalls t1) in
      Some (simulate t2)
  end.

Definition startSession (env : Env) (fuel loopFuel : nat)
    (gameWorld : GameWorld) (t : AITrainer) : option AITrainer :=
  opponentTrainingLoop env loopFuel <$> beginSession fuel gameWorld t.

(** The evaluation recorded for the best opponent. *)
Definition bestEvaluation (t : AITrainer) : number :=
  evaluation (opponentStore t !!! _bestOpponent t).

End WithConfig.
End AITrainer.

(** ** input/button-state.ts, input/mouse.ts *)

Record ButtonState : Type := mkButtonState {
  down : bool;
  pressed : bool
}.

(** The mouse: the array of button states and the position of the
    cursor. *)
Record Mouse : Type := mkMouse {
  _buttonStates : list ButtonState;
  m_position : Vector2
}.

(** What the three listeners are called with: the page coordinates of a
    move, or the button of a press or a release. *)
Inductive MouseEvent : Type :=
  | mousemove (pageX pageY : number)
  | mousedown (button : nat)
  | mouseup (button : nat).

Module Mouse.

(** [new Mouse_Singleton()]: three button states, the position (0, 0). *)
Definition new : Mouse :=
  mkMouse (replicate 3 (mkButtonState false false)) Vector2.zero.

Definition position (m : Mouse) : Vector2 := Vector2.copy (m_position m).

(** [this._buttonStates[button].down = value]: for a button the array does
    not hold, [this._buttonStates[button]] is [undefined] and the assignment
    throws a [TypeError], which is [None]. *)
Definition set_down (m : Mouse) (button : nat) (value : bool)
  : option Mouse :=
  match _buttonStates m !! button with
  | Some _ =>
      Some (mkMouse
              (alter (fun b => mkButtonState value (pressed b)) button
                 (_buttonStates m))
              (m_position m))
  | None => None
  end.

(** [this._buttonStates[button].pressed = value] *)
Definition set_pressed (m : Mouse) (button : nat) (value : bool)
  : option Mouse :=
  match _buttonStates m !! button with
  | Some _ =>
      Some (mkMouse
              (alter (fun b => mkButtonState (down b) value) button
                 (_buttonStates m))
              (m_position m))
  | None => None
  end.

(** [offsetX], [offsetY], [scaleX], [scaleY] are the canvas's. *)
Definition handleMouseMove (offsetX offsetY scaleX scaleY : number)
    (m : Mouse) (pageX pageY : number) : Mouse :=
  let mouseX := ((pageX - offsetX) / scaleX)%num in
  let mouseY := ((pageY - offsetY) / scaleY)%num in
  mkMouse (_buttonStates m) (mkVector2 mouseX mouseY).

Definition handleMouseDown (m : Mouse) (button : nat) : option Mouse :=
  m1 ← set_down m button true; set_pressed m1 button true.

Definition handleMouseUp (m : Mouse) (button : nat) : option Mouse :=
  set_down m button false.

(** The loop over the buttons 0, 1 and 2. *)
Definition reset (m : Mouse) : option Mouse :=
  m1 ← set_pressed m 0 false;
  m2 ← set_pressed m1 1 false;
  set_pressed m2 2 false.

Definition isDown (m : Mouse) (button : nat) : option bool :=
  down <$> _buttonStates m !! button.

Definition isPressed (m : Mouse) (button : nat) : option bool :=
  pressed <$> _buttonStates m !! button.

(** One event delivered to its listener.  An exception thrown by a listener
    is reported by the page, which goes on with the mouse as it was. *)
Definition dispatch (offsetX offsetY scaleX scaleY : number) (m : Mouse)
    (ev : MouseEvent) : Mouse :=
  match ev with
  | mousemove pageX pageY =>
      handleMouseMove offsetX offsetY scaleX scaleY m pageX pageY
  | mousedown button => default m (handleMouseDown m button)
  | mouseup button => default m (handleMouseUp m button)
  end.

End Mouse.

(** ** menu/commands/toggle-sound-command.ts *)

(** What the command reads and writes of [GameConfig]: the sound switch and
    the four sprite paths of the mute button. *)
Record SoundConfig : Type := mkSoundConfig {
  soundOn : bool;
  muteButton : String.string;
  muteButtonHovered : String.string;
  muteButtonPressed : String.string;
  muteButtonPressedHovered : String.string
}.

Module ToggleSoundCommand.

Definition toggleMuteButtonSprite (c : SoundConfig) : SoundConfig :=
  let currentMuteButtonPath := muteButton c in
  let currentMuteButtonHoveredPath := muteButtonHovered c in
  (* sprites.paths.muteButton = sprites.paths.muteButtonPressed *)
  let c1 :=
    mkSoundConfig (soundOn c) (muteButtonPressed c) (muteButtonHovered c)
      (muteButtonPressed c) (muteButtonPressedHovered c) in
  (* sprites.paths.muteButtonHovered = sprites.paths.muteButtonPressedHovered *)
  let c2 :=
    mkSoundConfig (soundOn c1) (muteButton c1) (muteButtonPressedHovered c1)
      (muteButtonPressed c1) (muteButtonPressedHovered c1) in
  (* sprites.paths.muteButtonPressed = currentMuteButtonPath *)
  let c3 :=
    mkSoundConfig (soundOn c2) (muteButton c2) (muteButtonHovered c2)
      currentMuteButtonPath (muteButtonPressedHovered c2) in
  (* sprites.paths.muteButtonPressedHovered = currentMuteButtonHoveredPath *)
  mkSoundConfig (soundOn c3) (muteButton c3) (muteButtonHovered c3)
    (muteButtonPressed c3) currentMuteButtonHoveredPath.

Definition execute (c : SoundConfig) : SoundConfig :=
  toggleMuteButtonSprite
    (mkSoundConfig (negb (soundOn c)) (muteButton c) (muteButtonHovered c)
       (muteButtonPressed c) (muteButtonPressedHovered c)).

End ToggleSoundCommand.

(** * The vocabulary of the properties *)

(** The first-touch rule in the words of the specification, where "exactly 1
    remaining" and "7 or 8 remaining" are the values 1, 7 and 8 of the
    player's [matchScore], the only count the referee reads. *)
Definition firstTouch_as_specified (player : Player)
    (collidedBallColor : option Color) (somePocketed : bool) : Prop :=
  exists touched, collidedBallColor = Some touched /\
    match color player with
    | None => touched <> black
    | Some pc =>
        pc = touched
        \/ (matchScore player = 1%Z /\ somePocketed = true)
        \/ ((matchScore player = 7%Z \/ matchScore player = 8%Z)
            /\ touched = black)
    end.

(** What the referee computes: the same rule, where the clause for a
    [matchScore] of 1 also asks that the ball touched is not the black. *)
Definition firstTouch_rule (player : Player)
    (collidedBallColor : option Color) (somePocketed : bool) : Prop :=
  exists touched, collidedBallColor = Some touched /\
    match color player with
    | None => touched <> black
    | Some pc =>
        pc = touched
        \/ (matchScore player = 1%Z /\ somePocketed = true
            /\ touched <> black)
        \/ ((matchScore player = 7%Z \/ matchScore player = 8%Z)
            /\ touched = black)
    end.

(** The positions at which the cue ball may be put down: within the four
    cushions, outside every pocket, and more than a diameter away from
    every ball of the table that is not white. *)
Definition legalCueBallPosition (cfg : IGameConfig) (w : GameWorld)
    (a b : R) : Prop :=
  let D := diameter (ball cfg) in
  let cw := cushionWidth (table cfg) in
  (cw < b - D / 2 /\ cw < a - D / 2
   /\ a + D / 2 < fst (gameSize cfg) - cw
   /\ b + D / 2 < snd (gameSize cfg) - cw)
  /\ (forall q, In q (pocketsPositions (table cfg)) ->
        pocketRadius (table cfg)
        < sqrt ((a - fst q) * (a - fst q) + (b - snd q) * (b - snd q)))
  /\ (forall r, In r (_balls w) ->
        _color (GameWorld.deref w r) <> white ->
        (Vector2.distFrom (Ball.position (GameWorld.deref w r)) (V a b)
         >? Fin D)%num = true).

Definition complementColor (c : Color) : Color :=
  if Color_eqb c yellow then red else yellow.

(** The ball behind [r] goes into a pocket, or lies hidden, in this frame
    and is not yet among the pocketed balls of the turn. *)
Definition newlyPocketed (cfg : IGameConfig) (w : GameWorld) (r : ref) : bool :=
  negb (_visible (GameWorld.resolveBallInPocket cfg (GameWorld.deref w r)))
  && negb (GameWorld.includes (pocketedBalls (_turnState w)) r).

(** The red and yellow balls newly pocketed in this frame, in the order of
    [_balls]. *)
Definition coloredBallsPocketed (cfg : IGameConfig) (w : GameWorld)
  : list ref :=
  List.filter
    (fun r => newlyPocketed cfg w r
              && GameWorld.isValidPlayerColor (_color (GameWorld.deref w r)))
    (_balls w).

Definition playerColors (w : GameWorld) : list (option Color) :=
  color <$> _players w.

(** The best opponent and the opponent under test are two objects of the
    store.  [init] makes them one object; they are two from the first
    evaluation on. *)
Definition bestIsRecorded (t : AITrainer) : Prop :=
  _bestOpponent t <> _currentOpponent t
  /\ (_bestOpponent t < length (opponentStore t))%nat
  /\ (_currentOpponent t < length (opponentStore t))%nat.

(** The states of a session: before the first evaluation the best opponent
    is the opponent under test itself and no iteration is counted; after it
    the best opponent is recorded apart. *)
Definition sessionState (t : AITrainer) : Prop :=
  (_iteration t = 0%nat
   /\ _bestOpponent t = _currentOpponent t
   /\ (_currentOpponent t < length (opponentStore t))%nat)
  \/ ((1 <= _iteration t)%nat /\ bestIsRecorded t).

(** The balls on the table are distinct objects of the store, the cue ball
    is a white one of them, the 8-ball is a black object of the store, the
    player to move exists, and the balls recorded as pocketed in the turn are
    distinct hidden balls of the table. *)
Definition wellFormed (w : GameWorld) : Prop :=
  List.NoDup (_balls w)
  /\ (forall r, In r (_balls w) -> (r < length (store w))%nat)
  /\ In (_cueBall w) (_balls w)
  /\ (_8Ball w < length (store w))%nat
  /\ _color (GameWorld.deref w (_cueBall w)) = white
  /\ _color (GameWorld.deref w (_8Ball w)) = black
  /\ (_currentPlayerIndex w < length (_players w))%nat
  /\ List.NoDup (pocketedBalls (_turnState w))
  /\ (forall r, In r (pocketedBalls (_turnState w)) ->
        In r (_balls w) /\ _visible (GameWorld.deref w r) = false).

(** Two worlds with the same table: the same balls in the same roles, with
    the colors and the visibility they had, the same record of pocketed
    balls, the same player to move and as many players. *)
Definition sameTable (w w' : GameWorld) : Prop :=
  _balls w' = _balls w /\ _cueBall w' = _cueBall w /\ _8Ball w' = _8Ball w
  /\ length (store w') = length (store w)
  /\ (forall r,
        _color (GameWorld.deref w' r) = _color (GameWorld.deref w r)
        /\ _visible (GameWorld.deref w' r) = _visible (GameWorld.deref w r))
  /\ pocketedBalls (_turnState w') = pocketedBalls (_turnState w)
  /\ _currentPlayerIndex w' = _currentPlayerIndex w
  /\ length (_players w') = length (_players w).

(** The opponents recorded so far are as many as the iterations counted;
    each is an object of its own, apart from the opponent under test, and
    none has an evaluation greater than the best opponent's. *)
Definition bestDominates (t : AITrainer) : Prop :=
  length (_opponents t) = _iteration t
  /\ forall r, In r (_opponents t) ->
       (r < length (opponentStore t))%nat /\ r <> _currentOpponent t
       /\ (evaluation (opponentStore t !!! r)
           >? AITrainer.bestEvaluation t)%num = false.



(** * Sample states *)

(** The pointer at [(a, b)] with every button pressed, no key down, and no
    AI session running. *)
Definition env_pressed_at (a b : R) : Env :=
  mkEnv (V a b) (fun _ => true) (fun _ => false) true (fun _ _ => Fin 0).

Definition twoPlayers : list Player := [mkPlayer None 0 0; mkPlayer None 0 0].

(** The black ball and the cue ball on their spots, the cue ball in hand. *)
Definition worldInHand : GameWorld := {|
  store := [Ball.new (V 1090 413) black; Ball.new (V 413 413) white];
  _stick := Stick.new GameConfig (V 413 413);
  _cueBall := 1%nat;
  _8Ball := 0%nat;
  _balls := [0%nat; 1%nat];
  _players := twoPlayers;
  _currentPlayerIndex := 0%nat;
  _turnState := mkState None [] true false
|}.

(** The black ball was pocketed on a foul by the second player; the turn is
    concluded and the black ball taken off the table. *)
Definition worldBlackPocketedOnFoul : GameWorld := {|
  store := [Ball.hide (Ball.new (V 62 62) black); Ball.new (V 413 413) white];
  _stick := Stick.hide (Stick.new GameConfig (V 413 413));
  _cueBall := 1%nat;
  _8Ball := 0%nat;
  _balls := [1%nat];
  _players := [mkPlayer (Some red) 3 0; mkPlayer (Some yellow) 2 0];
  _currentPlayerIndex := 1%nat;
  _turnState := mkState (Some black) [0%nat] false false
|}.

(** A colorless first player to move; a yellow and a red ball lie in two
    pockets, the black and the cue ball on their spots. *)
Definition worldTwoColorsPocketed : GameWorld := {|
  store := [Ball.new (V 62 62) yellow; Ball.new (V 750 32) red;
            Ball.new (V 1090 413) black; Ball.new (V 413 413) white];
  _stick := Stick.hide (Stick.new GameConfig (V 413 413));
  _cueBall := 3%nat;
  _8Ball := 2%nat;
  _balls := [0%nat; 1%nat; 2%nat; 3%nat];
  _players := twoPlayers;
  _currentPlayerIndex := 0%nat;
  _turnState := mkState (Some yellow) [] false false
|}.

(** [worldTwoColorsPocketed] once the yellow ball has been found in its
    pocket, and once the red ball has been found too. *)
Definition worldYellowPocketed : GameWorld := {|
  store := [Ball.hide (Ball.new (V 62 62) yellow); Ball.new (V 750 32) red;
            Ball.new (V 1090 413) black; Ball.new (V 413 413) white];
  _stick := Stick.hide (Stick.new GameConfig (V 413 413));
  _cueBall := 3%nat;
  _8Ball := 2%nat;
  _balls := [0%nat; 1%nat; 2%nat; 3%nat];
  _players := [mkPlayer (Some yellow) 0 0; mkPlayer (Some red) 0 0];
  _currentPlayerIndex := 0%nat;
  _turnState := mkState (Some yellow) [0%nat] false false
|}.

Definition worldBothPocketed : GameWorld := {|
  store := [Ball.hide (Ball.new (V 62 62) yellow);
            Ball.hide (Ball.new (V 750 32) red);
            Ball.new (V 1090 413) black; Ball.new (V 413 413) white];
  _stick := Stick.hide (Stick.new GameConfig (V 413 413));
  _cueBall := 3%nat;
  _8Ball := 2%nat;
  _balls := [0%nat; 1%nat; 2%nat; 3%nat];
  _players := [mkPlayer (Some yellow) 0 0; mkPlayer (Some red) 0 0];
  _currentPlayerIndex := 0%nat;
  _turnState := mkState (Some yellow) [0%nat; 1%nat] false false
|}.

(** A session under way: the best opponent so far was evaluated at 1, the
    opponent under test is a second object. *)
Definition sampleTrainer : AITrainer := {|
  opponentStore := [mkOpponent (Fin 50) (Fin 0) (Fin 1);
                    mkOpponent (Fin 20) (Fin 1) (Fin 0)];
  _opponents := [];
  _currentOpponent := 1%nat;
  _initialGameWorld := worldInHand;
  _gameWorld := worldInHand;
  _iteration := 1%nat;
  _finishedSession := false;
  _bestOpponent := 0%nat;
  randomCalls := 2%nat
|}.

(** The yellow player to move pocketed the black ball, touched first, while
    a yellow ball is still on the table; and the same with a red ball in its
    place, so that no yellow ball is left. *)
Definition worldBlackPocketedEarly : GameWorld := {|
  store := [Ball.hide (Ball.new (V 62 62) black); Ball.new (V 750 413) yellow;
            Ball.new (V 413 413) white];
  _stick := Stick.hide (Stick.new GameConfig (V 413 413));
  _cueBall := 2%nat;
  _8Ball := 0%nat;
  _balls := [0%nat; 1%nat; 2%nat];
  _players := [mkPlayer (Some yellow) 6 0; mkPlayer (Some red) 3 0];
  _currentPlayerIndex := 0%nat;
  _turnState := mkState (Some black) [0%nat] false false
|}.

Definition worldBlackPocketedLast : GameWorld := {|
  store := [Ball.hide (Ball.new (V 62 62) black); Ball.new (V 750 413) red;
            Ball.new (V 413 413) white];
  _stick := Stick.hide (Stick.new GameConfig (V 413 413));
  _cueBall := 2%nat;
  _8Ball := 0%nat;
  _balls := [0%nat; 1%nat; 2%nat];
  _players := [mkPlayer (Some yellow) 7 0; mkPlayer (Some red) 6 0];
  _currentPlayerIndex := 0%nat;
  _turnState := mkState (Some black) [0%nat] false false
|}.



(** * Properties *)

Lemma Color_eqb_eq (a b : Color) : Color_eqb a b = true <-> a = b.
Proof. destruct a, b; simpl; split; congruence. Qed.

Lemma Color_eqb_refl (a : Color) : Color_eqb a a = true.
Proof. now destruct a. Qed.

(** ** Referee: the first touch *)

Lemma Color_eqb_neq (a b : Color) : Color_eqb a b = false <-> a <> b.
Proof. destruct a, b; simpl; split; congruence. Qed.

(** No collision at all is a foul, whoever plays. *)
Lemma isValidFirstTouch_no_collision (player : Player) (somePocketed : bool) :
  Referee.isValidFirstTouch player None somePocketed = false.
Proof. reflexivity. Qed.

(** C1, as the code has it: the first touch is valid exactly when a ball was
    touched and, for a player without a color, that ball is not the black;
    for a player with a color, the ball has the player's color, or the
    player's match score is 1, something was pocketed this turn and the ball
    is not the black, or the match score is 7 or 8 and the ball is the
    black. *)
Theorem isValidFirstTouch_rule (player : Player)
    (collidedBallColor : option Color) (somePocketed : bool) :
  Referee.isValidFirstTouch player collidedBallColor somePocketed = true
  <-> firstTouch_rule player collidedBallColor somePocketed.
Proof.
  unfold Referee.isValidFirstTouch, firstTouch_rule.
  destruct collidedBallColor as [c|].
  - destruct (color player) as [pc|] eqn:Hpc.
    + rewrite !orb_true_iff, !andb_true_iff, negb_true_iff,
        Color_eqb_neq, !Color_eqb_eq, !Z.eqb_eq.
      split.
      * intros H. exists c. split; [reflexivity|]. tauto.
      * intros (t & Ht & H). injection Ht as <-. tauto.
    + rewrite negb_true_iff, Color_eqb_neq. split.
      * intros H. exists c. auto.
      * intros (t & Ht & H). now injection Ht as <-.
  - split; [discriminate|]. intros (t & Ht & _). discriminate.
Qed.

(** C1 as stated fails: a red player with a match score of 1 who pocketed a
    ball this turn but touched the black first is refused by the referee,
    while the stated rule accepts the touch. *)
Lemma isValidFirstTouch_black_after_first_pocket :
  let player := mkPlayer (Some red) 1 0 in
  Referee.isValidFirstTouch player (Some black) true = false
  /\ firstTouch_as_specified player (Some black) true.
Proof.
  split; [reflexivity|].
  exists black. split; [reflexivity|]. simpl. right. left. auto.
Qed.

(** ** Arithmetic on finite numbers and vectors *)

Lemma Rltb_true (a b : R) : Rltb a b = true <-> a < b.
Proof. unfold Rltb. destruct (Rlt_dec a b); split; (lra || discriminate || auto). Qed.

Lemma Rltb_false (a b : R) : Rltb a b = false <-> b <= a.
Proof. unfold Rltb. destruct (Rlt_dec a b); split; (lra || discriminate || auto). Qed.

Lemma Rleb_true (a b : R) : Rleb a b = true <-> a <= b.
Proof. unfold Rleb. destruct (Rle_dec a b); split; (lra || discriminate || auto). Qed.

Lemma Rleb_false (a b : R) : Rleb a b = false <-> b < a.
Proof. unfold Rleb. destruct (Rle_dec a b); split; (lra || discriminate || auto). Qed.

Lemma add_Fin (a b : R) : (Fin a + Fin b)%num = Fin (a + b).
Proof. reflexivity. Qed.

Lemma sub_Fin (a b : R) : (Fin a - Fin b)%num = Fin (a - b).
Proof. reflexivity. Qed.

Lemma neg_Fin (a : R) : (- Fin a)%num = Fin (- a).
Proof. reflexivity. Qed.

Lemma mul_Fin (a b : R) : (Fin a * Fin b)%num = Fin (a * b).
Proof. reflexivity. Qed.

Lemma div_Fin (a b : R) : b <> 0 -> (Fin a / Fin b)%num = Fin (a / b).
Proof. intros Hb. unfold Num.div. now destruct (Req_dec_T b 0). Qed.

Lemma sqrt_Fin (a : R) : 0 <= a -> Num.sqrt (Fin a) = Fin (sqrt a).
Proof.
  intros Ha. unfold Num.sqrt.
  destruct (Rltb a 0) eqn:E; [apply Rltb_true in E; lra | reflexivity].
Qed.

Lemma ltb_Fin (a b : R) : (Fin a <? Fin b)%num = Rltb a b.
Proof. reflexivity. Qed.

Lemma leb_Fin (a b : R) : (Fin a <=? Fin b)%num = Rleb a b.
Proof. reflexivity. Qed.

Lemma gtb_Fin (a b : R) : (Fin a >? Fin b)%num = Rltb b a.
Proof. reflexivity. Qed.

Lemma geb_Fin (a b : R) : (Fin a >=? Fin b)%num = Rleb b a.
Proof. reflexivity. Qed.

Lemma copy_V (a b : R) : Vector2.copy (V a b) = V a b.
Proof. reflexivity. Qed.

Lemma add_V (a b c d : R) : Vector2.add (V a b) (V c d) = V (a + c) (b + d).
Proof. reflexivity. Qed.

Lemma addTo_V (a b c d : R) : Vector2.addTo (V a b) (V c d) = V (a + c) (b + d).
Proof. reflexivity. Qed.

Lemma subtract_V (a b c d : R) :
  Vector2.subtract (V a b) (V c d) = V (a - c) (b - d).
Proof. reflexivity. Qed.

Lemma mult_V (a b k : R) : Vector2.mult (V a b) (Fin k) = V (a * k) (b * k).
Proof. reflexivity. Qed.

Lemma multBy_V (a b k : R) : Vector2.multBy (V a b) (Fin k) = V (a * k) (b * k).
Proof. reflexivity. Qed.

Lemma dot_V (a b c d : R) : Vector2.dot (V a b) (V c d) = Fin (a * c + b * d).
Proof. reflexivity. Qed.

Lemma length_V (a b : R) : Vector2.length (V a b) = Fin (sqrt (a * a + b * b)).
Proof. unfold Vector2.length, V. simpl. apply sqrt_Fin. nra. Qed.

Lemma distFrom_V (a b c d : R) :
  Vector2.distFrom (V a b) (V c d)
  = Fin (sqrt ((a - c) * (a - c) + (b - d) * (b - d))).
Proof. unfold Vector2.distFrom. now rewrite subtract_V, length_V. Qed.

Lemma length_zero : Vector2.length Vector2.zero = Fin 0.
Proof.
  change Vector2.zero with (V 0 0). rewrite length_V.
  f_equal. replace (0 * 0 + 0 * 0) with 0 by ring. apply sqrt_0.
Qed.

(** The length of a scaled vector. *)
Lemma sqrt_scaled (a b k : R) :
  0 <= k ->
  sqrt (a * k * (a * k) + b * k * (b * k)) = k * sqrt (a * a + b * b).
Proof.
  intros Hk.
  replace (a * k * (a * k) + b * k * (b * k))
    with ((k * k) * (a * a + b * b)) by ring.
  rewrite sqrt_mult by nra. now rewrite sqrt_square.
Qed.

Lemma sqrt_sum_squares_pos (a b : R) :
  (a <> 0 \/ b <> 0) -> 0 < sqrt (a * a + b * b).
Proof. intros H. apply sqrt_lt_R0. nra. Qed.

Lemma x_V (a b : R) : x (V a b) = Fin a.
Proof. reflexivity. Qed.

Lemma y_V (a b : R) : y (V a b) = Fin b.
Proof. reflexivity. Qed.

Lemma mkVector2_Fin (a b : R) : mkVector2 (Fin a) (Fin b) = V a b.
Proof. reflexivity. Qed.

Create Rewrite HintDb vec.
#[global] Hint Rewrite x_V y_V mkVector2_Fin add_Fin sub_Fin neg_Fin mul_Fin ltb_Fin leb_Fin gtb_Fin
  geb_Fin copy_V add_V addTo_V subtract_V mult_V multBy_V dot_V length_V
  distFrom_V : vec.

(** ** Ball motion and friction *)

(** A ball at rest is left as it is by [update]. *)
Lemma Ball_update_at_rest (cfg : IGameConfig) (b : Ball) :
  _moving b = false -> Ball.update cfg b = b.
Proof. intros H. unfold Ball.update. now rewrite H. Qed.

Lemma Ball_update_at_rest_iter (cfg : IGameConfig) (b : Ball) (n : nat) :
  _moving b = false -> Nat.iter n (Ball.update cfg) b = b.
Proof.
  intros H. induction n as [|n IH]; simpl; [reflexivity|].
  rewrite IH. now apply Ball_update_at_rest.
Qed.

(** C5: one tick of a moving ball with friction [f] in (0,1) and a
    positive stop threshold.  The velocity is first scaled by [1 - f] and the
    position then advanced by the scaled velocity.  When the scaled speed is
    below the threshold the ball stops: velocity exactly zero, [moving]
    false, and any number of further ticks leave it unchanged.  Otherwise the
    ball keeps the scaled velocity, stays moving, and its speed is strictly
    smaller than before the tick. *)
Theorem Ball_update_friction (cfg : IGameConfig) (px py vx vy : R)
    (c : Color) (vis : bool) :
  0 < friction (physics cfg) < 1 ->
  0 < minVelocityLength (ball cfg) ->
  let k := 1 - friction (physics cfg) in
  let b := mkBall (V px py) (V vx vy) c true vis in
  let b' := Ball.update cfg b in
  let speed' := sqrt (vx * k * (vx * k) + vy * k * (vy * k)) in
  _position b' = V (px + vx * k) (py + vy * k)
  /\ _color b' = c /\ _visible b' = vis
  /\ (speed' < minVelocityLength (ball cfg) ->
      _velocity b' = V 0 0 /\ _moving b' = false
      /\ forall n, Nat.iter n (Ball.update cfg) b' = b')
  /\ (minVelocityLength (ball cfg) <= speed' ->
      _velocity b' = V (vx * k) (vy * k) /\ _moving b' = true
      /\ (Vector2.length (_velocity b') <? Vector2.length (_velocity b))%num
         = true).
Proof.
  intros Hf Hm k b b' speed'.
  assert (Hupd : b' =
    if Rltb speed' (minVelocityLength (ball cfg))
    then mkBall (V (px + vx * k) (py + vy * k)) (V 0 0) c false vis
    else mkBall (V (px + vx * k) (py + vy * k)) (V (vx * k) (vy * k)) c true vis).
  { unfold b', b, Ball.update. cbn [_moving _velocity _position _color _visible].
    autorewrite with vec. fold k. fold speed'.
    destruct (Rltb speed' _); reflexivity. }
  assert (Hs : speed' = k * sqrt (vx * vx + vy * vy)).
  { unfold speed'. apply sqrt_scaled. unfold k. lra. }
  rewrite Hupd.
  destruct (Rltb speed' (minVelocityLength (ball cfg))) eqn:E.
  - apply Rltb_true in E. cbn.
    repeat split; try reflexivity; try lra.
    intros n. now apply Ball_update_at_rest_iter.
  - apply Rltb_false in E. cbn [_position _velocity _moving _color _visible].
    repeat split; try reflexivity; try lra.
    unfold b. cbn [_velocity]. autorewrite with vec. apply Rltb_true.
    fold speed'. rewrite Hs in *.
    assert (0 <= sqrt (vx * vx + vy * vy)) by apply sqrt_pos.
    unfold k in *. nra.
Qed.

(** The theorem at the configured friction and threshold, for a ball moving
    right at speed 10. *)
Lemma Ball_update_friction_witness :
  let k := 1 - friction (physics GameConfig) in
  let b := mkBall (V 100 100) (V 10 0) red true true in
  _position (Ball.update GameConfig b) = V (100 + 10 * k) (100 + 0 * k).
Proof.
  refine (proj1 (Ball_update_friction GameConfig 100 100 10 0 red true _ _));
    cbn; lra.
Defined.

(** ** Ball against ball *)

Lemma V_eq (a b c d : R) : a = c -> b = d -> V a b = V c d.
Proof. now intros -> ->. Qed.

(** The two balls after [resolveBallsCollision], for visible balls with
    finite positions and velocities whose centers are apart by [d], with
    [0 < d <= diameter]. *)
Lemma resolveBallsCollision_finite (cfg : IGameConfig)
    (p1x p1y v1x v1y p2x p2y v2x v2y : R) (c1 c2 : Color) (m1 m2 : bool) :
  let D := diameter (ball cfg) in
  let e := 1 - collisionLoss (physics cfg) in
  let nx := p1x - p2x in
  let ny := p1y - p2y in
  let d := sqrt (nx * nx + ny * ny) in
  let ux := nx * (1 / d) in
  let uy := ny * (1 / d) in
  let w1x := (ux * (ux * v2x + uy * v2y) + - uy * (- uy * v1x + ux * v1y)) * e in
  let w1y := (uy * (ux * v2x + uy * v2y) + ux * (- uy * v1x + ux * v1y)) * e in
  let w2x := (ux * (ux * v1x + uy * v1y) + - uy * (- uy * v2x + ux * v2y)) * e in
  let w2y := (uy * (ux * v1x + uy * v1y) + ux * (- uy * v2x + ux * v2y)) * e in
  0 < d -> d <= D ->
  GameWorld.resolveBallsCollision cfg
    (mkBall (V p1x p1y) (V v1x v1y) c1 m1 true)
    (mkBall (V p2x p2y) (V v2x v2y) c2 m2 true)
  = (mkBall (V (p1x + nx * ((D - d) / d) * (1 / 2))
               (p1y + ny * ((D - d) / d) * (1 / 2)))
       (V w1x w1y) c1 (Rltb 0 (sqrt (w1x * w1x + w1y * w1y))) true,
     mkBall (V (p2x - nx * ((D - d) / d) * (1 / 2))
               (p2y - ny * ((D - d) / d) * (1 / 2)))
       (V w2x w2y) c2 (Rltb 0 (sqrt (w2x * w2x + w2y * w2y))) true,
     true).
Proof.
  intros D e nx ny d ux uy w1x w1y w2x w2y Hd HD.
  unfold GameWorld.resolveBallsCollision, Ball.position, Ball.velocity,
    Ball.set_position, Ball.set_velocity.
  cbn [_visible _position _velocity _color _moving negb orb].
  autorewrite with vec. fold nx ny. fold d. fold D.
  replace (Rltb D d) with false by (symmetry; apply Rltb_false; lra).
  rewrite !div_Fin by lra.
  autorewrite with vec. reflexivity.
Qed.

(** C2: two visible balls at finite positions whose centers are apart by
    [d], [0 < d <= diameter], with unit normal [u = (first - second) / d]
    and tangent [t = (-uy, ux)].  The resolver reports a collision; moves the
    first ball by [(diameter - d) / 2] along [u] and the second by the same
    amount against it; and gives the first ball the second's normal
    component and its own tangential component, the second ball the first's
    normal component and its own tangential component, all scaled by
    [1 - collisionLoss].  For balls level on the x axis with velocities
    (5,0) and (-5,0) the velocities become (-5(1-loss), 0) and
    (5(1-loss), 0). *)
Theorem resolveBallsCollision_elastic (cfg : IGameConfig)
    (p1x p1y v1x v1y p2x p2y v2x v2y : R) (c1 c2 : Color) (m1 m2 : bool) :
  let D := diameter (ball cfg) in
  let loss := collisionLoss (physics cfg) in
  let nx := p1x - p2x in
  let ny := p1y - p2y in
  let d := sqrt (nx * nx + ny * ny) in
  let ux := nx / d in
  let uy := ny / d in
  let res :=
    GameWorld.resolveBallsCollision cfg
      (mkBall (V p1x p1y) (V v1x v1y) c1 m1 true)
      (mkBall (V p2x p2y) (V v2x v2y) c2 m2 true) in
  let first' := fst (fst res) in
  let second' := snd (fst res) in
  0 < d -> d <= D ->
  snd res = true
  /\ ux * ux + uy * uy = 1
  /\ _position first'
     = V (p1x + ux * ((D - d) / 2)) (p1y + uy * ((D - d) / 2))
  /\ _position second'
     = V (p2x - ux * ((D - d) / 2)) (p2y - uy * ((D - d) / 2))
  /\ exists w1x w1y w2x w2y,
       _velocity first' = V w1x w1y /\ _velocity second' = V w2x w2y
       /\ w1x * ux + w1y * uy = (1 - loss) * (v2x * ux + v2y * uy)
       /\ w2x * ux + w2y * uy = (1 - loss) * (v1x * ux + v1y * uy)
       /\ w1x * - uy + w1y * ux = (1 - loss) * (v1x * - uy + v1y * ux)
       /\ w2x * - uy + w2y * ux = (1 - loss) * (v2x * - uy + v2y * ux)
       /\ (p1y = p2y -> v1x = 5 -> v1y = 0 -> v2x = -5 -> v2y = 0 ->
           w1x = -5 * (1 - loss) /\ w1y = 0
           /\ w2x = 5 * (1 - loss) /\ w2y = 0).
Proof.
  intros D loss nx ny d ux uy res first' second' Hd HD.
  assert (Hdd : d * d = nx * nx + ny * ny) by (apply sqrt_sqrt; nra).
  assert (Hu : ux * ux + uy * uy = 1).
  { unfold ux, uy. transitivity ((nx * nx + ny * ny) / (d * d)).
    - field; lra.
    - rewrite <- Hdd. field; lra. }
  assert (Hux : nx * (1 / d) = ux) by (unfold ux; field; lra).
  assert (Huy : ny * (1 / d) = uy) by (unfold uy; field; lra).
  unfold first', second', res.
  rewrite resolveBallsCollision_finite by assumption.
  fold D nx ny d. rewrite Hux, Huy.
  cbn [fst snd _position _velocity].
  split; [reflexivity|]. split; [exact Hu|].
  split; [apply V_eq; unfold ux, uy; field; lra|].
  split; [apply V_eq; unfold ux, uy; field; lra|].
  do 4 eexists. split; [reflexivity|]. split; [reflexivity|].
  fold loss.
  assert (Hn : forall a b : R,
    (ux * a + - uy * b) * (1 - loss) * ux + (uy * a + ux * b) * (1 - loss) * uy
    = (1 - loss) * a).
  { intros a b.
    transitivity ((1 - loss) * a * (ux * ux + uy * uy)); [ring|].
    rewrite Hu. ring. }
  assert (Ht : forall a b : R,
    (ux * a + - uy * b) * (1 - loss) * - uy + (uy * a + ux * b) * (1 - loss) * ux
    = (1 - loss) * b).
  { intros a b.
    transitivity ((1 - loss) * b * (ux * ux + uy * uy)); [ring|].
    rewrite Hu. ring. }
  rewrite !Hn, !Ht.
  do 4 (split; [ring|]).
  intros Hy -> -> -> ->.
  assert (Huy0 : uy = 0) by (unfold uy, ny; rewrite Hy; field; lra).
  rewrite Huy0 in *.
  assert (Hux1 : ux * ux = 1) by lra.
  repeat split.
  - transitivity (-5 * (1 - loss) * (ux * ux)); [ring | rewrite Hux1; ring].
  - ring.
  - transitivity (5 * (1 - loss) * (ux * ux)); [ring | rewrite Hux1; ring].
  - ring.
Qed.

Lemma sqrt_38 :
  sqrt ((100 - 138) * (100 - 138) + (100 - 100) * (100 - 100)) = 38.
Proof.
  replace ((100 - 138) * (100 - 138) + (100 - 100) * (100 - 100))
    with (38 * 38) by ring.
  apply sqrt_square. lra.
Qed.

(** The theorem at the configured diameter, for two balls that touch along
    the x axis and meet head-on. *)
Lemma resolveBallsCollision_elastic_witness :
  snd (GameWorld.resolveBallsCollision GameConfig
         (mkBall (V 100 100) (V 5 0) white true true)
         (mkBall (V 138 100) (V (-5) 0) red true true)) = true.
Proof.
  refine (proj1 (resolveBallsCollision_elastic GameConfig
                   100 100 5 0 138 100 (-5) 0 white red true true _ _));
    rewrite sqrt_38; cbn; lra.
Defined.

(** Two visible balls with the same finite center: the distance is 0, the
    quotient [(diameter - 0) / 0] is an infinity, and its product with the
    zero normal is [NaN].  Both positions and both velocities are [NaN]
    afterwards, and the call reports a collision. *)
Lemma resolveBallsCollision_same_center (cfg : IGameConfig)
    (px py v1x v1y v2x v2y : R) (c1 c2 : Color) (m1 m2 : bool) :
  0 < diameter (ball cfg) ->
  GameWorld.resolveBallsCollision cfg
    (mkBall (V px py) (V v1x v1y) c1 m1 true)
    (mkBall (V px py) (V v2x v2y) c2 m2 true)
  = (mkBall (mkVector2 NaN NaN) (mkVector2 NaN NaN) c1 false true,
     mkBall (mkVector2 NaN NaN) (mkVector2 NaN NaN) c2 false true,
     true).
Proof.
  intros HD.
  unfold GameWorld.resolveBallsCollision, Ball.position, Ball.velocity,
    Ball.set_position, Ball.set_velocity.
  cbn [_visible _position _velocity _color _moving negb orb].
  autorewrite with vec.
  replace (px - px) with 0 by ring. replace (py - py) with 0 by ring.
  replace (0 * 0 + 0 * 0) with 0 by ring. rewrite sqrt_0.
  replace (Rltb (diameter (ball cfg)) 0) with false
    by (symmetry; apply Rltb_false; lra).
  unfold Num.div, Num.signed_inf.
  destruct (Req_dec_T 0 0) as [_|H0]; [|lra].
  destruct (Req_dec_T (diameter (ball cfg) - 0) 0) as [H|_]; [lra|].
  destruct (Req_dec_T 1 0) as [H|_]; [lra|].
  replace (Rltb 0 (diameter (ball cfg) - 0)) with true
    by (symmetry; apply Rltb_true; lra).
  replace (Rltb 0 1) with true by (symmetry; apply Rltb_true; lra).
  unfold Vector2.mult, Vector2.multBy, Vector2.copy, V.
  cbn [x y Num.mul Num.signed_inf].
  unfold Num.signed_inf.
  destruct (Req_dec_T 0 0) as [_|H0]; [|lra].
  reflexivity.
Qed.

(** C3 fails on the code: for two visible balls at rest on the same spot the
    resolver divides by the zero distance, and the positions and velocities
    of both balls are [NaN] afterwards, not finite. *)
Theorem resolveBallsCollision_coincident_not_finite :
  let res :=
    GameWorld.resolveBallsCollision GameConfig
      (mkBall (V 500 400) (V 3 0) red true true)
      (mkBall (V 500 400) (V 0 0) yellow false true) in
  snd res = true
  /\ _position (fst (fst res)) = mkVector2 NaN NaN
  /\ _velocity (fst (fst res)) = mkVector2 NaN NaN
  /\ _position (snd (fst res)) = mkVector2 NaN NaN
  /\ _velocity (snd (fst res)) = mkVector2 NaN NaN
  /\ Num.isFinite (x (_position (fst (fst res)))) = false.
Proof.
  intros res. unfold res.
  rewrite resolveBallsCollision_same_center by (cbn; lra).
  cbn. repeat split.
Qed.

(** ** Cushions *)

Lemma Fin_eq (a b : R) : a = b -> Fin a = Fin b.
Proof. now intros ->. Qed.

Lemma Rltb_0_sqrt (a b : R) :
  (a <> 0 \/ b <> 0) -> Rltb 0 (sqrt (a * a + b * b)) = true.
Proof. intros H. apply Rltb_true. now apply sqrt_sum_squares_pos. Qed.

Section Cushion.
Variable cfg : IGameConfig.
Let k := 1 - friction (physics cfg).
Let e := 1 - collisionLoss (physics cfg).
Let cw := cushionWidth (table cfg).
Let D := diameter (ball cfg).
Let W := fst (gameSize cfg).
Let H := snd (gameSize cfg).

Lemma nextPosition_finite (px py vx vy : R) (c : Color) (m vis : bool) :
  Ball.nextPosition cfg (mkBall (V px py) (V vx vy) c m vis)
  = V (px + vx * k) (py + vy * k).
Proof. reflexivity. Qed.

Lemma outsideTop_finite (a b : R) :
  GameWorld.isBallPosOutsideTopBorder cfg (V a b) = Rleb (b - D / 2) cw.
Proof.
  unfold GameWorld.isBallPosOutsideTopBorder, GameWorld.halfDiameter.
  rewrite div_Fin by lra. reflexivity.
Qed.

Lemma outsideLeft_finite (a b : R) :
  GameWorld.isBallPosOutsideLeftBorder cfg (V a b) = Rleb (a - D / 2) cw.
Proof.
  unfold GameWorld.isBallPosOutsideLeftBorder, GameWorld.halfDiameter.
  rewrite div_Fin by lra. reflexivity.
Qed.

Lemma outsideRight_finite (a b : R) :
  GameWorld.isBallPosOutsideRightBorder cfg (V a b)
  = Rleb (W - cw) (a + D / 2).
Proof.
  unfold GameWorld.isBallPosOutsideRightBorder, GameWorld.halfDiameter.
  rewrite div_Fin by lra. reflexivity.
Qed.

Lemma outsideBottom_finite (a b : R) :
  GameWorld.isBallPosOutsideBottomBorder cfg (V a b)
  = Rleb (H - cw) (b + D / 2).
Proof.
  unfold GameWorld.isBallPosOutsideBottomBorder, GameWorld.halfDiameter.
  rewrite div_Fin by lra. reflexivity.
Qed.

Lemma handleTop_finite (px py vx vy : R) (c : Color) (m vis : bool) :
  GameWorld.handleCollisionWithTopCushion cfg (mkBall (V px py) (V vx vy) c m vis)
  = mkBall (V px (py + (cw - py + D / 2))) (V vx (- vy)) c
      (Rltb 0 (sqrt (vx * vx + - vy * - vy))) vis.
Proof.
  unfold GameWorld.handleCollisionWithTopCushion, GameWorld.halfDiameter,
    Ball.set_velocity, Ball.set_position, Ball.position, Ball.velocity.
  rewrite div_Fin by lra.
  cbn [_position _velocity _color _moving _visible].
  autorewrite with vec. reflexivity.
Qed.

Lemma handleLeft_finite (px py vx vy : R) (c : Color) (m vis : bool) :
  GameWorld.handleCollisionWithLeftCushion cfg (mkBall (V px py) (V vx vy) c m vis)
  = mkBall (V (px + (cw - px + D / 2)) py) (V (- vx) vy) c
      (Rltb 0 (sqrt (- vx * - vx + vy * vy))) vis.
Proof.
  unfold GameWorld.handleCollisionWithLeftCushion, GameWorld.halfDiameter,
    Ball.set_velocity, Ball.set_position, Ball.position, Ball.velocity.
  rewrite div_Fin by lra.
  cbn [_position _velocity _color _moving _visible].
  autorewrite with vec. reflexivity.
Qed.

Lemma handleRight_finite (px py vx vy : R) (c : Color) (m vis : bool) :
  GameWorld.handleCollisionWithRightCushion cfg (mkBall (V px py) (V vx vy) c m vis)
  = mkBall (V (px + (W - cw - px - D / 2)) py) (V (- vx) vy) c
      (Rltb 0 (sqrt (- vx * - vx + vy * vy))) vis.
Proof.
  unfold GameWorld.handleCollisionWithRightCushion, GameWorld.halfDiameter,
    Ball.set_velocity, Ball.set_position, Ball.position, Ball.velocity.
  rewrite div_Fin by lra.
  cbn [_position _velocity _color _moving _visible].
  autorewrite with vec. reflexivity.
Qed.

Lemma handleBottom_finite (px py vx vy : R) (c : Color) (m vis : bool) :
  GameWorld.handleCollisionWithBottomCushion cfg (mkBall (V px py) (V vx vy) c m vis)
  = mkBall (V px (py + (H - cw - py - D / 2))) (V vx (- vy)) c
      (Rltb 0 (sqrt (vx * vx + - vy * - vy))) vis.
Proof.
  unfold GameWorld.handleCollisionWithBottomCushion, GameWorld.halfDiameter,
    Ball.set_velocity, Ball.set_position, Ball.position, Ball.velocity.
  rewrite div_Fin by lra.
  cbn [_position _velocity _color _moving _visible].
  autorewrite with vec. reflexivity.
Qed.

Lemma scaleVelocity_finite (px py vx vy : R) (c : Color) (m vis : bool) :
  Ball.set_velocity (mkBall (V px py) (V vx vy) c m vis)
    (Vector2.mult (Ball.velocity (mkBall (V px py) (V vx vy) c m vis)) (Fin e))
  = mkBall (V px py) (V (vx * e) (vy * e)) c
      (Rltb 0 (sqrt (vx * e * (vx * e) + vy * e * (vy * e)))) vis.
Proof.
  unfold Ball.set_velocity, Ball.velocity.
  cbn [_position _velocity _color _moving _visible].
  autorewrite with vec. reflexivity.
Qed.

Lemma update_finite (px py vx vy : R) (c : Color) (m vis : bool) :
  _position (Ball.update cfg (mkBall (V px py) (V vx vy) c m vis))
  = if m then V (px + vx * k) (py + vy * k) else V px py.
Proof.
  unfold Ball.update. cbn [_position _velocity _color _moving _visible].
  destruct m; [|reflexivity].
  autorewrite with vec. fold k.
  destruct (Rltb _ _); reflexivity.
Qed.

Ltac decide_test :=
  match goal with
  | |- context [Rleb ?a ?b] =>
      let E := fresh "E" in
      destruct (Rleb a b) eqn:E;
      [apply Rleb_true in E | apply Rleb_false in E]
  end.

Ltac cushion_step :=
  rewrite ?handleTop_finite, ?handleLeft_finite, ?handleRight_finite,
    ?handleBottom_finite;
  rewrite nextPosition_finite;
  rewrite ?outsideTop_finite, ?outsideLeft_finite, ?outsideRight_finite,
    ?outsideBottom_finite;
  decide_test; cbv beta iota.

(** One ball with the cushions and its own update: a ball inside the
    cushions, too slow to cross the whole play area in one tick.  The four tests read the projected next position
    [p + v * (1 - friction)]: when it violates no border the ball is left as
    it is.  When it violates a border, the ball's center is put on that
    border's line, the velocity component across that cushion is inverted,
    and the whole velocity is scaled by [1 - collisionLoss].  After the
    ball's [update] of the same tick its center lies strictly within all four
    borders. *)
Theorem cushion_no_tunneling (px py vx vy : R) (c : Color) (m vis : bool) :
  let lo := cw + D / 2 in
  let hiX := W - cw - D / 2 in
  let hiY := H - cw - D / 2 in
  let b := mkBall (V px py) (V vx vy) c m vis in
  let b1 := GameWorld.resolveBallCollisionWithCushion cfg b in
  let b2 := Ball.update cfg b1 in
  let hitTop := py + vy * k - D / 2 <= cw in
  let hitLeft := px + vx * k - D / 2 <= cw in
  let hitRight := W - cw <= px + vx * k + D / 2 in
  let hitBottom := H - cw <= py + vy * k + D / 2 in
  0 <= friction (physics cfg) < 1 ->
  0 <= collisionLoss (physics cfg) < 1 ->
  lo < px < hiX -> lo < py < hiY ->
  Rabs (vx * k) < hiX - lo -> Rabs (vy * k) < hiY - lo ->
  (~ hitTop /\ ~ hitLeft /\ ~ hitRight /\ ~ hitBottom -> b1 = b)
  /\ (hitTop ->
      y (_position b1) = Fin lo /\ y (_velocity b1) = Fin (- vy * e)
      /\ (~ hitLeft -> ~ hitRight -> x (_velocity b1) = Fin (vx * e)))
  /\ (hitLeft ->
      x (_position b1) = Fin lo /\ x (_velocity b1) = Fin (- vx * e)
      /\ (~ hitTop -> ~ hitBottom -> y (_velocity b1) = Fin (vy * e)))
  /\ (hitRight ->
      x (_position b1) = Fin hiX /\ x (_velocity b1) = Fin (- vx * e)
      /\ (~ hitTop -> ~ hitBottom -> y (_velocity b1) = Fin (vy * e)))
  /\ (hitBottom ->
      y (_position b1) = Fin hiY /\ y (_velocity b1) = Fin (- vy * e)
      /\ (~ hitLeft -> ~ hitRight -> x (_velocity b1) = Fin (vx * e)))
  /\ exists qx qy,
       _position b2 = V qx qy /\ lo < qx < hiX /\ lo < qy < hiY.
Proof.
  intros lo hiX hiY b b1 b2 hitTop hitLeft hitRight hitBottom
    Hf Hl Hx Hy Hvx Hvy.
  apply Rabs_def2 in Hvx. apply Rabs_def2 in Hvy.
  assert (Hk : 0 < k <= 1) by (unfold k; lra).
  assert (He : 0 < e <= 1) by (unfold e; lra).
  unfold b2, b1, b, hitTop, hitLeft, hitRight, hitBottom, lo, hiX, hiY in *.
  unfold GameWorld.resolveBallCollisionWithCushion.
  cushion_step. 
  all: cushion_step.
  all: cushion_step.
  all: cushion_step.
  all: try (exfalso; nra).
  all: rewrite ?sub_Fin; fold e; rewrite ?scaleVelocity_finite;
    rewrite update_finite; cbn [_position _velocity]; rewrite ?x_V, ?y_V.
  all: try (rewrite Rltb_0_sqrt by (first [left; intro; nra | right; intro; nra])).
  all: repeat apply conj; intros; try (exfalso; lra);
    try reflexivity;
    try (repeat apply conj; intros; try (exfalso; lra); apply Fin_eq; lra).
  all: try (destruct m).
  all: do 2 eexists; (split; [reflexivity|]); nra.
Qed.
End Cushion.

(** The theorem at the configured table, for a ball near the left cushion
    that moves left at speed 30. *)
Lemma cushion_no_tunneling_witness :
  exists qx qy,
    _position
      (Ball.update GameConfig
         (GameWorld.resolveBallCollisionWithCushion GameConfig
            (mkBall (V 80 400) (V (-30) 0) white true true)))
    = V qx qy
    /\ 57 + 38 / 2 < qx < 1500 - 57 - 38 / 2
    /\ 57 + 38 / 2 < qy < 825 - 57 - 38 / 2.
Proof.
  refine (proj2 (proj2 (proj2 (proj2 (proj2
    (cushion_no_tunneling GameConfig 80 400 (-30) 0 white true true
       _ _ _ _ _ _))))));
    cbn; try lra; apply Rabs_def1; lra.
Defined.

(** ** The store *)


Lemma deref_modify_eq (f : Ball -> Ball) (r : ref) (w : GameWorld) :
  (r < length (store w))%nat ->
  GameWorld.deref (GameWorld.modify f r w) r = f (GameWorld.deref w r).
Proof. intros Hr. now apply list_lookup_total_alter_eq. Qed.

(** A field that [f] keeps is kept by [modify f], in range or not. *)
Lemma deref_modify_field {A : Type} (g : Ball -> A) (f : Ball -> Ball)
    (r r' : ref) (w : GameWorld) :
  (forall b, g (f b) = g b) ->
  g (GameWorld.deref (GameWorld.modify f r w) r')
  = g (GameWorld.deref w r').
Proof.
  intros Hg. unfold GameWorld.deref, GameWorld.modify. cbn [store GameWorld.with_store].
  rewrite list_lookup_total_alter.
  case_decide as Hd; [destruct Hd as [-> _]; apply Hg | reflexivity].
Qed.

Lemma existsb_false_iff {A : Type} (f : A -> bool) (l : list A) :
  existsb f l = false <-> forall a, In a l -> f a = false.
Proof.
  induction l as [|a l IH]; simpl.
  - split; [intros _ a [] | reflexivity].
  - rewrite orb_false_iff, IH. split.
    + intros [Ha Hl] a' [<-|Hin]; auto.
    + intros Hall. split; [apply Hall; now left | intros a' Hin; apply Hall; now right].
Qed.

(** ** Cue ball in hand *)

(** C10, as the code has it: a frame with the cue ball in hand does
    nothing but [handleBallInHand].  No ball other than the cue ball changes,
    the cue ball keeps its velocity, its flags and its color, and the list of
    balls, the players, the player to move and the turn's record of the
    first touch, of the pocketed balls and of validity are as before; no turn
    is concluded and no AI session is started.  What may change is the
    position of the cue ball, the stick, and the [ballInHand] flag, which is
    cleared exactly when a press at a valid position commits the
    placement. *)
Theorem update_ballInHand_no_physics (cfg : IGameConfig) (env : Env)
    (w : GameWorld) :
  GameWorld.isBallInHand w = true ->
  let res := GameWorld.update cfg env w in
  let w' := fst res in
  res = (GameWorld.handleBallInHand cfg env w, false)
  /\ (forall r, r <> _cueBall w ->
        GameWorld.deref w' r = GameWorld.deref w r)
  /\ _velocity (GameWorld.deref w' (_cueBall w))
     = _velocity (GameWorld.deref w (_cueBall w))
  /\ _visible (GameWorld.deref w' (_cueBall w))
     = _visible (GameWorld.deref w (_cueBall w))
  /\ _moving (GameWorld.deref w' (_cueBall w))
     = _moving (GameWorld.deref w (_cueBall w))
  /\ _color (GameWorld.deref w' (_cueBall w))
     = _color (GameWorld.deref w (_cueBall w))
  /\ length (store w') = length (store w)
  /\ _balls w' = _balls w
  /\ _cueBall w' = _cueBall w
  /\ _8Ball w' = _8Ball w
  /\ _players w' = _players w
  /\ _currentPlayerIndex w' = _currentPlayerIndex w
  /\ firstCollidedBallColor (_turnState w')
     = firstCollidedBallColor (_turnState w)
  /\ pocketedBalls (_turnState w') = pocketedBalls (_turnState w)
  /\ isValid (_turnState w') = isValid (_turnState w)
  /\ s_rotation (_stick w') = s_rotation (_stick w)
  /\ s_power (_stick w') = s_power (_stick w)
  /\ ballInHand (_turnState w')
     = negb (Mouse_isPressed env (mousePlaceBallButton (input cfg))
             && GameWorld.isValidPosToPlaceCueBall cfg w (Mouse_position env)).
Proof.
  intros Hin res w'. unfold w', res, GameWorld.update. rewrite Hin.
  cbn [fst]. split; [reflexivity|].
  unfold GameWorld.isBallInHand in Hin.
  unfold GameWorld.handleBallInHand, GameWorld.placeBallInHand.
  destruct (Mouse_isPressed env _ && _).
  - split.
    { intros r Hr. unfold GameWorld.deref. cbn.
      now apply list_lookup_total_alter_ne. }
    repeat split; try reflexivity; try exact Hin;
      unfold GameWorld.deref; cbn; rewrite ?length_alter; try reflexivity;
      rewrite list_lookup_total_alter;
      case_decide; reflexivity.
  - split.
    { intros r Hr. unfold GameWorld.deref. cbn.
      now apply list_lookup_total_alter_ne. }
    repeat split; try reflexivity; try exact Hin;
      unfold GameWorld.deref; cbn; rewrite ?length_alter; try reflexivity;
      rewrite list_lookup_total_alter;
      case_decide; reflexivity.
Qed.

Lemma isInsidePocket_false_iff (cfg : IGameConfig) (a b : R) :
  GameWorld.isInsidePocket cfg (V a b) = false
  <-> forall q, In q (pocketsPositions (table cfg)) ->
        pocketRadius (table cfg)
        < sqrt ((a - fst q) * (a - fst q) + (b - snd q) * (b - snd q)).
Proof.
  unfold GameWorld.isInsidePocket. rewrite existsb_false_iff.
  split; intros Hq q Hin; specialize (Hq q Hin);
    unfold toVector2 in *; rewrite distFrom_V, leb_Fin in *;
    now apply Rleb_false.
Qed.

Lemma isInsideTableBoundaries_iff (cfg : IGameConfig) (a b : R) :
  let D := diameter (ball cfg) in
  let cw := cushionWidth (table cfg) in
  GameWorld.isInsideTableBoundaries cfg (V a b) = true
  <-> (cw < b - D / 2 /\ cw < a - D / 2
       /\ a + D / 2 < fst (gameSize cfg) - cw
       /\ b + D / 2 < snd (gameSize cfg) - cw)
      /\ (forall q, In q (pocketsPositions (table cfg)) ->
            pocketRadius (table cfg)
            < sqrt ((a - fst q) * (a - fst q) + (b - snd q) * (b - snd q))).
Proof.
  intros D cw. unfold GameWorld.isInsideTableBoundaries.
  rewrite outsideTop_finite, outsideLeft_finite, outsideRight_finite,
    outsideBottom_finite.
  rewrite !andb_true_iff, !negb_true_iff, !Rleb_false,
    isInsidePocket_false_iff.
  fold D cw. tauto.
Qed.

Lemma isValidPosToPlaceCueBall_iff (cfg : IGameConfig) (w : GameWorld)
    (a b : R) :
  GameWorld.isValidPosToPlaceCueBall cfg w (V a b) = true
  <-> legalCueBallPosition cfg w a b.
Proof.
  unfold GameWorld.isValidPosToPlaceCueBall, legalCueBallPosition.
  rewrite andb_true_iff, isInsideTableBoundaries_iff, forallb_forall.
  split.
  - intros [Hball [Hb Hp]]. repeat split; try tauto.
    intros r Hin Hc. specialize (Hball r Hin).
    apply orb_true_iff in Hball as [Hw|Hd]; [|exact Hd].
    apply Color_eqb_eq in Hw. contradiction.
  - intros [Hb [Hp Hball]]. repeat split; try tauto.
    intros r Hin. apply orb_true_iff.
    destruct (Color_eqb (_color (GameWorld.deref w r)) white) eqn:Hc;
      [now left | right].
    apply Hball; [exact Hin | now apply Color_eqb_neq].
Qed.

(** C7, as the code has it.  With the pointer at a finite position, the
    position is accepted by [isValidPosToPlaceCueBall] exactly when it is
    legal.  A press at a legal position commits the placement: the cue ball
    is put there and the ball is no longer in hand.  In every other case
    nothing is committed and the turn state is as before, but the cue ball is
    moved to the pointer and the stick is hidden and made unmovable; the
    other balls, the players and the player to move are as before. *)
Theorem handleBallInHand_placement (cfg : IGameConfig) (env : Env)
    (w : GameWorld) (a b : R) :
  Mouse_position env = V a b ->
  (_cueBall w < length (store w))%nat ->
  let pressed := Mouse_isPressed env (mousePlaceBallButton (input cfg)) in
  let w' := GameWorld.handleBallInHand cfg env w in
  (GameWorld.isValidPosToPlaceCueBall cfg w (V a b) = true
   <-> legalCueBallPosition cfg w a b)
  /\ (pressed = true /\ legalCueBallPosition cfg w a b ->
      w' = GameWorld.placeBallInHand cfg w (V a b)
      /\ _position (GameWorld.deref w' (_cueBall w)) = V a b
      /\ ballInHand (_turnState w') = false)
  /\ (~ (pressed = true /\ legalCueBallPosition cfg w a b) ->
      _turnState w' = _turnState w
      /\ _position (GameWorld.deref w' (_cueBall w)) = V a b
      /\ s_visible (_stick w') = false
      /\ s_movable (_stick w') = false
      /\ (forall r, r <> _cueBall w ->
            GameWorld.deref w' r = GameWorld.deref w r)
      /\ _balls w' = _balls w
      /\ _players w' = _players w
      /\ _currentPlayerIndex w' = _currentPlayerIndex w).
Proof.
  intros Hpos Hcue pressed w'.
  split; [apply isValidPosToPlaceCueBall_iff|].
  unfold w', GameWorld.handleBallInHand. fold pressed. rewrite Hpos.
  split.
  - intros [Hp Hl]. apply isValidPosToPlaceCueBall_iff in Hl.
    rewrite Hp, Hl. cbn [andb]. split; [reflexivity|].
    unfold GameWorld.placeBallInHand, GameWorld.deref. cbn.
    rewrite list_lookup_total_alter_eq by exact Hcue. now split.
  - intros Hno.
    destruct (pressed && GameWorld.isValidPosToPlaceCueBall cfg w (V a b))
      eqn:Hc.
    + apply andb_true_iff in Hc as [Hp Hl].
      apply isValidPosToPlaceCueBall_iff in Hl. tauto.
    + unfold GameWorld.deref. cbn.
      rewrite list_lookup_total_alter_eq by exact Hcue.
      repeat split; try reflexivity.
      intros r Hr. now apply list_lookup_total_alter_ne.
Qed.

(** The theorem for a frame of [worldInHand]. *)
Lemma update_ballInHand_no_physics_witness :
  GameWorld.update GameConfig (env_pressed_at 0 0) worldInHand
  = (GameWorld.handleBallInHand GameConfig (env_pressed_at 0 0) worldInHand,
     false).
Proof.
  refine (proj1 (update_ballInHand_no_physics GameConfig (env_pressed_at 0 0)
                   worldInHand _)).
  reflexivity.
Defined.

(** The theorem for [worldInHand] and a press in the middle of the table. *)
Lemma handleBallInHand_placement_witness :
  GameWorld.isValidPosToPlaceCueBall GameConfig worldInHand (V 500 400) = true
  <-> legalCueBallPosition GameConfig worldInHand 500 400.
Proof.
  refine (proj1 (handleBallInHand_placement GameConfig (env_pressed_at 500 400)
                   worldInHand 500 400 _ _)).
  - reflexivity.
  - cbn. lia.
Defined.

(** C7 as stated fails: a press at the corner (0, 0) of the window is
    refused, yet the world is not as before, for the cue ball is now at
    (0, 0). *)
Lemma handleBallInHand_rejected_moves_cue_ball :
  GameWorld.isValidPosToPlaceCueBall GameConfig worldInHand (V 0 0) = false
  /\ GameWorld.handleBallInHand GameConfig (env_pressed_at 0 0) worldInHand
     <> worldInHand.
Proof.
  assert (Hrej :
    GameWorld.isValidPosToPlaceCueBall GameConfig worldInHand (V 0 0) = false).
  { destruct (GameWorld.isValidPosToPlaceCueBall GameConfig worldInHand (V 0 0))
      eqn:Hv; [|reflexivity].
    apply isValidPosToPlaceCueBall_iff in Hv.
    destruct Hv as [[Htop _] _]. cbn in Htop. lra. }
  split; [exact Hrej|].
  intros Heq.
  apply (f_equal (fun w => _position (GameWorld.deref w 1%nat))) in Heq.
  unfold GameWorld.handleBallInHand in Heq.
  cbn [Mouse_position env_pressed_at] in Heq. rewrite Hrej in Heq.
  rewrite andb_false_r in Heq. cbn in Heq.
  injection Heq as H0 _. lra.
Qed.

(** ** The hand-off at the end of a turn *)

(** When the game is over [nextTurn] starts a new match instead: the first
    player is to move and the cue ball is not in hand. *)
Lemma nextTurn_game_over (cfg : IGameConfig) (env : Env) (w : GameWorld) :
  GameWorld.isGameOver w = true ->
  let w' := fst (GameWorld.nextTurn cfg env w) in
  GameWorld.nextTurn cfg env w = GameWorld.handleGameOver cfg env w
  /\ _currentPlayerIndex w' = 0%nat
  /\ _turnState w' = newState.
Proof.
  intros Hover w'. unfold w', GameWorld.nextTurn. rewrite Hover.
  repeat split.
Qed.

(** C6, as the code has it: when the game is not over, the player to move
    after the turn is the next one in turn exactly when the turn was a foul
    or nothing was pocketed, and the same one otherwise; with two players the
    next one is the other one.  The new turn state is a fresh one whose
    [ballInHand] is set exactly when the turn was a foul.  The players
    themselves are as before. *)
Theorem nextTurn_handoff (cfg : IGameConfig) (env : Env) (w : GameWorld) :
  GameWorld.isGameOver w = false ->
  let foul := negb (isValid (_turnState w)) in
  let nonePocketed := Nat.eqb (length (pocketedBalls (_turnState w))) 0 in
  let res := GameWorld.nextTurn cfg env w in
  let w' := fst res in
  _currentPlayerIndex w'
  = (if foul || nonePocketed
     then ((_currentPlayerIndex w + 1) mod length (_players w))%nat
     else _currentPlayerIndex w)
  /\ (length (_players w) = 2%nat -> (_currentPlayerIndex w < 2)%nat ->
      foul || nonePocketed = true ->
      _currentPlayerIndex w' = (1 - _currentPlayerIndex w)%nat)
  /\ _turnState w' = mkState None [] foul false
  /\ (ballInHand (_turnState w') = true <-> isValid (_turnState w) = false)
  /\ _players w' = _players w
  /\ snd res = GameWorld.isAITurn cfg env w'.
Proof.
  intros Hover foul nonePocketed res w'.
  unfold w', res, GameWorld.nextTurn. rewrite Hover. fold foul.
  cbn [fst snd].
  split.
  { destruct (negb (_visible (GameWorld.deref w (_cueBall w))));
      cbn; fold nonePocketed; destruct (foul || nonePocketed); reflexivity. }
  split.
  { intros Hlen Hlt Hadv.
    destruct (negb (_visible (GameWorld.deref w (_cueBall w))));
      cbn; fold nonePocketed; rewrite Hadv; cbn; rewrite Hlen;
      destruct (_currentPlayerIndex w) as [|[|n]]; try reflexivity; lia. }
  split; [reflexivity|].
  split.
  { cbn. unfold foul. destruct (isValid (_turnState w)); cbn; split; congruence. }
  split; [|reflexivity].
  destruct (negb (_visible (GameWorld.deref w (_cueBall w))));
    cbn; destruct (foul || _); reflexivity.
Qed.

(** The theorem for [worldInHand], where the black ball and the cue ball are
    visible. *)
Lemma nextTurn_handoff_witness :
  _turnState (fst (GameWorld.nextTurn GameConfig (env_pressed_at 0 0) worldInHand))
  = mkState None [] true false.
Proof.
  refine (proj1 (proj2 (proj2
    (nextTurn_handoff GameConfig (env_pressed_at 0 0) worldInHand _)))).
  reflexivity.
Defined.

(** C6 as stated fails when the concluded turn ends the game: the turn of
    [worldBlackPocketedOnFoul] was a foul by the second player, yet the new
    turn state does not have the ball in hand, and the player to move is the
    first one because a new match starts. *)
Lemma nextTurn_game_over_no_ball_in_hand :
  let w' :=
    fst (GameWorld.nextTurn GameConfig (env_pressed_at 0 0)
           worldBlackPocketedOnFoul) in
  isValid (_turnState worldBlackPocketedOnFoul) = false
  /\ ballInHand (_turnState w') = false
  /\ _currentPlayerIndex w' = 0%nat.
Proof.
  destruct (nextTurn_game_over GameConfig (env_pressed_at 0 0)
              worldBlackPocketedOnFoul eq_refl) as (_ & Hi & Hs).
  cbn zeta. rewrite Hs, Hi. repeat split.
Qed.

(** ** Pocketing and the players' colors *)

Lemma resolveBallInPocket_color (cfg : IGameConfig) (b : Ball) :
  _color (GameWorld.resolveBallInPocket cfg b) = _color b.
Proof.
  unfold GameWorld.resolveBallInPocket.
  now destruct (GameWorld.isInsidePocket cfg (Ball.position b)).
Qed.

Lemma includes_app_ne (l : list ref) (r r' : ref) :
  r <> r' -> GameWorld.includes (l ++ [r]) r' = GameWorld.includes l r'.
Proof.
  intros Hne. unfold GameWorld.includes. rewrite existsb_app. cbn.
  replace (Nat.eqb r' r) with false; [now rewrite !orb_false_r|].
  symmetry. apply Nat.eqb_neq. congruence.
Qed.

Section Pocketing.
Variable cfg : IGameConfig.

(** What one step of [handleBallsInPockets] leaves alone. *)
Lemma handleBallInPocket_frame (w : GameWorld) (r : ref) :
  let w1 := GameWorld.handleBallInPocket cfg w r in
  _currentPlayerIndex w1 = _currentPlayerIndex w
  /\ length (_players w1) = length (_players w)
  /\ _balls w1 = _balls w
  /\ store w1 = alter (GameWorld.resolveBallInPocket cfg) r (store w)
  /\ (pocketedBalls (_turnState w1) = pocketedBalls (_turnState w)
      \/ pocketedBalls (_turnState w1) = pocketedBalls (_turnState w) ++ [r]).
Proof.
  unfold GameWorld.handleBallInPocket.
  destruct (negb _ && negb _); [|cbn; auto 10].
  destruct (color _); [cbn; auto 10|].
  destruct (GameWorld.isValidPlayerColor _); cbn; rewrite ?length_alter;
    auto 10.
Qed.

Lemma handleBallInPocket_others (w : GameWorld) (r r' : ref) :
  r' <> r ->
  let w1 := GameWorld.handleBallInPocket cfg w r in
  GameWorld.deref w1 r' = GameWorld.deref w r'
  /\ GameWorld.includes (pocketedBalls (_turnState w1)) r'
     = GameWorld.includes (pocketedBalls (_turnState w)) r'.
Proof.
  intros Hne w1.
  destruct (handleBallInPocket_frame w r) as (_ & _ & _ & Hs & Hp).
  fold w1 in Hs, Hp. split.
  - unfold GameWorld.deref. rewrite Hs.
    apply list_lookup_total_alter_ne. congruence.
  - destruct Hp as [-> | ->]; [reflexivity|].
    apply includes_app_ne. congruence.
Qed.

(** What one step of [handleBallsInPockets] does to the players' colors. *)
Lemma handleBallInPocket_colors (w : GameWorld) (r : ref) :
  (r < length (store w))%nat ->
  length (_players w) = 2%nat ->
  (_currentPlayerIndex w < 2)%nat ->
  let w1 := GameWorld.handleBallInPocket cfg w r in
  let c := _color (GameWorld.deref w r) in
  if newlyPocketed cfg w r && GameWorld.isValidPlayerColor c
  then match color (GameWorld.currentPlayer w) with
       | None =>
           color (GameWorld.currentPlayer w1) = Some c
           /\ color (GameWorld.nextPlayer w1) = Some (complementColor c)
       | Some _ => playerColors w1 = playerColors w
       end
  else playerColors w1 = playerColors w.
Proof.
  intros Hr Hlen Hidx w1 c.
  unfold w1, GameWorld.handleBallInPocket.
  set (w0 := GameWorld.modify (GameWorld.resolveBallInPocket cfg) r w).
  assert (Hb : GameWorld.deref w0 r
               = GameWorld.resolveBallInPocket cfg (GameWorld.deref w r))
    by (apply deref_modify_eq; exact Hr).
  rewrite Hb, resolveBallInPocket_color. fold c.
  change (pocketedBalls (_turnState w0)) with (pocketedBalls (_turnState w)).
  change (color (GameWorld.currentPlayer w0))
    with (color (GameWorld.currentPlayer w)).
  fold (newlyPocketed cfg w r).
  destruct (newlyPocketed cfg w r) eqn:Hnew; cbn [andb]; [|reflexivity].
  destruct (color (GameWorld.currentPlayer w)) as [pc|] eqn:Hpc.
  { now destruct (GameWorld.isValidPlayerColor c). }
  destruct (GameWorld.isValidPlayerColor c) eqn:Hvc; [|reflexivity].
  destruct (_players w) as [|p0 [|p1 [|p2 ps]]] eqn:Hps; try discriminate Hlen.
  unfold GameWorld.currentPlayer, GameWorld.nextPlayer,
    GameWorld.nextPlayerIndex, complementColor.
  cbn [_players _currentPlayerIndex GameWorld.with_players
       GameWorld.with_turnState store _turnState _balls].
  change (_players w0) with (_players w).
  change (_currentPlayerIndex w0) with (_currentPlayerIndex w).
  rewrite Hps.
  destruct (_currentPlayerIndex w) as [|[|n]]; [| |lia]; cbn; now split.
Qed.

Lemma colors_of_players (w w' : GameWorld) :
  playerColors w' = playerColors w ->
  _currentPlayerIndex w' = _currentPlayerIndex w ->
  length (_players w) = 2%nat ->
  (_currentPlayerIndex w < 2)%nat ->
  color (GameWorld.currentPlayer w') = color (GameWorld.currentPlayer w)
  /\ color (GameWorld.nextPlayer w') = color (GameWorld.nextPlayer w).
Proof.
  unfold playerColors, GameWorld.currentPlayer, GameWorld.nextPlayer,
    GameWorld.nextPlayerIndex.
  intros Hc -> Hlen Hidx.
  destruct (_players w) as [|p0 [|p1 [|p2 ps]]]; try discriminate Hlen.
  destruct (_players w') as [|q0 [|q1 [|q2 qs]]]; try discriminate Hc.
  injection Hc as H0 H1.
  destruct (_currentPlayerIndex w) as [|[|n]]; [| |lia]; cbn; auto.
Qed.

Let assigns (w : GameWorld) (r : ref) : bool :=
  newlyPocketed cfg w r
  && GameWorld.isValidPlayerColor (_color (GameWorld.deref w r)).

Lemma handleBallsInPockets_fold (l : list ref) :
  forall w : GameWorld,
  List.NoDup l ->
  (forall r, In r l -> (r < length (store w))%nat) ->
  length (_players w) = 2%nat ->
  (_currentPlayerIndex w < 2)%nat ->
  let w' := fold_left (GameWorld.handleBallInPocket cfg) l w in
  _currentPlayerIndex w' = _currentPlayerIndex w
  /\ match color (GameWorld.currentPlayer w), List.filter (assigns w) l with
     | None, r :: _ =>
         color (GameWorld.currentPlayer w')
         = Some (_color (GameWorld.deref w r))
         /\ color (GameWorld.nextPlayer w')
            = Some (complementColor (_color (GameWorld.deref w r)))
     | _, _ => playerColors w' = playerColors w
     end.
Proof.
  induction l as [|r l IH]; intros w Hnd Hrange Hlen Hidx.
  - cbn. split; [reflexivity|]. now destruct (color _).
  - apply NoDup_cons_iff in Hnd as [Hnotin Hnd].
    set (w1 := GameWorld.handleBallInPocket cfg w r).
    destruct (handleBallInPocket_frame w r) as (Hi1 & Hl1 & _ & Hs1 & _).
    fold w1 in Hi1, Hl1, Hs1.
    assert (Hrange1 : forall r', In r' l -> (r' < length (store w1))%nat).
    { intros r' Hin. rewrite Hs1, length_alter. apply Hrange. now right. }
    assert (Hlen1 : length (_players w1) = 2%nat) by congruence.
    assert (Hidx1 : (_currentPlayerIndex w1 < 2)%nat) by (rewrite Hi1; exact Hidx).
    specialize (IH w1 Hnd Hrange1 Hlen1 Hidx1).
    cbn zeta in IH. destruct IH as [IHi IHc].
    assert (Hne : forall r', In r' l -> r' <> r) by (intros r' Hin ->; contradiction).
    assert (Hfilter : List.filter (assigns w1) l = List.filter (assigns w) l).
    { apply filter_ext_in. intros r' Hin. unfold assigns, newlyPocketed.
      destruct (handleBallInPocket_others w r r' (Hne r' Hin)) as [Hd Hinc].
      fold w1 in Hd, Hinc. now rewrite Hd, Hinc. }
    rewrite Hfilter in IHc.
    cbn [fold_left List.filter]. fold w1.
    split; [congruence|].
    pose proof (handleBallInPocket_colors w r
                  (Hrange r (or_introl eq_refl)) Hlen Hidx) as Hstep.
    cbn zeta in Hstep. fold w1 in Hstep. fold (assigns w r) in Hstep.
    destruct (assigns w r) eqn:Hassign.
    + destruct (color (GameWorld.currentPlayer w)) as [pc|] eqn:Hpc.
      * destruct (colors_of_players w w1 Hstep Hi1 Hlen Hidx) as [Hcur _].
        rewrite Hcur, Hpc in IHc. congruence.
      * destruct Hstep as [Hcur Hnext]. rewrite Hcur in IHc.
        destruct (colors_of_players w1 _ IHc IHi Hlen1 Hidx1) as [Hc' Hn'].
        split; congruence.
    + destruct (colors_of_players w w1 Hstep Hi1 Hlen Hidx) as [Hcur _].
      rewrite Hcur in IHc.
      destruct (color (GameWorld.currentPlayer w)) as [pc|] eqn:Hpc;
        [congruence|].
      destruct (List.filter (assigns w) l) as [|r0 rest] eqn:Hf;
        [congruence|].
      assert (Hin0 : In r0 l).
      { apply (proj1 (filter_In (assigns w) r0 l)).
        rewrite Hf. now left. }
      destruct (handleBallInPocket_others w r r0 (Hne r0 Hin0)) as [Hd _].
      fold w1 in Hd. now rewrite <- Hd.
Qed.

(** C8, as the code has it: in a frame of a world with two players whose
    balls are distinct objects of the store, a player without a color gets
    the color of the first red or yellow ball newly pocketed in the frame, in
    the order of the balls, and the other player gets the complementary
    color; the first touch and the other balls pocketed play no part.  When
    no such ball is pocketed, or the player to move has a color already, the
    colors of both players are as before. *)
Theorem handleBallsInPockets_assigns_colors (w : GameWorld) :
  List.NoDup (_balls w) ->
  (forall r, In r (_balls w) -> (r < length (store w))%nat) ->
  length (_players w) = 2%nat ->
  (_currentPlayerIndex w < 2)%nat ->
  let w' := GameWorld.handleBallsInPockets cfg w in
  match color (GameWorld.currentPlayer w), coloredBallsPocketed cfg w with
  | None, r :: _ =>
      color (GameWorld.currentPlayer w') = Some (_color (GameWorld.deref w r))
      /\ color (GameWorld.nextPlayer w')
         = Some (complementColor (_color (GameWorld.deref w r)))
  | _, _ => playerColors w' = playerColors w
  end.
Proof.
  intros Hnd Hrange Hlen Hidx.
  exact (proj2 (handleBallsInPockets_fold (_balls w) w Hnd Hrange Hlen Hidx)).
Qed.

End Pocketing.

Lemma sqrt_gt (r dx dy : R) :
  0 <= r -> (r < dx \/ dx < - r \/ r < dy \/ dy < - r) ->
  r < sqrt (dx * dx + dy * dy).
Proof.
  intros Hr Hd.
  rewrite <- (sqrt_square r Hr) at 1.
  apply sqrt_lt_1; nra.
Qed.

Lemma isInsidePocket_at (cfg : IGameConfig) (q : IVector2) :
  In q (pocketsPositions (table cfg)) ->
  0 <= pocketRadius (table cfg) ->
  GameWorld.isInsidePocket cfg (V (fst q) (snd q)) = true.
Proof.
  intros Hin Hr. unfold GameWorld.isInsidePocket.
  apply existsb_exists. exists q. split; [exact Hin|].
  unfold toVector2. rewrite distFrom_V, leb_Fin. apply Rleb_true.
  replace ((fst q - fst q) * (fst q - fst q) + (snd q - snd q) * (snd q - snd q))
    with 0 by ring.
  now rewrite sqrt_0.
Qed.

Lemma resolveBallInPocket_new (cfg : IGameConfig) (a b : R) (c : Color) :
  GameWorld.resolveBallInPocket cfg (Ball.new (V a b) c)
  = if GameWorld.isInsidePocket cfg (V a b)
    then Ball.hide (Ball.new (V a b) c) else Ball.new (V a b) c.
Proof. reflexivity. Qed.

Lemma isInsidePocket_yellow_ball :
  GameWorld.isInsidePocket GameConfig (V 62 62) = true.
Proof. apply (isInsidePocket_at GameConfig (62, 62)); cbn; [auto | lra]. Qed.

Lemma isInsidePocket_red_ball :
  GameWorld.isInsidePocket GameConfig (V 750 32) = true.
Proof. apply (isInsidePocket_at GameConfig (750, 32)); cbn; [auto | lra]. Qed.

Lemma isInsidePocket_black_spot :
  GameWorld.isInsidePocket GameConfig (V 1090 413) = false.
Proof.
  apply isInsidePocket_false_iff. cbn.
  intros q Hq. repeat destruct Hq as [<-|Hq]; try contradiction;
    cbn; apply sqrt_gt; lra.
Qed.

Lemma isInsidePocket_cue_spot :
  GameWorld.isInsidePocket GameConfig (V 413 413) = false.
Proof.
  apply isInsidePocket_false_iff. cbn.
  intros q Hq. repeat destruct Hq as [<-|Hq]; try contradiction;
    cbn; apply sqrt_gt; lra.
Qed.

Lemma handleBallInPocket_yellow :
  GameWorld.handleBallInPocket GameConfig worldTwoColorsPocketed 0%nat
  = worldYellowPocketed.
Proof.
  unfold GameWorld.handleBallInPocket, GameWorld.modify, GameWorld.deref,
    worldTwoColorsPocketed.
  cbn -[GameWorld.resolveBallInPocket].
  rewrite !resolveBallInPocket_new, isInsidePocket_yellow_ball.
  reflexivity.
Qed.

Lemma handleBallInPocket_red :
  GameWorld.handleBallInPocket GameConfig worldYellowPocketed 1%nat
  = worldBothPocketed.
Proof.
  unfold GameWorld.handleBallInPocket, GameWorld.modify, GameWorld.deref,
    worldYellowPocketed.
  cbn -[GameWorld.resolveBallInPocket].
  rewrite !resolveBallInPocket_new, isInsidePocket_red_ball.
  reflexivity.
Qed.

Lemma handleBallInPocket_black :
  GameWorld.handleBallInPocket GameConfig worldBothPocketed 2%nat
  = worldBothPocketed.
Proof.
  unfold GameWorld.handleBallInPocket, GameWorld.modify, GameWorld.deref,
    worldBothPocketed.
  cbn -[GameWorld.resolveBallInPocket].
  rewrite !resolveBallInPocket_new, isInsidePocket_black_spot.
  reflexivity.
Qed.

Lemma handleBallInPocket_cue :
  GameWorld.handleBallInPocket GameConfig worldBothPocketed 3%nat
  = worldBothPocketed.
Proof.
  unfold GameWorld.handleBallInPocket, GameWorld.modify, GameWorld.deref,
    worldBothPocketed.
  cbn -[GameWorld.resolveBallInPocket].
  rewrite !resolveBallInPocket_new, isInsidePocket_cue_spot.
  reflexivity.
Qed.

Lemma handleBallsInPockets_two_colors :
  GameWorld.handleBallsInPockets GameConfig worldTwoColorsPocketed
  = worldBothPocketed.
Proof.
  unfold GameWorld.handleBallsInPockets.
  change (_balls worldTwoColorsPocketed) with [0%nat; 1%nat; 2%nat; 3%nat].
  cbn [fold_left].
  now rewrite handleBallInPocket_yellow, handleBallInPocket_red,
    handleBallInPocket_black, handleBallInPocket_cue.
Qed.

(** C8 as stated fails: the colorless first player pockets a yellow and a
    red ball in the same frame.  The pocketed balls do not share one color
    and the turn is judged a foul, yet the player has been given yellow and
    the opponent red. *)
Lemma handleBallsInPockets_assigns_on_foul :
  let w := worldTwoColorsPocketed in
  let w1 := GameWorld.handleBallsInPockets GameConfig w in
  let w2 := GameWorld.concludeTurn w1 in
  color (GameWorld.currentPlayer w) = None
  /\ (fun r => _color (GameWorld.deref w1 r)) <$> pocketedBalls (_turnState w1)
     = [yellow; red]
  /\ color (GameWorld.currentPlayer w1) = Some yellow
  /\ color (GameWorld.nextPlayer w1) = Some red
  /\ isValid (_turnState w2) = false.
Proof.
  cbn zeta. rewrite handleBallsInPockets_two_colors. repeat split.
Qed.

(** The theorem for [worldTwoColorsPocketed]. *)
Lemma handleBallsInPockets_assigns_colors_witness :
  let w := worldTwoColorsPocketed in
  let w' := GameWorld.handleBallsInPockets GameConfig w in
  match color (GameWorld.currentPlayer w), coloredBallsPocketed GameConfig w with
  | None, r :: _ =>
      color (GameWorld.currentPlayer w') = Some (_color (GameWorld.deref w r))
      /\ color (GameWorld.nextPlayer w')
         = Some (complementColor (_color (GameWorld.deref w r)))
  | _, _ => playerColors w' = playerColors w
  end.
Proof.
  refine (handleBallsInPockets_assigns_colors GameConfig
            worldTwoColorsPocketed _ _ _ _).
  - cbn. repeat constructor; cbn; intuition lia.
  - cbn. intros r Hr. intuition lia.
  - reflexivity.
  - cbn. lia.
Defined.

(** ** The shot optimizer *)

Lemma ltb_irrefl (a : number) : (a <? a)%num = false.
Proof. destruct a; cbn; auto. apply Rltb_false. lra. Qed.

Lemma ltb_asym (a b : number) : (a <? b)%num = true -> (b <? a)%num = false.
Proof.
  destruct a, b; cbn; try discriminate; auto.
  rewrite Rltb_true, Rltb_false. lra.
Qed.

Lemma ltb_leb (a b : number) : (a <? b)%num = true -> (a <=? b)%num = true.
Proof.
  destruct a, b; cbn; try discriminate; auto.
  rewrite Rltb_true, Rleb_true. lra.
Qed.

Lemma leb_refl (a : number) : a <> NaN -> (a <=? a)%num = true.
Proof.
  destruct a; cbn; auto; try congruence. intros _. apply Rleb_true. lra.
Qed.

Section Optimizer.
Variable cfg : IGameConfig.
Variable Math_random : nat -> R.

Let train := AITrainer.train cfg Math_random.
Let best := AITrainer.bestEvaluation.

(** One call of [train] either keeps the best opponent and its evaluation,
    or replaces it by the copy of the opponent just evaluated, the last one
    pushed on [_opponents], whose evaluation is strictly greater. *)
Lemma train_best (t : AITrainer) :
  bestIsRecorded t ->
  bestIsRecorded (train t)
  /\ ((_bestOpponent (train t) = _bestOpponent t /\ best (train t) = best t)
      \/ ((best (train t) >? best t)%num = true
          /\ _bestOpponent (train t) <> _bestOpponent t
          /\ last (_opponents (train t)) = Some (_bestOpponent (train t))
          /\ _iteration (train t) = S (_iteration t))).
Proof.
  intros (Hne & Hb & Hc). unfold train, AITrainer.train.
  destruct (Nat.eqb (_iteration t) _).
  { split; [|left; split; reflexivity]. repeat split; assumption. }
  destruct (GameWorld.isBallsMoving (_gameWorld t)).
  { split; [|left; split; reflexivity]. repeat split; assumption. }
  set (e := AIPolicy.evaluate cfg (GameWorld.concludeTurn (_gameWorld t))).
  set (store1 := alter (AITrainer.set_evaluation e) (_currentOpponent t)
                   (opponentStore t)).
  assert (Hlen1 : length store1 = length (opponentStore t))
    by apply length_alter.
  set (copy := mkOpponent (power (store1 !!! _currentOpponent t))
                 (rotation (store1 !!! _currentOpponent t))
                 (evaluation (store1 !!! _currentOpponent t))).
  assert (Hcopy : evaluation copy = e).
  { unfold copy, store1. cbn.
    now rewrite list_lookup_total_alter_eq by exact Hc. }
  assert (Hnew : (store1 ++ [copy]) !!! length store1 = copy).
  { rewrite lookup_total_app_r by lia.
    now replace (length store1 - length store1)%nat with 0%nat by lia. }
  assert (Hold : (store1 ++ [copy]) !!! _bestOpponent t
                 = opponentStore t !!! _bestOpponent t).
  { rewrite lookup_total_app_l by lia.
    unfold store1. now apply list_lookup_total_alter_ne. }
  unfold AITrainer.simulate, AITrainer.with_worlds, bestIsRecorded, best,
    AITrainer.bestEvaluation.
  cbn [opponentStore _opponents _currentOpponent _bestOpponent _iteration].
  rewrite Hnew, Hold, Hcopy.
  destruct (e >? evaluation (opponentStore t !!! _bestOpponent t))%num eqn:Hgt.
  - rewrite lookup_total_app_l by (rewrite length_app; cbn; lia).
    rewrite Hnew, Hcopy, !length_app, Hlen1. cbn [length].
    split; [repeat split; lia|]. right.
    repeat split; auto; try lia. now rewrite last_snoc.
  - rewrite lookup_total_app_l by (rewrite length_app; cbn; lia).
    rewrite Hold, !length_app, Hlen1. cbn [length].
    split; [repeat split; lia|]. left. now split.
Qed.

(** [init] records the first opponent as the best one without an
    evaluation of its own: the best opponent and the opponent under test are
    one object, and its evaluation is the default 0. *)
Lemma init_alias (t : AITrainer) :
  let t0 := AITrainer.init Math_random t in
  _bestOpponent t0 = _currentOpponent t0
  /\ (_currentOpponent t0 < length (opponentStore t0))%nat
  /\ best t0 = Fin 0.
Proof.
  unfold best, AITrainer.bestEvaluation, AITrainer.init.
  cbn [opponentStore _bestOpponent _currentOpponent].
  rewrite length_app. cbn [length]. repeat split; [lia|].
  rewrite lookup_total_app_r by lia.
  now replace (length (opponentStore t) - length (opponentStore t))%nat
    with 0%nat by lia.
Qed.

(** The first evaluation writes into that one object: the best opponent
    stays the same object and its evaluation becomes the one just measured,
    whatever it is.  From then on the two are distinct objects. *)
Lemma train_first_evaluation (t : AITrainer) :
  _bestOpponent t = _currentOpponent t ->
  (_currentOpponent t < length (opponentStore t))%nat ->
  Nat.eqb (_iteration t) (trainIterations (ai cfg)) = false ->
  GameWorld.isBallsMoving (_gameWorld t) = false ->
  _bestOpponent (train t) = _bestOpponent t
  /\ best (train t)
     = AIPolicy.evaluate cfg (GameWorld.concludeTurn (_gameWorld t))
  /\ _iteration (train t) = S (_iteration t)
  /\ bestIsRecorded (train t).
Proof.
  intros Halias Hc Hit Hmv. unfold train, AITrainer.train.
  rewrite Hit, Hmv, Halias.
  set (e := AIPolicy.evaluate cfg (GameWorld.concludeTurn (_gameWorld t))).
  set (store1 := alter (AITrainer.set_evaluation e) (_currentOpponent t)
                   (opponentStore t)).
  assert (Hlen1 : length store1 = length (opponentStore t))
    by apply length_alter.
  assert (Hcur : evaluation (store1 !!! _currentOpponent t) = e).
  { unfold store1. now rewrite list_lookup_total_alter_eq by exact Hc. }
  set (copy := mkOpponent (power (store1 !!! _currentOpponent t))
                 (rotation (store1 !!! _currentOpponent t))
                 (evaluation (store1 !!! _currentOpponent t))).
  assert (Hnew : (store1 ++ [copy]) !!! length store1 = copy).
  { rewrite lookup_total_app_r by lia.
    now replace (length store1 - length store1)%nat with 0%nat by lia. }
  assert (Hold : (store1 ++ [copy]) !!! _currentOpponent t
                 = store1 !!! _currentOpponent t)
    by (rewrite lookup_total_app_l by lia; reflexivity).
  unfold AITrainer.simulate, AITrainer.with_worlds, bestIsRecorded, best,
    AITrainer.bestEvaluation.
  cbn [opponentStore _opponents _currentOpponent _bestOpponent _iteration].
  rewrite Hnew, Hold.
  change (evaluation copy) with (evaluation (store1 !!! _currentOpponent t)).
  unfold Num.gtb. rewrite ltb_irrefl.
  rewrite lookup_total_app_l by (rewrite length_app, Hlen1; cbn [length]; lia).
  rewrite Hold, Hcur, !length_app, Hlen1. cbn [length].
  repeat split; lia.
Qed.

Lemma train_iteration (t : AITrainer) :
  (_iteration t <= _iteration (train t))%nat.
Proof.
  unfold train, AITrainer.train.
  destruct (Nat.eqb (_iteration t) _); [cbn; lia|].
  destruct (GameWorld.isBallsMoving (_gameWorld t)); cbn; lia.
Qed.

Lemma train_sessionState (t : AITrainer) :
  sessionState t -> sessionState (train t).
Proof.
  intros [(Hit & Halias & Hc) | (Hit & Hrec)].
  - destruct (Nat.eqb (_iteration t) (trainIterations (ai cfg))) eqn:Hend.
    { left. unfold train, AITrainer.train. rewrite Hend. cbn. auto. }
    destruct (GameWorld.isBallsMoving (_gameWorld t)) eqn:Hmv.
    { left. unfold train, AITrainer.train. rewrite Hend, Hmv. auto. }
    destruct (train_first_evaluation t Halias Hc Hend Hmv)
      as (_ & _ & Hi & Hr).
    right. split; [lia | exact Hr].
  - right. split; [|exact (proj1 (train_best t Hrec))].
    pose proof (train_iteration t). lia.
Qed.

(** The session handed to the training loop by [startSession] is in the
    first kind of state. *)
Lemma beginSession_state (fuel : nat) (gameWorld : GameWorld)
    (t s : AITrainer) :
  AITrainer.beginSession cfg Math_random fuel gameWorld t = Some s ->
  sessionState s.
Proof.
  unfold AITrainer.beginSession.
  destruct (if GameWorld.isBallInHand gameWorld then _ else _) as [gw|];
    [|discriminate].
  intros [= <-]. left. cbn. rewrite length_app. cbn. repeat split. lia.
Qed.

Lemma trainingSteps_sessionState (env : Env) (t : AITrainer) (k : nat) :
  sessionState t ->
  sessionState (Nat.iter k (AITrainer.trainingStep cfg Math_random env) t).
Proof.
  intros Ht. induction k as [|k IH]; [exact Ht|].
  cbn [Nat.iter]. exact (train_sessionState _ IH).
Qed.

(** C9: in a session, once an opponent has been evaluated, a turn of the
    training loop never lowers the evaluation recorded for the best
    opponent.  The best opponent is either kept, with its evaluation, or
    replaced by the opponent evaluated in this turn, the last one pushed on
    the list of opponents, whose evaluation is strictly greater. *)
Theorem bestEvaluation_monotone (env : Env) (t : AITrainer) (k : nat) :
  sessionState t ->
  let a := Nat.iter k (AITrainer.trainingStep cfg Math_random env) t in
  let b := AITrainer.trainingStep cfg Math_random env a in
  (1 <= _iteration a)%nat ->
  (AITrainer.bestEvaluation b <? AITrainer.bestEvaluation a)%num = false
  /\ (AITrainer.bestEvaluation a <> NaN ->
      (AITrainer.bestEvaluation a <=? AITrainer.bestEvaluation b)%num = true)
  /\ ((_bestOpponent b = _bestOpponent a
       /\ AITrainer.bestEvaluation b = AITrainer.bestEvaluation a)
      \/ ((AITrainer.bestEvaluation b >? AITrainer.bestEvaluation a)%num = true
          /\ _bestOpponent b <> _bestOpponent a
          /\ last (_opponents b) = Some (_bestOpponent b)
          /\ _iteration b = S (_iteration a))).
Proof.
  intros Ht a b Hit.
  pose proof (trainingSteps_sessionState env t k Ht) as Ha. fold a in Ha.
  destruct Ha as [(H0 & _) | (_ & Ha)]; [lia|].
  destruct (train_best a Ha) as [_ Hstep].
  change (AITrainer.bestEvaluation b) with (best (train a)).
  change (_bestOpponent b) with (_bestOpponent (train a)).
  change (_opponents b) with (_opponents (train a)).
  change (_iteration b) with (_iteration (train a)).
  change (AITrainer.bestEvaluation a) with (best a).
  destruct Hstep as [[Hsame Heq] | (Hgt & Hrest)].
  - rewrite Heq. split; [apply ltb_irrefl|].
    split; [apply leb_refl|]. left. now split.
  - split; [now apply ltb_asym|].
    split; [intros _; now apply ltb_leb|]. right. now split.
Qed.

End Optimizer.

(** The theorem for the first turn of the loop from [sampleTrainer]. *)
Lemma bestEvaluation_monotone_witness :
  (AITrainer.bestEvaluation
     (AITrainer.trainingStep GameConfig (fun _ : nat => (1 / 2)%R)
        (env_pressed_at 0 0) sampleTrainer)
   <? AITrainer.bestEvaluation sampleTrainer)%num = false.
Proof.
  refine (proj1 (bestEvaluation_monotone GameConfig (fun _ : nat => (1 / 2)%R)
                   (env_pressed_at 0 0) sampleTrainer 0 _ _)).
  - right. unfold bestIsRecorded. cbn. repeat split; lia.
  - cbn. lia.
Defined.

(** The training loop only ever takes turns of [trainingStep]. *)
Lemma opponentTrainingLoop_steps (cfg : IGameConfig) (Math_random : nat -> R)
    (env : Env) (fuel : nat) :
  forall t, exists j, (j <= fuel)%nat
    /\ AITrainer.opponentTrainingLoop cfg Math_random env fuel t
       = Nat.iter j (AITrainer.trainingStep cfg Math_random env) t.
Proof.
  induction fuel as [|fuel IH]; intros t.
  - exists 0%nat. split; [lia | reflexivity].
  - cbn [AITrainer.opponentTrainingLoop].
    destruct (_finishedSession t).
    + exists 0%nat. split; [lia | reflexivity].
    + destruct (IH (AITrainer.trainingStep cfg Math_random env t))
        as (j & Hj & Heq).
      exists (S j). split; [lia|].
      rewrite Heq. symmetry. apply Nat.iter_succ_r.
Qed.

(** C10 as stated fails when the frame commits a placement: in
    [worldInHand] a press at (500, 400), a valid position, clears the
    [ballInHand] flag and moves the stick to the cue ball, which is more than
    the position of the cue ball and the stick's visibility and
    movability. *)
Lemma update_ballInHand_commit_changes_more :
  let w' :=
    fst (GameWorld.update GameConfig (env_pressed_at 500 400) worldInHand) in
  GameWorld.isBallInHand worldInHand = true
  /\ ballInHand (_turnState w') = false
  /\ s_position (_stick worldInHand) = V 413 413
  /\ s_position (_stick w') = V 500 400.
Proof.
  assert (Hvalid :
    GameWorld.isValidPosToPlaceCueBall GameConfig worldInHand (V 500 400)
    = true).
  { apply isValidPosToPlaceCueBall_iff. unfold legalCueBallPosition.
    split; [cbn; lra|]. split.
    - cbn. intros q Hq.
      repeat destruct Hq as [<-|Hq]; try contradiction;
        cbn; apply sqrt_gt; lra.
    - intros r Hr Hc.
      destruct Hr as [<-|[<-|[]]]; [|now contradiction Hc].
      change (Ball.position (GameWorld.deref worldInHand 0%nat))
        with (V 1090 413).
      rewrite distFrom_V, gtb_Fin. apply Rltb_true.
      cbn. apply sqrt_gt; lra. }
  cbn zeta. unfold GameWorld.update, GameWorld.handleBallInHand.
  change (GameWorld.isBallInHand worldInHand) with true. cbn match.
  change (Mouse_position (env_pressed_at 500 400)) with (V 500 400).
  rewrite Hvalid. cbn. repeat split.
Qed.

(** * Further properties *)

(** ** Ball against ball: what the exchange keeps *)

(** X1: after two visible balls with finite, distinct centers at most a diameter
    apart are resolved, the sum of their positions is as before and their
    centers are exactly one diameter apart. *)
Theorem resolveBallsCollision_separates (cfg : IGameConfig)
    (p1x p1y v1x v1y p2x p2y v2x v2y : R) (c1 c2 : Color) (m1 m2 : bool) :
  let D := diameter (ball cfg) in
  let d := sqrt ((p1x - p2x) * (p1x - p2x) + (p1y - p2y) * (p1y - p2y)) in
  let res :=
    GameWorld.resolveBallsCollision cfg
      (mkBall (V p1x p1y) (V v1x v1y) c1 m1 true)
      (mkBall (V p2x p2y) (V v2x v2y) c2 m2 true) in
  let first' := fst (fst res) in
  let second' := snd (fst res) in
  0 < d -> d <= D ->
  Vector2.add (_position first') (_position second')
  = Vector2.add (V p1x p1y) (V p2x p2y)
  /\ Vector2.distFrom (_position first') (_position second') = Fin D.
Proof.
  intros D d res first' second' Hd HD.
  unfold first', second', res.
  rewrite resolveBallsCollision_finite by assumption.
  cbn [fst snd _position]. fold D. fold d.
  set (nx := p1x - p2x). set (ny := p1y - p2y).
  rewrite !add_V, distFrom_V. split.
  - apply V_eq; ring.
  - apply Fin_eq.
    replace (p1x + nx * ((D - d) / d) * (1 / 2)
             - (p2x - nx * ((D - d) / d) * (1 / 2)))
      with (nx * (D / d)) by (unfold nx; field; lra).
    replace (p1y + ny * ((D - d) / d) * (1 / 2)
             - (p2y - ny * ((D - d) / d) * (1 / 2)))
      with (ny * (D / d)) by (unfold ny; field; lra).
    rewrite sqrt_scaled
      by (apply Rlt_le; apply Rdiv_lt_0_compat; lra).
    change (sqrt (nx * nx + ny * ny)) with d. field. lra.
Qed.

Lemma resolveBallsCollision_separates_witness :
  Vector2.distFrom
    (_position (fst (fst (GameWorld.resolveBallsCollision GameConfig
       (mkBall (V 100 100) (V 5 0) white true true)
       (mkBall (V 138 100) (V (-5) 0) red true true)))))
    (_position (snd (fst (GameWorld.resolveBallsCollision GameConfig
       (mkBall (V 100 100) (V 5 0) white true true)
       (mkBall (V 138 100) (V (-5) 0) red true true)))))
  = Fin 38.
Proof.
  refine (proj2 (resolveBallsCollision_separates GameConfig
                   100 100 5 0 138 100 (-5) 0 white red true true _ _));
    rewrite sqrt_38; cbn; lra.
Defined.

(** X2: the same exchange scales the total momentum of the two balls by
    [1 - collisionLoss] and their total kinetic energy by its square. *)
Theorem resolveBallsCollision_momentum_energy (cfg : IGameConfig)
    (p1x p1y v1x v1y p2x p2y v2x v2y : R) (c1 c2 : Color) (m1 m2 : bool) :
  let D := diameter (ball cfg) in
  let e := 1 - collisionLoss (physics cfg) in
  let d := sqrt ((p1x - p2x) * (p1x - p2x) + (p1y - p2y) * (p1y - p2y)) in
  let res :=
    GameWorld.resolveBallsCollision cfg
      (mkBall (V p1x p1y) (V v1x v1y) c1 m1 true)
      (mkBall (V p2x p2y) (V v2x v2y) c2 m2 true) in
  let first' := fst (fst res) in
  let second' := snd (fst res) in
  0 < d -> d <= D ->
  Vector2.add (_velocity first') (_velocity second')
  = V ((v1x + v2x) * e) ((v1y + v2y) * e)
  /\ (Vector2.dot (_velocity first') (_velocity first')
      + Vector2.dot (_velocity second') (_velocity second'))%num
     = Fin (e * e * (v1x * v1x + v1y * v1y + (v2x * v2x + v2y * v2y))).
Proof.
  intros D e d res first' second' Hd HD.
  unfold first', second', res.
  rewrite resolveBallsCollision_finite by assumption.
  cbn [fst snd _velocity]. fold e. fold d.
  set (nx := p1x - p2x) in *. set (ny := p1y - p2y) in *.
  assert (Hdd : d * d = nx * nx + ny * ny) by (apply sqrt_sqrt; nra).
  set (ux := nx * (1 / d)). set (uy := ny * (1 / d)).
  assert (Hu : ux * ux + uy * uy = 1).
  { unfold ux, uy. transitivity ((nx * nx + ny * ny) / (d * d)).
    - field; lra.
    - rewrite <- Hdd. field; lra. }
  rewrite add_V, !dot_V, add_Fin. split.
  - apply V_eq.
    + transitivity ((v1x + v2x) * e * (ux * ux + uy * uy)); [ring|].
      rewrite Hu. ring.
    + transitivity ((v1y + v2y) * e * (ux * ux + uy * uy)); [ring|].
      rewrite Hu. ring.
  - apply Fin_eq.
    transitivity (e * e * (v1x * v1x + v1y * v1y + (v2x * v2x + v2y * v2y))
                  * ((ux * ux + uy * uy) * (ux * ux + uy * uy))); [ring|].
    rewrite Hu. ring.
Qed.

Lemma resolveBallsCollision_momentum_energy_witness :
  Vector2.add
    (_velocity (fst (fst (GameWorld.resolveBallsCollision GameConfig
       (mkBall (V 100 100) (V 5 0) white true true)
       (mkBall (V 138 100) (V (-5) 0) red true true)))))
    (_velocity (snd (fst (GameWorld.resolveBallsCollision GameConfig
       (mkBall (V 100 100) (V 5 0) white true true)
       (mkBall (V 138 100) (V (-5) 0) red true true)))))
  = V ((5 + -5) * (1 - collisionLoss (physics GameConfig)))
      ((0 + 0) * (1 - collisionLoss (physics GameConfig))).
Proof.
  refine (proj1 (resolveBallsCollision_momentum_energy GameConfig
                   100 100 5 0 138 100 (-5) 0 white red true true _ _));
    rewrite sqrt_38; cbn; lra.
Defined.

(** X3: two balls are left as they are, and no collision is reported, when one
    of them is hidden or when their finite centers are more than a diameter
    apart; visible balls with finite centers collide exactly when their
    distance is at most the diameter. *)
Theorem resolveBallsCollision_reports (cfg : IGameConfig)
    (p1x p1y p2x p2y : R) (v1 v2 : Vector2) (c1 c2 : Color)
    (m1 m2 vis1 vis2 : bool) :
  let d := sqrt ((p1x - p2x) * (p1x - p2x) + (p1y - p2y) * (p1y - p2y)) in
  let first := mkBall (V p1x p1y) v1 c1 m1 vis1 in
  let second := mkBall (V p2x p2y) v2 c2 m2 vis2 in
  let res := GameWorld.resolveBallsCollision cfg first second in
  (snd res = true <-> vis1 = true /\ vis2 = true /\ d <= diameter (ball cfg))
  /\ (snd res = false -> fst res = (first, second)).
Proof.
  intros d first second res. unfold res, GameWorld.resolveBallsCollision.
  unfold first, second, Ball.position.
  cbn [_visible _position].
  destruct vis1, vis2; cbn [negb orb];
    try (split; [split; [discriminate | intros (? & ? & ?); discriminate]
                | reflexivity]).
  rewrite !copy_V, subtract_V, length_V, gtb_Fin. fold d.
  destruct (Rltb (diameter (ball cfg)) d) eqn:E.
  - apply Rltb_true in E. split; [|reflexivity].
    split; [discriminate | intros (_ & _ & Hle); lra].
  - apply Rltb_false in E. cbn [snd]. split; [|discriminate].
    split; auto.
Qed.

(** ** Rolling to rest *)

Lemma Ball_update_moving (cfg : IGameConfig) (px py vx vy : R) (c : Color)
    (vis : bool) :
  let k := 1 - friction (physics cfg) in
  Ball.update cfg (mkBall (V px py) (V vx vy) c true vis)
  = if Rltb (sqrt (vx * k * (vx * k) + vy * k * (vy * k)))
         (minVelocityLength (ball cfg))
    then mkBall (V (px + vx * k) (py + vy * k)) (V 0 0) c false vis
    else mkBall (V (px + vx * k) (py + vy * k)) (V (vx * k) (vy * k)) c true vis.
Proof.
  intros k. unfold Ball.update.
  cbn [_moving _velocity _position _color _visible].
  autorewrite with vec. fold k.
  destruct (Rltb _ _); reflexivity.
Qed.

Lemma Ball_stops_within (cfg : IGameConfig) (n : nat) :
  0 < friction (physics cfg) < 1 ->
  forall (px py vx vy : R) (c : Color) (vis : bool),
  (1 - friction (physics cfg)) ^ n * sqrt (vx * vx + vy * vy)
  < minVelocityLength (ball cfg) ->
  exists j,
    _moving (Nat.iter j (Ball.update cfg)
               (mkBall (V px py) (V vx vy) c true vis)) = false
    /\ _velocity (Nat.iter j (Ball.update cfg)
                    (mkBall (V px py) (V vx vy) c true vis)) = V 0 0.
Proof.
  intros Hf. set (k := 1 - friction (physics cfg)).
  assert (Hk : 0 < k < 1) by (unfold k; lra).
  induction n as [|n IH]; intros px py vx vy c vis Hn;
    pose proof (sqrt_pos (vx * vx + vy * vy)) as Hs;
    pose proof (Ball_update_moving cfg px py vx vy c vis) as Hu;
    cbn zeta in Hu; fold k in Hu; rewrite (sqrt_scaled vx vy k) in Hu by lra.
  - exists 1%nat. unfold Nat.iter; cbn [nat_rect]. rewrite Hu.
    replace (Rltb _ _) with true; [now split|].
    symmetry. apply Rltb_true. cbn in Hn. nra.
  - destruct (Rltb (k * sqrt (vx * vx + vy * vy))
                (minVelocityLength (ball cfg))) eqn:E.
    + exists 1%nat. unfold Nat.iter; cbn [nat_rect]. rewrite Hu. now split.
    + destruct (IH (px + vx * k) (py + vy * k) (vx * k) (vy * k) c vis)
        as (j & Hj).
      { rewrite sqrt_scaled by lra. cbn [pow] in Hn. nra. }
      exists (S j). rewrite Nat.iter_succ_r, Hu. exact Hj.
Qed.

(** X4: a moving ball with a finite velocity comes to rest: with a friction in
    (0,1) and a positive stop threshold there is a number of ticks from which
    on the ball is not moving and its velocity is exactly zero. *)
Theorem Ball_comes_to_rest (cfg : IGameConfig) (px py vx vy : R) (c : Color)
    (vis : bool) :
  0 < friction (physics cfg) < 1 ->
  0 < minVelocityLength (ball cfg) ->
  exists n, forall j, (n <= j)%nat ->
    _moving (Nat.iter j (Ball.update cfg)
               (mkBall (V px py) (V vx vy) c true vis)) = false
    /\ _velocity (Nat.iter j (Ball.update cfg)
                    (mkBall (V px py) (V vx vy) c true vis)) = V 0 0.
Proof.
  intros Hf Hm.
  set (k := 1 - friction (physics cfg)).
  set (s := sqrt (vx * vx + vy * vy)).
  assert (Hs : 0 <= s) by apply sqrt_pos.
  assert (Hk : Rabs k < 1) by (apply Rabs_def1; unfold k; lra).
  destruct (pow_lt_1_zero k Hk (minVelocityLength (ball cfg) / (s + 1)))
    as [N HN]; [apply Rdiv_lt_0_compat; lra|].
  specialize (HN N (le_n N)).
  assert (Hpow : k ^ N * s < minVelocityLength (ball cfg)).
  { pose proof (Rle_abs (k ^ N)) as Habs.
    assert (Hkn : 0 <= k ^ N) by (apply pow_le; unfold k; lra).
    assert (Hlt : k ^ N * (s + 1) < minVelocityLength (ball cfg)).
    { apply (Rmult_lt_reg_r (/ (s + 1))); [apply Rinv_0_lt_compat; lra|].
      replace (k ^ N * (s + 1) * / (s + 1)) with (k ^ N) by (field; lra).
      unfold Rdiv in HN. lra. }
    nra. }
  destruct (Ball_stops_within cfg N Hf px py vx vy c vis Hpow) as (n & Hn1 & Hn2).
  exists n. intros j Hj.
  replace j with ((j - n) + n)%nat by lia.
  rewrite Nat.iter_add.
  rewrite Ball_update_at_rest_iter by exact Hn1. now split.
Qed.

Lemma Ball_comes_to_rest_witness :
  exists n, forall j, (n <= j)%nat ->
    _moving (Nat.iter j (Ball.update GameConfig)
               (mkBall (V 100 100) (V 10 0) red true true)) = false
    /\ _velocity (Nat.iter j (Ball.update GameConfig)
                    (mkBall (V 100 100) (V 10 0) red true true)) = V 0 0.
Proof.
  refine (Ball_comes_to_rest GameConfig 100 100 10 0 red true _ _);
    cbn; lra.
Defined.

(** ** Cushions never add speed *)

Section CushionSpeed.
Variable cfg : IGameConfig.

Ltac decide_border :=
  rewrite ?handleTop_finite, ?handleLeft_finite, ?handleRight_finite,
    ?handleBottom_finite;
  rewrite nextPosition_finite;
  rewrite ?outsideTop_finite, ?outsideLeft_finite, ?outsideRight_finite,
    ?outsideBottom_finite;
  match goal with
  | |- context [Rleb ?a ?b] => destruct (Rleb a b)
  end;
  cbv beta iota.

(** X5: whatever cushions a ball with a finite position and velocity meets, and
    wherever it is, the resolution keeps its position and velocity finite,
    does not enlarge either velocity component in magnitude, and so does not
    raise its speed; color and visibility are kept. *)
Theorem cushion_never_speeds_up (px py vx vy : R) (c : Color) (m vis : bool) :
  0 <= collisionLoss (physics cfg) <= 1 ->
  let b1 :=
    GameWorld.resolveBallCollisionWithCushion cfg
      (mkBall (V px py) (V vx vy) c m vis) in
  (exists qx qy wx wy,
     _position b1 = V qx qy /\ _velocity b1 = V wx wy
     /\ wx * wx <= vx * vx /\ wy * wy <= vy * vy)
  /\ (Vector2.length (_velocity b1) <=? Vector2.length (V vx vy))%num = true
  /\ _color b1 = c /\ _visible b1 = vis.
Proof.
  intros Hl b1.
  set (e := 1 - collisionLoss (physics cfg)).
  assert (He : 0 <= e <= 1) by (unfold e; lra).
  assert (Hsq : forall v : R, v * e * (v * e) <= v * v).
  { intros v. assert (He2 : e * e <= 1) by nra.
    pose proof (Rle_0_sqr v) as Hv. unfold Rsqr in Hv.
    replace (v * e * (v * e)) with (v * v * (e * e)) by ring.
    rewrite <- (Rmult_1_r (v * v)) at 2.
    now apply Rmult_le_compat_l. }
  assert (Hex : exists qx qy wx wy mv,
    b1 = mkBall (V qx qy) (V wx wy) c mv vis
    /\ wx * wx <= vx * vx /\ wy * wy <= vy * vy).
  { pose proof (Hsq vx) as Hx. pose proof (Hsq vy) as Hy.
    unfold b1, GameWorld.resolveBallCollisionWithCushion.
    do 4 decide_border.
    all: rewrite ?sub_Fin; fold e; rewrite ?scaleVelocity_finite.
    all: do 5 eexists; (split; [reflexivity|]); split; nra. }
  destruct Hex as (qx & qy & wx & wy & mv & -> & Hwx & Hwy).
  cbn [_position _velocity _color _visible].
  split; [now exists qx, qy, wx, wy|].
  split; [|now split].
  rewrite !length_V, leb_Fin. apply Rleb_true.
  apply sqrt_le_1_alt. lra.
Qed.

End CushionSpeed.

Lemma cushion_never_speeds_up_witness :
  (Vector2.length
     (_velocity (GameWorld.resolveBallCollisionWithCushion GameConfig
                   (mkBall (V 80 400) (V (-30) 0) white true true)))
   <=? Vector2.length (V (-30) 0))%num = true.
Proof.
  refine (proj1 (proj2 (cushion_never_speeds_up GameConfig 80 400 (-30) 0
                          white true true _))).
  cbn; lra.
Defined.

(** ** The shot *)

Lemma sqrt_polar (p a : R) :
  0 <= p -> sqrt (p * cos a * (p * cos a) + p * sin a * (p * sin a)) = p.
Proof.
  intros Hp.
  replace (p * cos a * (p * cos a) + p * sin a * (p * sin a))
    with (p * p * (Rsqr (sin a) + Rsqr (cos a))) by (unfold Rsqr; ring).
  rewrite sin2_cos2, Rmult_1_r. now apply sqrt_square.
Qed.

(** X6: a shot with a finite power [p > 0] at a finite angle gives the cue ball
    the velocity [(p cos a, p sin a)], whose length is [p], and sets it
    moving; the stick takes the angle and can no longer be moved; no other
    ball, and nothing of the turn or of the players, changes.  A shot whose
    power is not greater than 0 (or is [NaN]) leaves the world as it is. *)
Theorem shootCueBall_speed (cfg : IGameConfig) (w : GameWorld) (p a : R) :
  (_cueBall w < length (store w))%nat ->
  (0 < p ->
   let w' := GameWorld.shootCueBall cfg w (Fin p) (Fin a) in
   let cue := GameWorld.deref w' (_cueBall w) in
   _velocity cue = V (p * cos a) (p * sin a)
   /\ Vector2.length (_velocity cue) = Fin p
   /\ _moving cue = true
   /\ _position cue = _position (GameWorld.deref w (_cueBall w))
   /\ s_rotation (_stick w') = Fin a
   /\ s_movable (_stick w') = false
   /\ (forall r, r <> _cueBall w ->
         GameWorld.deref w' r = GameWorld.deref w r)
   /\ _turnState w' = _turnState w /\ _players w' = _players w
   /\ _balls w' = _balls w)
  /\ (forall power rotation : number,
        (power >? Fin 0)%num = false ->
        GameWorld.shootCueBall cfg w power rotation = w).
Proof.
  intros Hcue. split.
  - intros Hp w' cue. unfold cue, w', GameWorld.shootCueBall.
    rewrite gtb_Fin.
    replace (Rltb 0 p) with true by (symmetry; now apply Rltb_true).
    unfold GameWorld.deref. cbn.
    rewrite list_lookup_total_alter_eq by exact Hcue. cbn.
    rewrite sqrt_polar by lra.
    replace (Rltb (p * cos a * (p * cos a) + p * sin a * (p * sin a)) 0)
      with false by (symmetry; apply Rltb_false; nra).
    repeat split; try reflexivity.
    intros r Hr. now apply list_lookup_total_alter_ne.
  - intros power rotation Hgt. unfold GameWorld.shootCueBall.
    now rewrite Hgt.
Qed.

Lemma shootCueBall_speed_witness :
  Vector2.length
    (_velocity
       (GameWorld.deref
          (GameWorld.shootCueBall GameConfig worldInHand (Fin 10) (Fin 0))
          (_cueBall worldInHand)))
  = Fin 10.
Proof.
  refine (proj1 (proj2 (proj1
            (shootCueBall_speed GameConfig worldInHand 10 0 _) _))).
  - cbn. lia.
  - lra.
Defined.

(** ** Pockets *)

Lemma isInsidePocket_true_iff (cfg : IGameConfig) (a b : R) :
  GameWorld.isInsidePocket cfg (V a b) = true
  <-> exists q, In q (pocketsPositions (table cfg))
        /\ sqrt ((a - fst q) * (a - fst q) + (b - snd q) * (b - snd q))
           <= pocketRadius (table cfg).
Proof.
  unfold GameWorld.isInsidePocket. rewrite existsb_exists.
  split; intros (q & Hin & Hq); exists q; (split; [exact Hin|]);
    unfold toVector2 in *; rewrite distFrom_V, leb_Fin in *;
    now apply Rleb_true.
Qed.

(** X7: a ball at a finite position is pocketed exactly when its center is
    within the pocket radius of some pocket, the radius itself included: it
    is then hidden, stopped and not moving, on the spot where it is.  A ball
    farther than that from every pocket is left as it is. *)
Theorem resolveBallInPocket_boundary (cfg : IGameConfig) (a b : R)
    (v : Vector2) (c : Color) (m vis : bool) :
  let ball := mkBall (V a b) v c m vis in
  let inPocket :=
    exists q, In q (pocketsPositions (table cfg))
      /\ sqrt ((a - fst q) * (a - fst q) + (b - snd q) * (b - snd q))
         <= pocketRadius (table cfg) in
  (inPocket ->
   GameWorld.resolveBallInPocket cfg ball
   = mkBall (V a b) (V 0 0) c false false)
  /\ (~ inPocket -> GameWorld.resolveBallInPocket cfg ball = ball).
Proof.
  intros ball inPocket. unfold GameWorld.resolveBallInPocket, ball.
  change (Ball.position (mkBall (V a b) v c m vis)) with (V a b).
  destruct (GameWorld.isInsidePocket cfg (V a b)) eqn:E.
  - split; [reflexivity|]. intros Hno. exfalso. apply Hno.
    now apply isInsidePocket_true_iff.
  - split; [|reflexivity]. intros Hin.
    apply isInsidePocket_true_iff in Hin. congruence.
Qed.

(** ** Referee: the pocketed balls *)

Lemma everyColor_In (c : Color) (l : list Ball) :
  Referee.everyColor c l = true <-> forall b, In b l -> _color b = c.
Proof.
  unfold Referee.everyColor. rewrite forallb_forall.
  split; intros H b Hb; apply Color_eqb_eq; auto.
Qed.

Lemma isValidPocketedBalls_sound (player : Player) (pocketed : list Ball) :
  color player <> Some white -> color player <> Some black ->
  Referee.isValidPocketedBalls player pocketed = true ->
  (forall b, In b pocketed ->
     _color b <> white
     /\ (_color b = black ->
         matchScore player = 8%Z /\ length pocketed = 1%nat))
  /\ (forall b b', In b pocketed -> In b' pocketed -> _color b = _color b').
Proof.
  intros Hw Hb. unfold Referee.isValidPocketedBalls.
  destruct pocketed as [|b0 rest].
  { intros _. split; [intros b []|intros b b' []]. }
  destruct (color player) as [pc|] eqn:Ec.
  - destruct (Z.eqb_spec (matchScore player) 8) as [E8|N8].
    + destruct rest; [|discriminate]. intros Hc%Color_eqb_eq. split.
      * intros b [<-|[]]. split; [congruence|auto].
      * intros b b' [<-|[]] [<-|[]]. reflexivity.
    + intros Hall. pose proof (proj1 (everyColor_In _ _) Hall) as Hall'; clear Hall; rename Hall' into Hall. split.
      * intros b Hin. rewrite (Hall b Hin). split; congruence.
      * intros b b' Hin Hin'. now rewrite (Hall b Hin), (Hall b' Hin').
  - rewrite !andb_true_iff, !negb_true_iff, !Color_eqb_neq.
    intros [[Hnw Hnb] Hall]. pose proof (proj1 (everyColor_In _ _) Hall) as Hall'; clear Hall; rename Hall' into Hall. split.
    + intros b Hin. rewrite (Hall b Hin). split; [assumption|tauto].
    + intros b b' Hin Hin'. now rewrite (Hall b Hin), (Hall b' Hin').
Qed.

(** X8: a turn the referee accepts touched some ball first, pocketed no white
    ball, pocketed balls of one color only, and pocketed a black ball only as
    the single ball of a player whose match score is 8.  Players' colors are
    red or yellow, which the hypotheses state. *)
Theorem isValidTurn_pocketed_sound (store : list Ball) (player : Player)
    (state : State) :
  color player <> Some white -> color player <> Some black ->
  Referee.isValidTurn store player state = true ->
  firstCollidedBallColor state <> None
  /\ (forall r, In r (pocketedBalls state) ->
        _color (store !!! r) <> white
        /\ (_color (store !!! r) = black ->
            matchScore player = 8%Z /\ pocketedBalls state = [r]))
  /\ (forall r r', In r (pocketedBalls state) ->
        In r' (pocketedBalls state) ->
        _color (store !!! r) = _color (store !!! r')).
Proof.
  intros Hw Hb. unfold Referee.isValidTurn. rewrite andb_true_iff.
  intros [Hft Hpb].
  assert (Hmap : forall r, In r (pocketedBalls state) ->
            In (store !!! r)
              ((fun r : ref => store !!! r) <$> pocketedBalls state)).
  { intros r Hr. apply list_elem_of_In.
    apply (list_elem_of_fmap_2 (fun r : ref => store !!! r)).
    now apply list_elem_of_In. }
  destruct (isValidPocketedBalls_sound _ _ Hw Hb Hpb) as [Hone Hsame].
  split; [|split].
  - destruct (firstCollidedBallColor state); [discriminate|].
    now rewrite isValidFirstTouch_no_collision in Hft.
  - intros r Hr. destruct (Hone _ (Hmap r Hr)) as [Hnw Hbl].
    split; [exact Hnw|]. intros Hblack.
    destruct (Hbl Hblack) as [H8 Hlen]. split; [exact H8|].
    rewrite length_fmap in Hlen.
    destruct (pocketedBalls state) as [|r0 [|r1 l]]; try discriminate Hlen.
    destruct Hr as [->|[]]. reflexivity.
  - intros r r' Hr Hr'. apply Hsame; now apply Hmap.
Qed.

Lemma isValidTurn_pocketed_sound_witness :
  _color ([Ball.new (V 0 0) yellow] !!! 0%nat) <> white.
Proof.
  refine (proj1 (proj1 (proj2
    (isValidTurn_pocketed_sound [Ball.new (V 0 0) yellow]
       (mkPlayer None 0 0) (mkState (Some yellow) [0%nat] false false)
       _ _ _)) 0%nat _)).
  - discriminate.
  - discriminate.
  - reflexivity.
  - now left.
Defined.

(** ** The end of a turn *)

Lemma indexOf_present (l : list ref) (r : ref) :
  List.NoDup l -> In r l ->
  exists i, GameWorld.indexOf l r = Some i
    /\ forall x, In x (delete i l) <-> In x l /\ x <> r.
Proof.
  induction l as [|r' l IH]; intros Hnd Hin; [destruct Hin|].
  apply NoDup_cons_iff in Hnd as [Hnotin Hnd].
  cbn [GameWorld.indexOf]. destruct (Nat.eqb_spec r' r) as [->|Hne].
  - exists 0%nat. split; [reflexivity|]. cbn. intros x. split.
    + intros Hx. split; [now right|]. intros ->. contradiction.
    + intros [[<-|Hx] Hxr]; [congruence|assumption].
  - destruct Hin as [->|Hin]; [congruence|].
    destruct (IH Hnd Hin) as (i & -> & Hi). exists (S i).
    split; [reflexivity|]. intros x. cbn. rewrite Hi. split.
    + intros [<-|[Hx Hxr]]; split; auto.
    + intros [[<-|Hx] Hxr]; auto.
Qed.

Lemma indexOf_missing (l : list ref) (r : ref) :
  ~ In r l -> GameWorld.indexOf l r = None.
Proof.
  induction l as [|r' l IH]; intros Hnot; [reflexivity|].
  cbn [GameWorld.indexOf]. destruct (Nat.eqb_spec r' r) as [->|Hne].
  - exfalso. apply Hnot. now left.
  - rewrite IH; [reflexivity|]. intros Hin. apply Hnot. now right.
Qed.

Lemma spliceIndexOf_sublist (l : list ref) (r : ref) :
  GameWorld.spliceIndexOf l r `sublist_of` l.
Proof.
  unfold GameWorld.spliceIndexOf. destruct (GameWorld.indexOf l r).
  - apply sublist_delete.
  - destruct l as [|a l]; [reflexivity|].
    assert (H : a :: l = removelast (a :: l) ++ [List.last (a :: l) a])
      by (apply app_removelast_last; discriminate).
    rewrite H at 2. now apply sublist_inserts_r.
Qed.

Lemma spliceIndexOf_NoDup (l : list ref) (r : ref) :
  List.NoDup l -> List.NoDup (GameWorld.spliceIndexOf l r).
Proof.
  rewrite <- !NoDup_ListNoDup. intros Hnd.
  exact (sublist_NoDup _ _ Hnd (spliceIndexOf_sublist l r)).
Qed.

Lemma spliceIndexOf_present (l : list ref) (r : ref) :
  List.NoDup l -> In r l ->
  forall x, In x (GameWorld.spliceIndexOf l r) <-> In x l /\ x <> r.
Proof.
  intros Hnd Hin. unfold GameWorld.spliceIndexOf.
  destruct (indexOf_present l r Hnd Hin) as (i & -> & Hi). exact Hi.
Qed.

(** The loop of [concludeTurn] over the pocketed balls changes [_balls]
    only. *)
Lemma concludeTurn_splice_frame (l : list ref) :
  forall w : GameWorld,
  let w1 :=
    fold_left
      (fun acc r =>
         if negb (Color_eqb (_color (GameWorld.deref acc r)) white)
         then GameWorld.with_balls acc
                (GameWorld.spliceIndexOf (_balls acc) r)
         else acc) l w in
  store w1 = store w /\ _stick w1 = _stick w /\ _cueBall w1 = _cueBall w
  /\ _8Ball w1 = _8Ball w /\ _players w1 = _players w
  /\ _currentPlayerIndex w1 = _currentPlayerIndex w
  /\ _turnState w1 = _turnState w.
Proof.
  induction l as [|r l IH]; intros w; [cbn; auto 10|].
  cbn [fold_left].
  destruct (negb (Color_eqb (_color (GameWorld.deref w r)) white)).
  - destruct (IH (GameWorld.with_balls w
                    (GameWorld.spliceIndexOf (_balls w) r)))
      as (H1 & H2 & H3 & H4 & H5 & H6 & H7).
    cbv zeta in *. rewrite H1, H2, H3, H4, H5, H6, H7. cbn. auto 10.
  - apply IH.
Qed.

Lemma concludeTurn_splice_balls (l : list ref) :
  forall w : GameWorld,
  List.NoDup (_balls w) -> List.NoDup l ->
  (forall r, In r l -> In r (_balls w)) ->
  let w1 :=
    fold_left
      (fun acc r =>
         if negb (Color_eqb (_color (GameWorld.deref acc r)) white)
         then GameWorld.with_balls acc
                (GameWorld.spliceIndexOf (_balls acc) r)
         else acc) l w in
  List.NoDup (_balls w1)
  /\ forall x, In x (_balls w1)
       <-> In x (_balls w)
           /\ ~ (In x l /\ _color (GameWorld.deref w x) <> white).
Proof.
  induction l as [|r l IH]; intros w Hnd Hl Hin.
  { cbn. split; [exact Hnd|]. intros x. tauto. }
  apply NoDup_cons_iff in Hl as [Hrl Hl].
  cbn [fold_left].
  destruct (Color_eqb (_color (GameWorld.deref w r)) white) eqn:Ec;
    cbn [negb].
  - apply Color_eqb_eq in Ec.
    destruct (IH w Hnd Hl (fun x Hx => Hin x (or_intror Hx))) as [Hnd1 Hx1].
    split; [exact Hnd1|]. intros x. rewrite (Hx1 x). cbn [In]. split.
    + intros [Hb Hno]. split; [exact Hb|]. intros [[<-|Hxl] Hc]; tauto.
    + intros [Hb Hno]. split; [exact Hb|]. tauto.
  - apply Color_eqb_neq in Ec.
    assert (Hr : In r (_balls w)) by (apply Hin; now left).
    pose proof (spliceIndexOf_present (_balls w) r Hnd Hr) as Hsp.
    set (w0 := GameWorld.with_balls w
                 (GameWorld.spliceIndexOf (_balls w) r)).
    destruct (IH w0) as [Hnd1 Hx1].
    + now apply spliceIndexOf_NoDup.
    + exact Hl.
    + intros x Hx. apply Hsp. split; [apply Hin; now right|].
      intros ->. contradiction.
    + split; [exact Hnd1|]. intros x. rewrite (Hx1 x).
      change (_balls w0) with (GameWorld.spliceIndexOf (_balls w) r).
      change (GameWorld.deref w0 x) with (GameWorld.deref w x).
      rewrite (Hsp x). cbn [In]. split.
      * intros [[Hb Hne] Hno]. split; [exact Hb|].
        intros [[->|Hxl] Hc]; tauto.
      * intros [Hb Hno]. split; [split; [exact Hb|]|].
        -- intros ->. apply Hno. split; [now left|exact Ec].
        -- tauto.
Qed.

(** What [concludeTurn] keeps, relative to the world after its loop. *)
Lemma concludeTurn_shape (w : GameWorld) :
  let w1 :=
    fold_left
      (fun acc r =>
         if negb (Color_eqb (_color (GameWorld.deref acc r)) white)
         then GameWorld.with_balls acc
                (GameWorld.spliceIndexOf (_balls acc) r)
         else acc) (pocketedBalls (_turnState w)) w in
  let w' := GameWorld.concludeTurn w in
  store w' = store w /\ _balls w' = _balls w1 /\ _stick w' = _stick w
  /\ _cueBall w' = _cueBall w /\ _8Ball w' = _8Ball w
  /\ _currentPlayerIndex w' = _currentPlayerIndex w
  /\ firstCollidedBallColor (_turnState w')
     = firstCollidedBallColor (_turnState w)
  /\ pocketedBalls (_turnState w') = pocketedBalls (_turnState w)
  /\ ballInHand (_turnState w') = ballInHand (_turnState w)
  /\ length (_players w') = length (_players w).
Proof.
  intros w1 w'.
  destruct (concludeTurn_splice_frame (pocketedBalls (_turnState w)) w)
    as (H1 & H2 & H3 & H4 & H5 & H6 & H7).
  fold w1 in H1, H2, H3, H4, H5, H6, H7.
  unfold w', GameWorld.concludeTurn. fold w1.
  destruct (color (GameWorld.currentPlayer w1));
    destruct (color (GameWorld.nextPlayer _));
    cbn; rewrite ?length_alter, H1, H2, H3, H4, H5, H6, H7; auto 12.
Qed.

(** X9: at the end of a turn exactly the pocketed balls that are not white leave
    [_balls], which stays free of duplicates; the ball objects, the cue ball,
    the 8-ball, the stick, the player to move and the record of the turn
    (the verdict apart) are untouched.  The preconditions are those that
    [handleBallsInPockets] maintains: no ball is listed twice, and every
    pocketed ball was on the table. *)
Theorem concludeTurn_removes_pocketed (w : GameWorld) :
  List.NoDup (_balls w) ->
  List.NoDup (pocketedBalls (_turnState w)) ->
  (forall r, In r (pocketedBalls (_turnState w)) -> In r (_balls w)) ->
  let w' := GameWorld.concludeTurn w in
  (forall x, In x (_balls w')
     <-> In x (_balls w)
         /\ ~ (In x (pocketedBalls (_turnState w))
               /\ _color (GameWorld.deref w x) <> white))
  /\ List.NoDup (_balls w')
  /\ store w' = store w /\ _stick w' = _stick w
  /\ _cueBall w' = _cueBall w /\ _8Ball w' = _8Ball w
  /\ _currentPlayerIndex w' = _currentPlayerIndex w
  /\ pocketedBalls (_turnState w') = pocketedBalls (_turnState w)
  /\ firstCollidedBallColor (_turnState w')
     = firstCollidedBallColor (_turnState w)
  /\ ballInHand (_turnState w') = ballInHand (_turnState w).
Proof.
  intros Hnd Hp Hin w'.
  destruct (concludeTurn_shape w)
    as (H1 & H2 & H3 & H4 & H5 & H6 & H7 & H8 & H9 & _).
  destruct (concludeTurn_splice_balls _ w Hnd Hp Hin) as [Hnd1 Hx].
  fold w' in H1, H2, H3, H4, H5, H6, H7, H8, H9.
  cbv zeta in H2. rewrite <- H2 in Hnd1, Hx.
  repeat split; try assumption; apply Hx; assumption.
Qed.

Lemma concludeTurn_removes_pocketed_witness :
  List.NoDup (_balls (GameWorld.concludeTurn worldBothPocketed)).
Proof.
  refine (proj1 (proj2
            (concludeTurn_removes_pocketed worldBothPocketed _ _ _))).
  - cbn. repeat constructor; cbn; intuition lia.
  - cbn. repeat constructor; cbn; intuition lia.
  - cbn. intuition lia.
Defined.

(** X10: [splice(indexOf(ball), 1)] with a ball that is not in the array removes
    the last element: a single pocketed ball that is not white and not on
    the table makes [concludeTurn] drop the last ball of [_balls]. *)
Theorem concludeTurn_absent_ball_drops_last (w : GameWorld) (r : ref) :
  pocketedBalls (_turnState w) = [r] ->
  _color (GameWorld.deref w r) <> white ->
  ~ In r (_balls w) ->
  _balls (GameWorld.concludeTurn w) = removelast (_balls w).
Proof.
  intros Hp Hc Hnot.
  destruct (concludeTurn_shape w) as (_ & H2 & _).
  cbv zeta in H2. rewrite H2, Hp. cbn [fold_left].
  apply Color_eqb_neq in Hc. rewrite Hc. cbn.
  unfold GameWorld.spliceIndexOf. now rewrite indexOf_missing.
Qed.

Lemma concludeTurn_absent_ball_drops_last_witness :
  let w := GameWorld.with_turnState
             (GameWorld.with_balls worldBothPocketed [1%nat; 2%nat; 3%nat])
             (mkState (Some yellow) [0%nat] false false) in
  _balls (GameWorld.concludeTurn w) = removelast (_balls w).
Proof.
  refine (concludeTurn_absent_ball_drops_last _ 0%nat _ _ _).
  - reflexivity.
  - cbn. discriminate.
  - cbn. intuition lia.
Defined.

Lemma getBallsByColor_ext (w w' : GameWorld) (c : Color) :
  store w' = store w -> _balls w' = _balls w ->
  GameWorld.getBallsByColor w' c = GameWorld.getBallsByColor w c.
Proof.
  unfold GameWorld.getBallsByColor, GameWorld.deref. now intros -> ->.
Qed.

Lemma concludeTurn_players (w : GameWorld) :
  (_currentPlayerIndex w < length (_players w))%nat ->
  let w' := GameWorld.concludeTurn w in
  let score (c : Color) : Z :=
    (8 - Z.of_nat (length (GameWorld.getBallsByColor w' c))
       - Z.of_nat (length (GameWorld.getBallsByColor w' black)))%Z in
  forall i,
    _players w' !!! i
    = match color (_players w !!! i) with
      | Some c =>
          if decide (i = _currentPlayerIndex w
                     \/ i = GameWorld.nextPlayerIndex w)
          then GameWorld.set_matchScore (_players w !!! i) (score c)
          else _players w !!! i
      | None => _players w !!! i
      end.
Proof.
  intros Hcur w' score i.
  destruct (concludeTurn_splice_frame (pocketedBalls (_turnState w)) w)
    as (H1 & H2 & H3 & H4 & H5 & H6 & H7).
  destruct (concludeTurn_shape w) as (G1 & G2 & _).
  fold w' in G1, G2. cbv zeta in G2.
  set (w1 := fold_left _ (pocketedBalls (_turnState w)) w) in *.
  assert (Hscore : forall c,
    score c
    = (8 - Z.of_nat (length (GameWorld.getBallsByColor w1 c))
         - Z.of_nat (length (GameWorld.getBallsByColor w1 black)))%Z).
  { intros c. unfold score.
    rewrite !(getBallsByColor_ext w1 w') by congruence. reflexivity. }
  assert (HscoreG : forall w2 c,
    store w2 = store w1 -> _balls w2 = _balls w1 ->
    (8 - Z.of_nat (length (GameWorld.getBallsByColor w2 c))
       - Z.of_nat (length (GameWorld.getBallsByColor w2 black)))%Z
    = score c).
  { intros w2 c Hs Hb. rewrite Hscore.
    now rewrite !(getBallsByColor_ext w1 w2). }
  clearbody score. clear G1 G2 Hscore.
  unfold w', GameWorld.concludeTurn. fold w1. clear w'. clearbody w1.
  assert (Hnext : (GameWorld.nextPlayerIndex w < length (_players w))%nat).
  { unfold GameWorld.nextPlayerIndex. apply Nat.mod_upper_bound. lia. }
  cbv zeta.
  unfold GameWorld.currentPlayer, GameWorld.nextPlayer,
    GameWorld.nextPlayerIndex in *.
  destruct w1 as [s1 st1 c1 e1 b1 P1 a1 t1].
  cbn [store _stick _cueBall _8Ball _balls _players _currentPlayerIndex
         _turnState] in *.
  subst P1 a1.
  assert (Hset : forall (p : Player) (n m : Z),
            GameWorld.set_matchScore (GameWorld.set_matchScore p n) m
            = GameWorld.set_matchScore p m) by reflexivity.
  destruct (color (_players w !!! _currentPlayerIndex w)) as [ca|] eqn:Ea;
    cbn [_players _currentPlayerIndex GameWorld.with_players
           GameWorld.with_turnState];
    rewrite ?length_alter.
  - rewrite (list_lookup_total_alter _ _ _ ((_ + 1) mod _)%nat).
    case_decide as Hd.
    + destruct Hd as [Hab _]. cbn [color GameWorld.set_matchScore].
      rewrite Ea.
      cbn [_players _currentPlayerIndex GameWorld.with_players
             GameWorld.with_turnState].
      rewrite <- Hab, !list_lookup_total_alter, ?length_alter. cbv beta.
      rewrite ?list_lookup_total_alter, ?HscoreG by reflexivity.
      repeat case_decide;
        repeat match goal with
               | H : context [length (alter _ _ _)] |- _ =>
                   rewrite length_alter in H
               end;
        try (exfalso; intuition lia);
        repeat match goal with H : _ /\ _ |- _ => destruct H end;
        subst; rewrite ?Ea, ?Hset; try reflexivity;
        try (exfalso; intuition lia).
      all: destruct (color (_players w !!! i)) eqn:Ei; try reflexivity;
        exfalso;
        match goal with H : _ \/ _ |- _ => destruct H as [->| ->] end;
        first [congruence | intuition lia].
    + destruct (color (_players w
                 !!! ((_currentPlayerIndex w + 1)
                      mod length (_players w))%nat)) as [cb|] eqn:Eb;
        cbn [_players _currentPlayerIndex GameWorld.with_players
               GameWorld.with_turnState];
        rewrite ?length_alter, !list_lookup_total_alter; cbv beta;
        rewrite ?list_lookup_total_alter, ?HscoreG by reflexivity;
        repeat case_decide;
        repeat match goal with
               | H : context [length (alter _ _ _)] |- _ =>
                   rewrite length_alter in H
               end;
        try (exfalso; intuition lia);
        repeat match goal with H : _ /\ _ |- _ => destruct H end;
        subst; rewrite ?Ea, ?Eb, ?Hset; try reflexivity;
        try (exfalso; intuition lia);
        destruct (color (_players w !!! i)) eqn:Ei; try reflexivity;
        exfalso;
        match goal with H : _ \/ _ |- _ => destruct H as [->| ->] end;
        first [congruence | intuition lia].
  - destruct (color (_players w
                 !!! ((_currentPlayerIndex w + 1)
                      mod length (_players w))%nat)) as [cb|] eqn:Eb;
      cbn [_players _currentPlayerIndex GameWorld.with_players
             GameWorld.with_turnState];
      rewrite ?list_lookup_total_alter; cbv beta;
      rewrite ?HscoreG by reflexivity.
    + repeat case_decide;
        repeat match goal with
               | H : context [length (alter _ _ _)] |- _ =>
                   rewrite length_alter in H
               end;
        try (exfalso; intuition lia);
        repeat match goal with H : _ /\ _ |- _ => destruct H end;
        subst; rewrite ?Ea, ?Eb, ?Hset; try reflexivity;
        try (exfalso; intuition lia).
      all: destruct (color (_players w !!! i)) eqn:Ei; try reflexivity;
        exfalso;
        match goal with H : _ \/ _ |- _ => destruct H as [->| ->] end;
        first [congruence | intuition lia].
    + destruct (color (_players w !!! i)) eqn:Ei; [|reflexivity].
      case_decide as Hd; [|reflexivity].
      destruct Hd as [->| ->]; congruence.
Qed.

Lemma concludeTurn_verdict (w : GameWorld) :
  let w' := GameWorld.concludeTurn w in
  isValid (_turnState w')
  = Referee.isValidTurn (store w) (GameWorld.currentPlayer w') (_turnState w).
Proof.
  destruct (concludeTurn_splice_frame (pocketedBalls (_turnState w)) w)
    as (H1 & _ & _ & _ & _ & _ & H7).
  cbv zeta in *. unfold GameWorld.concludeTurn.
  set (w1 := fold_left _ (pocketedBalls (_turnState w)) w) in *.
  destruct (color (GameWorld.currentPlayer w1));
    destruct (color (GameWorld.nextPlayer _));
    cbn [_turnState isValid GameWorld.with_turnState GameWorld.set_isValid
           store GameWorld.with_players];
    rewrite H1; unfold Referee.isValidTurn; cbn [firstCollidedBallColor
      pocketedBalls GameWorld.set_isValid]; rewrite H7; reflexivity.
Qed.

(** X11: after [concludeTurn] a player with a color has the match score
    8 - (balls of that color left on the table) - (black balls left), counted
    after the pocketed balls were removed; a player without a color is left
    as it is; colors and overall scores are kept; and the verdict on the turn
    is the referee's for the player with the new score. *)
Theorem concludeTurn_scores (w : GameWorld) :
  (_currentPlayerIndex w < length (_players w))%nat ->
  let w' := GameWorld.concludeTurn w in
  (forall i c,
     i = _currentPlayerIndex w \/ i = GameWorld.nextPlayerIndex w ->
     color (_players w !!! i) = Some c ->
     matchScore (_players w' !!! i)
     = (8 - Z.of_nat (length (GameWorld.getBallsByColor w' c))
          - Z.of_nat (length (GameWorld.getBallsByColor w' black)))%Z)
  /\ (forall i,
        color (_players w' !!! i) = color (_players w !!! i)
        /\ overallScore (_players w' !!! i) = overallScore (_players w !!! i))
  /\ (forall i, color (_players w !!! i) = None ->
        _players w' !!! i = _players w !!! i)
  /\ isValid (_turnState w')
     = Referee.isValidTurn (store w) (GameWorld.currentPlayer w')
         (_turnState w).
Proof.
  intros Hcur w'.
  pose proof (concludeTurn_players w Hcur) as Hp. cbv zeta in Hp. fold w' in Hp.
  split; [|split; [|split]].
  - intros i c Hi Hc. rewrite (Hp i), Hc.
    case_decide; [reflexivity|contradiction].
  - intros i. rewrite (Hp i).
    destruct (color (_players w !!! i)) eqn:Ec; [|now rewrite Ec].
    case_decide; cbn; now rewrite ?Ec.
  - intros i Hc. now rewrite (Hp i), Hc.
  - apply concludeTurn_verdict.
Qed.

Lemma concludeTurn_scores_witness :
  color (_players (GameWorld.concludeTurn worldBothPocketed) !!! 0%nat)
  = color (_players worldBothPocketed !!! 0%nat)
  /\ overallScore (_players (GameWorld.concludeTurn worldBothPocketed)
                     !!! 0%nat)
     = overallScore (_players worldBothPocketed !!! 0%nat).
Proof.
  refine (proj1 (proj2 (concludeTurn_scores worldBothPocketed _)) 0%nat).
  cbn. lia.
Defined.

(** ** A scratch *)




(** ** The end of a match *)

(** X13: when the game is over, [nextTurn] awards exactly one overall point, to
    the player to move if the turn was valid and to the next player
    otherwise, and starts a new match in which every player has no color and
    the match score 0. *)
Theorem nextTurn_game_over_awards_one_point (cfg : IGameConfig) (env : Env)
    (w : GameWorld) :
  GameWorld.isGameOver w = true ->
  (_currentPlayerIndex w < length (_players w))%nat ->
  let w' := fst (GameWorld.nextTurn cfg env w) in
  let winner :=
    if isValid (_turnState w) then _currentPlayerIndex w
    else GameWorld.nextPlayerIndex w in
  length (_players w') = length (_players w)
  /\ forall i, (i < length (_players w))%nat ->
       overallScore (_players w' !!! i)
       = (overallScore (_players w !!! i)
          + (if Nat.eqb i winner then 1 else 0))%Z
       /\ color (_players w' !!! i) = None
       /\ matchScore (_players w' !!! i) = 0%Z.
Proof.
  intros Hover Hcur w' winner.
  assert (Hnext : (GameWorld.nextPlayerIndex w < length (_players w))%nat).
  { unfold GameWorld.nextPlayerIndex. apply Nat.mod_upper_bound. lia. }
  assert (Hw : (winner < length (_players w))%nat).
  { unfold winner. now destruct (isValid (_turnState w)). }
  assert (Hp : _players w'
    = (fun p => GameWorld.set_color (GameWorld.set_matchScore p 0) None)
      <$> alter (fun p => GameWorld.set_overallScore p (overallScore p + 1)%Z)
            winner (_players w)).
  { unfold w', winner, GameWorld.nextTurn. rewrite Hover.
    unfold GameWorld.handleGameOver.
    now destruct (isValid (_turnState w)). }
  rewrite Hp, length_fmap, length_alter. split; [reflexivity|].
  intros i Hi.
  rewrite (@list_lookup_total_fmap _ _ _ Player_inhabited Player_inhabited)
    by (now rewrite length_alter).
  rewrite list_lookup_total_alter.
  destruct (Nat.eqb_spec i winner) as [->|Hne].
  - case_decide as Hd; [|exfalso; apply Hd; now split].
    cbn. repeat split.
  - case_decide as Hd; [destruct Hd; congruence|].
    cbn. repeat split. lia.
Qed.

Lemma nextTurn_game_over_awards_one_point_witness :
  length (_players (fst (GameWorld.nextTurn GameConfig (env_pressed_at 0 0)
                           worldBlackPocketedOnFoul)))
  = length (_players worldBlackPocketedOnFoul).
Proof.
  refine (proj1 (nextTurn_game_over_awards_one_point GameConfig
                   (env_pressed_at 0 0) worldBlackPocketedOnFoul _ _)).
  - reflexivity.
  - cbn. lia.
Defined.

(** ** The table through a frame *)

Lemma sameTable_refl (w : GameWorld) : sameTable w w.
Proof. unfold sameTable. auto 10. Qed.

Lemma sameTable_trans (w1 w2 w3 : GameWorld) :
  sameTable w1 w2 -> sameTable w2 w3 -> sameTable w1 w3.
Proof.
  intros (A1 & A2 & A3 & A4 & A5 & A6 & A7 & A8)
         (B1 & B2 & B3 & B4 & B5 & B6 & B7 & B8).
  unfold sameTable.
  rewrite B1, B2, B3, B4, B6, B7, B8, A1, A2, A3, A4, A6, A7, A8.
  repeat split; try reflexivity.
  - now rewrite (proj1 (B5 r)), (proj1 (A5 r)).
  - now rewrite (proj2 (B5 r)), (proj2 (A5 r)).
Qed.

(** An update of one ball that keeps color and visibility keeps the
    table. *)
Lemma modify_sameTable (f : Ball -> Ball) (r : ref) (w : GameWorld) :
  (forall b, _color (f b) = _color b) ->
  (forall b, _visible (f b) = _visible b) ->
  sameTable w (GameWorld.modify f r w).
Proof.
  intros Hc Hv. unfold sameTable.
  cbn [GameWorld.modify GameWorld.with_store _balls _cueBall _8Ball store
         _turnState _currentPlayerIndex _players].
  rewrite length_alter. repeat split; try reflexivity.
  - now apply (deref_modify_field _color).
  - now apply (deref_modify_field _visible).
Qed.

Lemma with_stick_sameTable (w : GameWorld) (s : Stick) :
  sameTable w (GameWorld.with_stick w s).
Proof. unfold sameTable. cbn. auto 10. Qed.

Lemma wellFormed_sameTable (w w' : GameWorld) :
  wellFormed w -> sameTable w w' -> wellFormed w'.
Proof.
  intros (W1 & W2 & W3 & W4 & W5 & W6 & W7 & W8 & W9)
         (A1 & A2 & A3 & A4 & A5 & A6 & A7 & A8).
  unfold wellFormed.
  rewrite A1, A2, A3, A4, A6, A7, A8, (proj1 (A5 _)), (proj1 (A5 _)).
  repeat split; try assumption.
  - now apply W9.
  - rewrite (proj2 (A5 _)). now apply W9.
Qed.

Lemma fold_modify_sameTable (f : Ball -> Ball) (l : list ref) :
  (forall b, _color (f b) = _color b) ->
  (forall b, _visible (f b) = _visible b) ->
  forall w : GameWorld,
    sameTable w (fold_left (fun acc r => GameWorld.modify f r acc) l w).
Proof.
  intros Hc Hv. induction l as [|r l IH]; intros w; [apply sameTable_refl|].
  cbn [fold_left].
  exact (sameTable_trans _ _ _ (modify_sameTable f r w Hc Hv) (IH _)).
Qed.

Lemma Ball_update_fields (cfg : IGameConfig) (b : Ball) :
  _color (Ball.update cfg b) = _color b
  /\ _visible (Ball.update cfg b) = _visible b.
Proof.
  unfold Ball.update. destruct (_moving b); [|split; reflexivity].
  cbv zeta. destruct (_ <? _)%num; split; reflexivity.
Qed.

Section Frames.
Variable cfg : IGameConfig.

Lemma resolveBallCollisionWithCushion_fields (b : Ball) :
  _color (GameWorld.resolveBallCollisionWithCushion cfg b) = _color b
  /\ _visible (GameWorld.resolveBallCollisionWithCushion cfg b) = _visible b.
Proof.
  unfold GameWorld.resolveBallCollisionWithCushion.
  destruct (GameWorld.isBallPosOutsideTopBorder cfg _);
    destruct (GameWorld.isBallPosOutsideLeftBorder cfg _);
    destruct (GameWorld.isBallPosOutsideRightBorder cfg _);
    destruct (GameWorld.isBallPosOutsideBottomBorder cfg _);
    split; reflexivity.
Qed.

Lemma resolveBallsCollision_fields (first second : Ball) :
  let '(first', second', _) :=
    GameWorld.resolveBallsCollision cfg first second in
  (_color first' = _color first /\ _visible first' = _visible first)
  /\ (_color second' = _color second /\ _visible second' = _visible second).
Proof.
  unfold GameWorld.resolveBallsCollision.
  destruct (negb (_visible first) || negb (_visible second)); [easy|].
  cbv zeta. destruct (_ >? _)%num; [easy|].
  repeat split.
Qed.

Lemma collidePair_sameTable (i j : ref) (w : GameWorld) :
  sameTable w (GameWorld.collidePair cfg i j w)
  /\ forall c, firstCollidedBallColor (_turnState w) = Some c ->
       firstCollidedBallColor
         (_turnState (GameWorld.collidePair cfg i j w)) = Some c.
Proof.
  unfold GameWorld.collidePair.
  pose proof (resolveBallsCollision_fields (GameWorld.deref w i)
                (GameWorld.deref w j)) as Hf.
  destruct (GameWorld.resolveBallsCollision cfg (GameWorld.deref w i)
              (GameWorld.deref w j)) as [[first' second'] collided].
  destruct Hf as [[Hc1 Hv1] [Hc2 Hv2]].
  set (w1 := GameWorld.with_store w
               (<[j:=second']> (<[i:=first']> (store w)))).
  assert (H1 : sameTable w w1).
  { unfold sameTable, w1, GameWorld.deref.
    cbn [GameWorld.with_store _balls _cueBall _8Ball store _turnState
           _currentPlayerIndex _players].
    rewrite !length_insert. repeat split; try reflexivity.
    - rewrite !list_lookup_total_insert, length_insert.
      repeat case_decide;
        repeat match goal with H : _ /\ _ |- _ => destruct H end;
        subst; auto.
    - rewrite !list_lookup_total_insert, length_insert.
      repeat case_decide;
        repeat match goal with H : _ /\ _ |- _ => destruct H end;
        subst; auto. }
  destruct collided; [|split; [exact H1|auto]].
  change (_turnState w1) with (_turnState w).
  destruct (firstCollidedBallColor (_turnState w)) eqn:Ef.
  - split; [exact H1|]. intros c' Hc'. cbn. congruence.
  - split; [|discriminate].
    destruct H1 as (A1 & A2 & A3 & A4 & A5 & A6 & A7 & A8).
    unfold sameTable. cbn. auto 10.
Qed.

Lemma collidePairs_sameTable (i : ref) (l : list ref) :
  forall w : GameWorld,
  let w' := fold_left (fun acc j => GameWorld.collidePair cfg i j acc) l w in
  sameTable w w'
  /\ forall c, firstCollidedBallColor (_turnState w) = Some c ->
       firstCollidedBallColor (_turnState w') = Some c.
Proof.
  induction l as [|j l IH]; intros w.
  { split; [apply sameTable_refl|auto]. }
  cbn [fold_left]. cbv zeta.
  destruct (collidePair_sameTable i j w) as [H1 H2].
  destruct (IH (GameWorld.collidePair cfg i j w)) as [H3 H4].
  split; [exact (sameTable_trans _ _ _ H1 H3)|].
  intros c Hc. apply H4, H2, Hc.
Qed.

Lemma handleCollisionsFrom_sameTable (l : list ref) :
  forall w : GameWorld,
  let w' := GameWorld.handleCollisionsFrom cfg l w in
  sameTable w w'
  /\ forall c, firstCollidedBallColor (_turnState w) = Some c ->
       firstCollidedBallColor (_turnState w') = Some c.
Proof.
  induction l as [|i l IH]; intros w.
  { split; [apply sameTable_refl|auto]. }
  cbn [GameWorld.handleCollisionsFrom]. cbv zeta.
  set (w1 := GameWorld.modify
               (GameWorld.resolveBallCollisionWithCushion cfg) i w).
  assert (H1 : sameTable w w1).
  { apply modify_sameTable; intros b;
      apply resolveBallCollisionWithCushion_fields. }
  destruct (collidePairs_sameTable i l w1) as [H2 H3].
  destruct (IH (fold_left
                  (fun acc j => GameWorld.collidePair cfg i j acc) l w1))
    as [H4 H5].
  split.
  - exact (sameTable_trans _ _ _ H1 (sameTable_trans _ _ _ H2 H4)).
  - intros c Hc. apply H5, H3. exact Hc.
Qed.

End Frames.

(** X14: collision handling leaves the table as it is: the same balls in the
    same roles, of the same colors and as visible as before, the same
    pocketed balls and player to move; and a first touch that is already
    recorded for the turn is never overwritten. *)
Theorem handleCollisions_keeps_table (cfg : IGameConfig) (w : GameWorld) :
  let w' := GameWorld.handleCollisions cfg w in
  sameTable w w'
  /\ forall c, firstCollidedBallColor (_turnState w) = Some c ->
       firstCollidedBallColor (_turnState w') = Some c.
Proof. apply handleCollisionsFrom_sameTable. Qed.

(** ** Pocketed balls through a frame *)

Lemma includes_In (l : list ref) (r : ref) :
  GameWorld.includes l r = true <-> In r l.
Proof.
  unfold GameWorld.includes. rewrite existsb_exists. split.
  - intros (x & Hx & He). apply Nat.eqb_eq in He. now subst.
  - intros Hin. exists r. split; [exact Hin|apply Nat.eqb_refl].
Qed.

Lemma NoDup_snoc (l : list ref) (r : ref) :
  List.NoDup l -> ~ In r l -> List.NoDup (l ++ [r]).
Proof.
  induction l as [|a l IH]; intros Hnd Hnot.
  - cbn. constructor; [intros []|constructor].
  - apply NoDup_cons_iff in Hnd as [Ha Hnd]. cbn. constructor.
    + rewrite in_app_iff. cbn. intros [H|[->|[]]]; [contradiction|].
      apply Hnot. now left.
    + apply IH; [exact Hnd|]. intros H. apply Hnot. now right.
Qed.

Section PocketInvariant.
Variable cfg : IGameConfig.

Lemma resolveBallInPocket_hidden (b : Ball) :
  _visible b = false ->
  _visible (GameWorld.resolveBallInPocket cfg b) = false.
Proof.
  intros Hv. unfold GameWorld.resolveBallInPocket.
  now destruct (GameWorld.isInsidePocket cfg (Ball.position b)).
Qed.

Lemma handleBallInPocket_step (w : GameWorld) (r : ref) :
  let w1 := GameWorld.handleBallInPocket cfg w r in
  (forall r', _visible (GameWorld.deref w r') = false ->
              _visible (GameWorld.deref w1 r') = false)
  /\ (forall r', _color (GameWorld.deref w1 r')
                 = _color (GameWorld.deref w r'))
  /\ length (store w1) = length (store w)
  /\ _cueBall w1 = _cueBall w /\ _8Ball w1 = _8Ball w
  /\ ((pocketedBalls (_turnState w1) = pocketedBalls (_turnState w)
       /\ (_visible (GameWorld.deref w1 r) = false ->
           In r (pocketedBalls (_turnState w))))
      \/ (pocketedBalls (_turnState w1) = pocketedBalls (_turnState w) ++ [r]
          /\ ~ In r (pocketedBalls (_turnState w))
          /\ _visible (GameWorld.deref w1 r) = false)).
Proof.
  intros w1.
  destruct (handleBallInPocket_frame cfg w r) as (_ & _ & _ & Hs & _).
  fold w1 in Hs.
  assert (Hd : forall r', GameWorld.deref w1 r'
    = GameWorld.deref (GameWorld.modify (GameWorld.resolveBallInPocket cfg)
                         r w) r').
  { intros r'. unfold GameWorld.deref. now rewrite Hs. }
  split; [|split; [|split; [|split; [|split]]]].
  - intros r' Hv. rewrite Hd.
    unfold GameWorld.deref, GameWorld.modify. cbn [store GameWorld.with_store].
    rewrite list_lookup_total_alter. case_decide as Hc; [|exact Hv].
    destruct Hc as [-> _]. now apply resolveBallInPocket_hidden.
  - intros r'. rewrite Hd. apply (deref_modify_field _color).
    apply resolveBallInPocket_color.
  - now rewrite Hs, length_alter.
  - unfold w1, GameWorld.handleBallInPocket.
    destruct (negb _ && negb _); [|reflexivity].
    destruct (color _); [reflexivity|].
    now destruct (GameWorld.isValidPlayerColor _).
  - unfold w1, GameWorld.handleBallInPocket.
    destruct (negb _ && negb _); [|reflexivity].
    destruct (color _); [reflexivity|].
    now destruct (GameWorld.isValidPlayerColor _).
  - rewrite (Hd r). unfold w1, GameWorld.handleBallInPocket.
    set (wm := GameWorld.modify (GameWorld.resolveBallInPocket cfg) r w).
    change (pocketedBalls (_turnState wm))
      with (pocketedBalls (_turnState w)).
    destruct (_visible (GameWorld.deref wm r)) eqn:Ev; cbn [negb andb].
    { left. split; [reflexivity|]. intros H. discriminate H. }
    destruct (GameWorld.includes (pocketedBalls (_turnState w)) r) eqn:Ei;
      cbn [negb].
    { left. split; [reflexivity|]. intros _. now apply includes_In. }
    right. split; [|split; [|reflexivity]].
    + destruct (color _); [reflexivity|].
      now destruct (GameWorld.isValidPlayerColor _).
    + rewrite <- includes_In. congruence.
Qed.

Lemma handleBallsInPockets_fold_inv (l : list ref) :
  forall w : GameWorld,
  List.NoDup (pocketedBalls (_turnState w)) ->
  (forall r, In r (pocketedBalls (_turnState w)) ->
     _visible (GameWorld.deref w r) = false) ->
  let w' := fold_left (GameWorld.handleBallInPocket cfg) l w in
  List.NoDup (pocketedBalls (_turnState w'))
  /\ (forall r, In r (pocketedBalls (_turnState w')) ->
        _visible (GameWorld.deref w' r) = false)
  /\ (forall r, In r (pocketedBalls (_turnState w')) ->
        In r (pocketedBalls (_turnState w)) \/ In r l)
  /\ (forall r, In r l -> _visible (GameWorld.deref w' r) = false ->
        In r (pocketedBalls (_turnState w')))
  /\ (forall r, In r (pocketedBalls (_turnState w)) ->
        In r (pocketedBalls (_turnState w')))
  /\ (forall r, ~ In r l -> GameWorld.deref w' r = GameWorld.deref w r)
  /\ (forall r, _color (GameWorld.deref w' r) = _color (GameWorld.deref w r))
  /\ length (store w') = length (store w)
  /\ _balls w' = _balls w /\ _cueBall w' = _cueBall w
  /\ _8Ball w' = _8Ball w
  /\ _currentPlayerIndex w' = _currentPlayerIndex w
  /\ length (_players w') = length (_players w).
Proof.
  induction l as [|r l IH]; intros w Hnd Hhid.
  { cbn. repeat split; intros; auto; contradiction. }
  cbn [fold_left]. cbv zeta.
  destruct (handleBallInPocket_step w r) as (S1 & S2 & S3 & S4 & S5 & S6).
  destruct (handleBallInPocket_frame cfg w r) as (F1 & F2 & F3 & _ & _).
  cbv zeta in *.
  set (w1 := GameWorld.handleBallInPocket cfg w r) in *.
  assert (Hnd1 : List.NoDup (pocketedBalls (_turnState w1))).
  { destruct S6 as [[-> _]|(-> & Hnot & _)]; [exact Hnd|].
    now apply NoDup_snoc. }
  assert (Hhid1 : forall x, In x (pocketedBalls (_turnState w1)) ->
            _visible (GameWorld.deref w1 x) = false).
  { intros x Hx. destruct S6 as [[E _]|(E & _ & Hv)]; rewrite E in Hx.
    - apply S1, Hhid, Hx.
    - apply in_app_iff in Hx as [Hx|[<-|[]]]; [apply S1, Hhid, Hx|exact Hv]. }
  assert (Hsub : forall x, In x (pocketedBalls (_turnState w)) ->
            In x (pocketedBalls (_turnState w1))).
  { intros x Hx. destruct S6 as [[-> _]|(-> & _)]; [exact Hx|].
    apply in_app_iff. now left. }
  destruct (IH w1 Hnd1 Hhid1)
    as (I1 & I2 & I3 & I4 & I5 & I6 & I7 & I8 & I9 & I10 & I11 & I12 & I13).
  split; [exact I1|]. split; [exact I2|].
  split; [|split; [|split; [|split; [|split]]]].
  - intros x Hx. destruct (I3 x Hx) as [H1|H1]; [|right; now right].
    destruct S6 as [[E _]|(E & _)]; rewrite E in H1; [now left|].
    apply in_app_iff in H1 as [H1|[<-|[]]]; [now left|right; now left].
  - intros x Hx Hv. destruct (in_dec Nat.eq_dec x l) as [Hl|Hl].
    { now apply I4. }
    destruct Hx as [<-|Hx]; [|contradiction].
    rewrite (I6 r Hl) in Hv. apply I5.
    destruct S6 as [[E Hin]|(E & _)]; rewrite E.
    + now apply Hin.
    + apply in_app_iff. right. now left.
  - intros x Hx. apply I5, Hsub, Hx.
  - intros x Hx. rewrite I6 by (intros H; apply Hx; now right).
    apply (handleBallInPocket_others cfg w r x).
    intros ->. apply Hx. now left.
  - intros x. now rewrite I7, S2.
  - repeat split; congruence.
Qed.

End PocketInvariant.

Lemma worldTwoColorsPocketed_wellFormed : wellFormed worldTwoColorsPocketed.
Proof.
  unfold wellFormed. cbn.
  repeat split; try lia; try (repeat constructor; cbn; intuition lia);
    intuition lia.
Qed.

Lemma handleBallsInPockets_wellFormed (cfg : IGameConfig) (w : GameWorld) :
  wellFormed w -> wellFormed (GameWorld.handleBallsInPockets cfg w).
Proof.
  intros (W1 & W2 & W3 & W4 & W5 & W6 & W7 & W8 & W9).
  destruct (handleBallsInPockets_fold_inv cfg (_balls w) w W8
              (fun r Hr => proj2 (W9 r Hr)))
    as (I1 & I2 & I3 & I4 & I5 & I6 & I7 & I8 & I9 & I10 & I11 & I12 & I13).
  cbv zeta in *. fold (GameWorld.handleBallsInPockets cfg w) in *.
  unfold wellFormed. rewrite I9, I8, I10, I11, I12, I13, !I7.
  repeat split; auto.
  destruct (I3 r H) as [H'|H']; [apply W9, H'|exact H'].
Qed.

(** X15: [handleBallsInPockets] keeps a world well formed, and afterwards a ball
    of the table is hidden exactly when it is recorded as pocketed in the
    turn; what was recorded before stays recorded. *)
Theorem handleBallsInPockets_invariant (cfg : IGameConfig) (w : GameWorld) :
  wellFormed w ->
  let w' := GameWorld.handleBallsInPockets cfg w in
  wellFormed w'
  /\ (forall r, In r (_balls w') ->
        (_visible (GameWorld.deref w' r) = false
         <-> In r (pocketedBalls (_turnState w'))))
  /\ (forall r, In r (pocketedBalls (_turnState w)) ->
        In r (pocketedBalls (_turnState w'))).
Proof.
  intros Hwf w'.
  split; [now apply handleBallsInPockets_wellFormed|].
  destruct Hwf as (W1 & W2 & W3 & W4 & W5 & W6 & W7 & W8 & W9).
  destruct (handleBallsInPockets_fold_inv cfg (_balls w) w W8
              (fun r Hr => proj2 (W9 r Hr)))
    as (I1 & I2 & I3 & I4 & I5 & I6 & I7 & I8 & I9 & I10 & I11 & I12 & I13).
  cbv zeta in *. fold (GameWorld.handleBallsInPockets cfg w) in *.
  fold w' in I1, I2, I3, I4, I5, I6, I7, I8, I9, I10, I11, I12, I13.
  split; [|exact I5].
  intros r Hr. rewrite I9 in Hr. split; [now apply I4|apply I2].
Qed.

Lemma handleBallsInPockets_invariant_witness :
  wellFormed (GameWorld.handleBallsInPockets GameConfig worldTwoColorsPocketed).
Proof.
  refine (proj1 (handleBallsInPockets_invariant GameConfig
                   worldTwoColorsPocketed _)).
  exact worldTwoColorsPocketed_wellFormed.
Defined.

(** ** A new match *)

Lemma initMatch_wf (cfg : IGameConfig) (env : Env) (w : GameWorld) :
  (0 < length (_players w))%nat ->
  wellFormed (fst (GameWorld.initMatch cfg env w)).
Proof.
  intros Hp. unfold GameWorld.initMatch, wellFormed, GameWorld.deref.
  cbn [fst store _balls _cueBall _8Ball _players _currentPlayerIndex
         _turnState newState pocketedBalls].
  set (R := (fun p => Ball.new (toVector2 p) yellow) <$> redBallsPositions cfg).
  set (Y := (fun p => Ball.new (toVector2 p) red) <$> yellowBallsPositions cfg).
  set (e := Ball.new (toVector2 (eightBallPosition cfg)) black).
  set (c := Ball.new (toVector2 (cueBallPosition cfg)) white).
  assert (Hlen : length (R ++ Y ++ [e; c]) = S (S (length R + length Y))).
  { rewrite !length_app. cbn [length]. lia. }
  rewrite Hlen, length_fmap.
  split; [apply seq_NoDup|].
  split; [intros r Hr; apply in_seq in Hr; lia|].
  split; [apply in_seq; lia|].
  split; [lia|].
  split; [|split; [|split; [exact Hp|split; [constructor|intros r []]]]].
  - rewrite lookup_total_app_r by lia.
    rewrite lookup_total_app_r by lia.
    replace (S (length R + length Y) - length R - length Y)%nat with 1%nat
      by lia.
    reflexivity.
  - rewrite lookup_total_app_r by lia.
    rewrite lookup_total_app_r by lia.
    replace (length R + length Y - length R - length Y)%nat with 0%nat by lia.
    reflexivity.
Qed.



(** ** Well-formedness through a frame *)

Section WellFormed.
Variable cfg : IGameConfig.
Variable env : Env.

Lemma with_turnState_ballInHand_sameTable (w : GameWorld) (v : bool) :
  sameTable w
    (GameWorld.with_turnState w (GameWorld.set_ballInHand (_turnState w) v)).
Proof. unfold sameTable. cbn. auto 10. Qed.

Lemma set_position_sameTable (w : GameWorld) (r : ref) (p : Vector2) :
  sameTable w (GameWorld.modify (fun b => Ball.set_position b p) r w).
Proof. now apply modify_sameTable. Qed.

Lemma handleBallInHand_sameTable (w : GameWorld) :
  sameTable w (GameWorld.handleBallInHand cfg env w).
Proof.
  unfold GameWorld.handleBallInHand, GameWorld.placeBallInHand.
  destruct (_ && _).
  - eapply sameTable_trans; [apply set_position_sameTable|].
    eapply sameTable_trans; [apply with_turnState_ballInHand_sameTable|].
    apply with_stick_sameTable.
  - eapply sameTable_trans; [apply with_stick_sameTable|].
    eapply sameTable_trans; [apply with_stick_sameTable|].
    apply set_position_sameTable.
Qed.

Lemma shootCueBall_sameTable (w : GameWorld) (power rotation : number) :
  sameTable w (GameWorld.shootCueBall cfg w power rotation).
Proof.
  unfold GameWorld.shootCueBall.
  destruct (power >? Fin 0)%num; [|apply sameTable_refl].
  eapply sameTable_trans; [apply with_stick_sameTable|].
  eapply sameTable_trans; [apply with_stick_sameTable|].
  eapply sameTable_trans; [|apply with_stick_sameTable].
  now apply modify_sameTable.
Qed.

Lemma handleInput_sameTable (w : GameWorld) :
  sameTable w (GameWorld.handleInput cfg env w).
Proof.
  unfold GameWorld.handleInput.
  destruct (_ && _); [apply shootCueBall_sameTable|apply sameTable_refl].
Qed.

Lemma turnEnd_wellFormed (w : GameWorld) :
  wellFormed w ->
  wellFormed (fst (GameWorld.nextTurn cfg env (GameWorld.concludeTurn w))).
Proof.
  intros (W1 & W2 & W3 & W4 & W5 & W6 & W7 & W8 & W9).
  destruct (concludeTurn_shape w)
    as (H1 & H2 & H3 & H4 & H5 & H6 & _ & _ & _ & Hlen).
  destruct (concludeTurn_splice_balls _ w W1 W8
              (fun r Hr => proj1 (W9 r Hr))) as [Hnd Hx].
  cbv zeta in *. rewrite <- H2 in Hnd, Hx.
  set (w1 := GameWorld.concludeTurn w) in *.
  unfold GameWorld.nextTurn.
  destruct (GameWorld.isGameOver w1).
  { unfold GameWorld.handleGameOver.
    destruct (isValid (_turnState w1)); apply initMatch_wf;
      cbn [_players GameWorld.with_players]; rewrite length_alter; lia. }
  cbv zeta.
  set (wA := if negb (_visible (GameWorld.deref w1 (_cueBall w1)))
             then GameWorld.modify _ (_cueBall w1) w1 else w1).
  assert (HA : _balls wA = _balls w1 /\ _cueBall wA = _cueBall w1
               /\ _8Ball wA = _8Ball w1
               /\ length (store wA) = length (store w1)
               /\ (forall r, _color (GameWorld.deref wA r)
                             = _color (GameWorld.deref w1 r))
               /\ _currentPlayerIndex wA = _currentPlayerIndex w1
               /\ _players wA = _players w1).
  { unfold wA. destruct (negb _); [|auto 10].
    cbn [GameWorld.modify GameWorld.with_store _balls _cueBall _8Ball store
           _currentPlayerIndex _players].
    rewrite length_alter. repeat split.
    intros r. now apply (deref_modify_field _color). }
  destruct HA as (A1 & A2 & A3 & A4 & A5 & A6 & A7).
  assert (Hd : forall r, GameWorld.deref w1 r = GameWorld.deref w r).
  { intros r. unfold GameWorld.deref. now rewrite H1. }
  set (wB := if _ || _ then _ else wA).
  assert (HB : store wB = store wA /\ _balls wB = _balls wA
               /\ _cueBall wB = _cueBall wA /\ _8Ball wB = _8Ball wA
               /\ _players wB = _players wA
               /\ (_currentPlayerIndex wB < length (_players wA))%nat).
  { unfold wB. destruct (_ || _).
    - cbn. repeat split. apply Nat.mod_upper_bound.
      rewrite A7, Hlen. lia.
    - repeat split. rewrite A6, A7, H6, Hlen. exact W7. }
  destruct HB as (B1 & B2 & B3 & B4 & B5 & B6).
  unfold wellFormed, GameWorld.deref.
  cbn [fst store _balls _cueBall _8Ball _players _currentPlayerIndex
         _turnState GameWorld.with_turnState GameWorld.with_stick
         GameWorld.set_ballInHand newState pocketedBalls].
  rewrite B1, B2, B3, B4, B5, A1, A2, A3, A4, H1, H4, H5.
  fold (GameWorld.deref wA (_cueBall w)).
  fold (GameWorld.deref wA (_8Ball w)).
  rewrite !A5, !Hd.
  repeat split; try assumption.
  - intros r Hr. apply W2. now apply Hx.
  - apply Hx. split; [exact W3|]. intros [_ Hc]. contradiction.
  - constructor.
  - destruct H.
  - destruct H.
Qed.

End WellFormed.

(** X17: a frame keeps a world well formed: after [update], the balls on the
    table are still distinct objects of the store, the cue ball is a white
    one of them, the 8-ball is black, the player to move exists, and the
    balls recorded as pocketed are distinct hidden balls of the table. *)
Theorem update_preserves_wellFormed (cfg : IGameConfig) (env : Env)
    (w : GameWorld) :
  wellFormed w -> wellFormed (fst (GameWorld.update cfg env w)).
Proof.
  intros Hwf. unfold GameWorld.update.
  destruct (GameWorld.isBallInHand w).
  { exact (wellFormed_sameTable _ _ Hwf (handleBallInHand_sameTable cfg env w)). }
  cbv zeta.
  set (w1 := GameWorld.handleBallsInPockets cfg w).
  set (w2 := GameWorld.handleCollisions cfg w1).
  set (w3 := GameWorld.handleInput cfg env w2).
  set (w4 := GameWorld.with_stick w3 (Stick.update cfg env (_stick w3))).
  set (w5 := fold_left _ (_balls w4) w4).
  assert (H5 : wellFormed w5).
  { apply (wellFormed_sameTable w4);
      [|apply fold_modify_sameTable; intros b; apply Ball_update_fields].
    apply (wellFormed_sameTable w3); [|apply with_stick_sameTable].
    apply (wellFormed_sameTable w2); [|apply handleInput_sameTable].
    apply (wellFormed_sameTable w1);
      [|apply (handleCollisionsFrom_sameTable cfg (_balls w1) w1)].
    now apply handleBallsInPockets_wellFormed. }
  destruct (_ && _); [now apply turnEnd_wellFormed|exact H5].
Qed.

Lemma update_preserves_wellFormed_witness :
  wellFormed (fst (GameWorld.update GameConfig (env_pressed_at 0 0)
                     worldTwoColorsPocketed)).
Proof.
  refine (update_preserves_wellFormed GameConfig (env_pressed_at 0 0)
            worldTwoColorsPocketed _).
  exact worldTwoColorsPocketed_wellFormed.
Defined.

(** ** The policy *)

Section Policy.
Variable cfg : IGameConfig.

Lemma Ball_position_V (b : Ball) (c d : R) :
  _position b = V c d -> Ball.position b = V c d.
Proof. unfold Ball.position. now intros ->. Qed.

Lemma distanceBonus_inner (w : GameWorld) (a b : R) (rest : list ref) :
  (forall r, In r rest ->
     exists c d, _position (GameWorld.deref w r) = V c d) ->
  0 <= ballDistanceBonus (ai cfg) ->
  forall e : R, exists s, 0 <= s
    /\ fold_left
         (fun acc j =>
            (acc + Vector2.distFrom (V a b)
                     (Ball.position (GameWorld.deref w j))
                   * Fin (ballDistanceBonus (ai cfg)))%num)
         rest (Fin e)
       = Fin (e + s).
Proof.
  intros Hfin Hb. induction rest as [|j rest IH]; intros e.
  { exists 0. split; [lra|]. cbn. f_equal. ring. }
  destruct (Hfin j (or_introl eq_refl)) as (c & d & Hj).
  cbn [fold_left]. cbv beta.
  rewrite (Ball_position_V _ _ _ Hj), distFrom_V, mul_Fin, add_Fin.
  destruct (IH (fun r Hr => Hfin r (or_intror Hr))
              (e + sqrt ((a - c) * (a - c) + (b - d) * (b - d))
                   * ballDistanceBonus (ai cfg))) as (s & Hs & ->).
  exists (sqrt ((a - c) * (a - c) + (b - d) * (b - d))
          * ballDistanceBonus (ai cfg) + s).
  split; [|f_equal; ring].
  pose proof (sqrt_pos ((a - c) * (a - c) + (b - d) * (b - d))).
  pose proof (Rmult_le_pos _ _ H Hb). lra.
Qed.

Lemma distanceBonus_finite (w : GameWorld) (balls : list ref) :
  (forall r, In r balls ->
     exists c d, _position (GameWorld.deref w r) = V c d) ->
  0 <= ballDistanceBonus (ai cfg) ->
  forall e : R, exists s, 0 <= s
    /\ AIPolicy.distanceBonus cfg w balls (Fin e) = Fin (e + s).
Proof.
  intros Hfin Hb. induction balls as [|i rest IH]; intros e.
  { exists 0. split; [lra|]. cbn. f_equal. ring. }
  destruct (Hfin i (or_introl eq_refl)) as (a & b & Hi).
  cbn [AIPolicy.distanceBonus]. rewrite (Ball_position_V _ _ _ Hi).
  destruct (distanceBonus_inner w a b rest
              (fun r Hr => Hfin r (or_intror Hr)) Hb e) as (s1 & Hs1 & ->).
  destruct (IH (fun r Hr => Hfin r (or_intror Hr)) (e + s1))
    as (s2 & Hs2 & ->).
  exists (s1 + s2). split; [lra|f_equal; ring].
Qed.

Lemma distanceBonus_layout (w w' : GameWorld) (balls : list ref)
    (e : number) :
  store w' = store w ->
  AIPolicy.distanceBonus cfg w' balls e = AIPolicy.distanceBonus cfg w balls e.
Proof.
  intros Hs. revert e. induction balls as [|i rest IH]; intros e;
    [reflexivity|].
  cbn [AIPolicy.distanceBonus]. unfold GameWorld.deref. rewrite Hs. apply IH.
Qed.

End Policy.

(** X18: with bonuses and penalties that are not negative and balls at finite
    positions, the policy gives a finite evaluation, at least
    [1 + validTurnBonus] for a valid turn; and of two worlds with the same
    balls at the same places it ranks the one whose turn is valid strictly
    above the one whose turn is invalid, whatever else the turns did, as
    soon as the bonus for a valid turn or the penalty for an invalid one is
    positive. *)
Theorem evaluate_valid_above_invalid (cfg : IGameConfig) (w1 w2 : GameWorld) :
  0 <= ballDistanceBonus (ai cfg) -> 0 <= validTurnBonus (ai cfg) ->
  0 <= pocketedBallBonus (ai cfg) -> 0 <= invalidTurnPenalty (ai cfg) ->
  0 <= gameWonBonus (ai cfg) -> 0 <= gameLossPenalty (ai cfg) ->
  0 < validTurnBonus (ai cfg) + invalidTurnPenalty (ai cfg) ->
  (forall r, In r (_balls w1) ->
     exists c d, _position (GameWorld.deref w1 r) = V c d) ->
  store w2 = store w1 -> _balls w2 = _balls w1 ->
  GameWorld.isTurnValid w1 = true -> GameWorld.isTurnValid w2 = false ->
  exists v1 v2,
    AIPolicy.evaluate cfg w1 = Fin v1 /\ AIPolicy.evaluate cfg w2 = Fin v2
    /\ v2 < v1 /\ 1 + validTurnBonus (ai cfg) <= v1
    /\ (AIPolicy.evaluate cfg w1 >? AIPolicy.evaluate cfg w2)%num = true.
Proof.
  intros Hd Hv Hp Hi Hw Hl Hpos Hfin Hs Hb Hv1 Hv2.
  destruct (distanceBonus_finite cfg w1 (_balls w1) Hfin Hd 1)
    as (s & Hs0 & He).
  pose proof (pos_INR (GameWorld.numOfPocketedBallsOnTurn w1)) as Hn.
  pose proof (Rmult_le_pos _ _ Hp Hn) as Hpn.
  unfold AIPolicy.evaluate.
  rewrite Hv1, Hv2, Hb, (distanceBonus_layout cfg w1 w2 _ _ Hs), He.
  cbv zeta. rewrite !mul_Fin, !add_Fin, !sub_Fin.
  destruct (GameWorld.isGameOver w1), (GameWorld.isGameOver w2);
    rewrite ?add_Fin, ?sub_Fin; do 2 eexists;
    (split; [reflexivity|]); (split; [reflexivity|]);
    rewrite gtb_Fin, Rltb_true; repeat split; lra.
Qed.

Lemma evaluate_valid_above_invalid_witness :
  exists v1 v2,
    AIPolicy.evaluate GameConfig
      (GameWorld.with_turnState worldInHand (mkState None [] false true))
    = Fin v1
    /\ AIPolicy.evaluate GameConfig worldInHand = Fin v2
    /\ v2 < v1 /\ 1 + validTurnBonus (ai GameConfig) <= v1
    /\ (AIPolicy.evaluate GameConfig
          (GameWorld.with_turnState worldInHand (mkState None [] false true))
        >? AIPolicy.evaluate GameConfig worldInHand)%num = true.
Proof.
  refine (evaluate_valid_above_invalid GameConfig
            (GameWorld.with_turnState worldInHand (mkState None [] false true))
            worldInHand _ _ _ _ _ _ _ _ _ _ _ _);
    try (cbn; lra); try reflexivity.
  cbn. intros r [<-|[<-|[]]]; cbn; eauto.
Defined.

(** ** The makers of opponents *)

(** X19: the power of a mutation is the power of the opponent it is made from,
    moved by [(2 random - 1) shotPowerMutationVariance] and clamped into
    [minShotPower, maxPower]; a power that is not a number stays so, the
    clamps do not repair it. *)
Theorem createMutation_power_clamped (cfg : IGameConfig)
    (Math_random : nat -> R) (k : nat) (o : AIOpponent) :
  minShotPower (ai cfg) <= maxPower (stick cfg) ->
  let o' := AITrainer.createMutation cfg Math_random k o in
  let moved (p : R) :=
    p + (Math_random k * 2 * shotPowerMutationVariance (ai cfg)
         - shotPowerMutationVariance (ai cfg)) in
  (forall p, power o = Fin p ->
     exists q, power o' = Fin q
       /\ minShotPower (ai cfg) <= q <= maxPower (stick cfg)
       /\ (minShotPower (ai cfg) <= moved p <= maxPower (stick cfg) ->
           q = moved p)
       /\ (moved p < minShotPower (ai cfg) -> q = minShotPower (ai cfg))
       /\ (maxPower (stick cfg) < moved p -> q = maxPower (stick cfg)))
  /\ (power o = NaN -> power o' = NaN)
  /\ evaluation o' = Fin 0.
Proof.
  intros Hmm o' moved. split; [|split; [|reflexivity]].
  - intros p Hp. unfold o', AITrainer.createMutation.
    cbn [power AITrainer.newOpponent]. rewrite Hp.
    rewrite !mul_Fin, sub_Fin, add_Fin. fold (moved p).
    rewrite ltb_Fin.
    destruct (Rltb (moved p) (minShotPower (ai cfg))) eqn:E1.
    + apply Rltb_true in E1. rewrite gtb_Fin.
      replace (Rltb (maxPower (stick cfg)) (minShotPower (ai cfg)))
        with false by (symmetry; apply Rltb_false; lra).
      eexists. split; [reflexivity|]. repeat split; intros; lra.
    + apply Rltb_false in E1. rewrite gtb_Fin.
      destruct (Rltb (maxPower (stick cfg)) (moved p)) eqn:E2.
      * apply Rltb_true in E2.
        eexists. split; [reflexivity|]. repeat split; intros; lra.
      * apply Rltb_false in E2.
        eexists. split; [reflexivity|]. repeat split; intros; lra.
  - intros Hp. unfold o', AITrainer.createMutation.
    cbn [power AITrainer.newOpponent]. rewrite Hp. reflexivity.
Qed.

Lemma createMutation_power_clamped_witness :
  exists q,
    power (AITrainer.createMutation GameConfig (fun _ : nat => 1 / 2) 0%nat
             (mkOpponent (Fin 20) (Fin 1) (Fin 2))) = Fin q
    /\ minShotPower (ai GameConfig) <= q <= maxPower (stick GameConfig)
    /\ (minShotPower (ai GameConfig)
        <= 20 + (1 / 2 * 2 * shotPowerMutationVariance (ai GameConfig)
                 - shotPowerMutationVariance (ai GameConfig))
        <= maxPower (stick GameConfig) ->
        q = 20 + (1 / 2 * 2 * shotPowerMutationVariance (ai GameConfig)
                  - shotPowerMutationVariance (ai GameConfig)))
    /\ (20 + (1 / 2 * 2 * shotPowerMutationVariance (ai GameConfig)
              - shotPowerMutationVariance (ai GameConfig))
        < minShotPower (ai GameConfig) -> q = minShotPower (ai GameConfig))
    /\ (maxPower (stick GameConfig)
        < 20 + (1 / 2 * 2 * shotPowerMutationVariance (ai GameConfig)
                - shotPowerMutationVariance (ai GameConfig)) ->
        q = maxPower (stick GameConfig)).
Proof.
  refine (proj1 (createMutation_power_clamped GameConfig
                   (fun _ : nat => 1 / 2) 0%nat
                   (mkOpponent (Fin 20) (Fin 1) (Fin 2)) _) 20 eq_refl).
  cbn. lra.
Defined.

(** X20: the angle of a mutation, for a random number in [0, 1): made from an
    opponent whose evaluation [e] is positive, it lies within [PI / e] of
    that opponent's angle, so the better the opponent, the narrower the
    search; made from an opponent whose evaluation is not positive, it is a
    new angle in [-PI, PI). *)
Theorem createMutation_rotation (cfg : IGameConfig) (Math_random : nat -> R)
    (k : nat) (o : AIOpponent) (e r0 : R) :
  0 <= Math_random (S k) < 1 ->
  evaluation o = Fin e -> rotation o = Fin r0 ->
  exists a,
    rotation (AITrainer.createMutation cfg Math_random k o) = Fin a
    /\ (0 < e -> r0 - PI / e <= a < r0 + PI / e)
    /\ (e <= 0 -> - PI <= a < PI).
Proof.
  intros Hr He Hr0. unfold AITrainer.createMutation.
  cbn [rotation AITrainer.newOpponent]. rewrite He, Hr0, gtb_Fin.
  pose proof PI_RGT_0 as Hpi.
  destruct (Rltb 0 e) eqn:E.
  - apply Rltb_true in E. rewrite div_Fin by lra.
    rewrite !mul_Fin, sub_Fin, mul_Fin, add_Fin.
    eexists. split; [reflexivity|]. split; [|intros; lra]. intros _.
    assert (Hinv : 0 < 1 / e) by (apply Rdiv_lt_0_compat; lra).
    replace (PI / e) with (1 / e * PI) by (field; lra).
    set (m := Math_random (S k) * 2 * PI - PI).
    assert (Hm : - PI <= m < PI) by (unfold m; nra).
    pose proof (Rmult_le_compat_l (1 / e) (- PI) m (Rlt_le _ _ Hinv)
                  (proj1 Hm)) as Hlo.
    pose proof (Rmult_lt_compat_l (1 / e) m PI Hinv (proj2 Hm)) as Hhi.
    split; lra.
  - apply Rltb_false in E. rewrite !mul_Fin, sub_Fin.
    eexists. split; [reflexivity|]. split; [intros; lra|]. intros _.
    split; nra.
Qed.

Lemma createMutation_rotation_witness :
  exists a,
    rotation (AITrainer.createMutation GameConfig (fun _ : nat => 1 / 2) 0%nat
                (mkOpponent (Fin 20) (Fin 1) (Fin 2))) = Fin a
    /\ (0 < 2 -> 1 - PI / 2 <= a < 1 + PI / 2)
    /\ (2 <= 0 -> - PI <= a < PI).
Proof.
  refine (createMutation_rotation GameConfig (fun _ : nat => 1 / 2) 0%nat
            (mkOpponent (Fin 20) (Fin 1) (Fin 2)) 2 1 _ _ _).
  - lra.
  - reflexivity.
  - reflexivity.
Defined.

(** X21: a random opponent, for random numbers in [0, 1), has a power in
    [1, 76) and an angle in [0, 2 PI), whatever the configured least and
    greatest shot powers are. *)
Theorem createRandomOpponent_range (Math_random : nat -> R) (k : nat) :
  0 <= Math_random k < 1 -> 0 <= Math_random (S k) < 1 ->
  exists p a,
    AITrainer.createRandomOpponent Math_random k
    = mkOpponent (Fin p) (Fin a) (Fin 0)
    /\ 1 <= p < 76 /\ 0 <= a < 2 * PI.
Proof.
  intros H1 H2. unfold AITrainer.createRandomOpponent, AITrainer.newOpponent.
  rewrite !mul_Fin, add_Fin. pose proof PI_RGT_0 as Hpi.
  do 2 eexists. split; [reflexivity|]. split; [lra|nra].
Qed.

Lemma createRandomOpponent_range_witness :
  exists p a,
    AITrainer.createRandomOpponent (fun _ : nat => 1 / 2) 0%nat
    = mkOpponent (Fin p) (Fin a) (Fin 0)
    /\ 1 <= p < 76 /\ 0 <= a < 2 * PI.
Proof.
  refine (createRandomOpponent_range (fun _ : nat => 1 / 2) 0%nat _ _); lra.
Defined.

(** ** The best opponent of a session *)

Lemma gtb_not_above (a b c : number) :
  (a >? b)%num = false -> (c >? b)%num = true -> (a >? c)%num = false.
Proof.
  unfold Num.gtb.
  destruct a, b, c; cbn; try discriminate; try reflexivity;
    rewrite ?Rltb_true, ?Rltb_false; intros; lra.
Qed.

Section Dominance.
Variable cfg : IGameConfig.
Variable Math_random : nat -> R.

Lemma train_bestDominates (t : AITrainer) :
  sessionState t -> bestDominates t ->
  (_iteration t <= trainIterations (ai cfg))%nat ->
  bestDominates (AITrainer.train cfg Math_random t)
  /\ (_iteration (AITrainer.train cfg Math_random t)
      <= trainIterations (ai cfg))%nat.
Proof.
  intros Hss [Hlen Hdom] Hit. unfold AITrainer.train.
  destruct (Nat.eqb_spec (_iteration t) (trainIterations (ai cfg)))
    as [Heq|Hne].
  { split; [|exact Hit]. split; [exact Hlen|exact Hdom]. }
  destruct (GameWorld.isBallsMoving (_gameWorld t)).
  { split; [|exact Hit]. split; [exact Hlen|exact Hdom]. }
  assert (Hcb : (_currentOpponent t < length (opponentStore t))%nat
                /\ (_bestOpponent t < length (opponentStore t))%nat
                /\ (_bestOpponent t = _currentOpponent t ->
                    _opponents t = [])).
  { destruct Hss as [(H0 & Hal & Hc)|(_ & Hn & Hb & Hc)].
    - rewrite Hal. repeat split; try assumption. intros _.
      rewrite H0 in Hlen. now destruct (_opponents t).
    - repeat split; try assumption. intros; contradiction. }
  destruct Hcb as (Hc & Hb & Hal).
  set (e := AIPolicy.evaluate cfg (GameWorld.concludeTurn (_gameWorld t))).
  set (store1 := alter (AITrainer.set_evaluation e) (_currentOpponent t)
                   (opponentStore t)).
  assert (Hlen1 : length store1 = length (opponentStore t))
    by apply length_alter.
  assert (Hcur : evaluation (store1 !!! _currentOpponent t) = e).
  { unfold store1. now rewrite list_lookup_total_alter_eq by exact Hc. }
  set (copy := mkOpponent (power (store1 !!! _currentOpponent t))
                 (rotation (store1 !!! _currentOpponent t))
                 (evaluation (store1 !!! _currentOpponent t))).
  assert (Hnew : (store1 ++ [copy]) !!! length store1 = copy).
  { rewrite lookup_total_app_r by lia.
    now replace (length store1 - length store1)%nat with 0%nat by lia. }
  assert (Hold : forall r, (r < length (opponentStore t))%nat ->
            (store1 ++ [copy]) !!! r = store1 !!! r).
  { intros r Hr. apply lookup_total_app_l. lia. }
  cbv zeta. fold e. fold store1. fold copy.
  rewrite Hnew, (Hold _ Hb).
  set (best' := if (evaluation copy
                    >? evaluation (store1 !!! _bestOpponent t))%num
                then length store1 else _bestOpponent t).
  unfold AITrainer.simulate, AITrainer.with_worlds, bestDominates,
    AITrainer.bestEvaluation.
  cbn [opponentStore _opponents _currentOpponent _bestOpponent _iteration].
  split; [|lia].
  split; [rewrite length_app; cbn [length]; lia|].
  assert (Hb' : (best' < length (store1 ++ [copy]))%nat).
  { unfold best'. rewrite length_app. cbn [length].
    destruct (_ >? _)%num; lia. }
  rewrite (lookup_total_app_l _ _ best') by exact Hb'.
  intros r Hr. rewrite !length_app. cbn [length].
  apply in_app_iff in Hr as [Hr|[<-|[]]].
  - destruct (Hdom r Hr) as (Hr1 & Hr2 & Hr3).
    split; [lia|]. split; [lia|].
    rewrite lookup_total_app_l by (rewrite length_app; cbn [length]; lia).
    rewrite (Hold r Hr1).
    assert (Hbc : _bestOpponent t <> _currentOpponent t).
    { intros Hx. rewrite (Hal Hx) in Hr. destruct Hr. }
    assert (Hr' : store1 !!! r = opponentStore t !!! r).
    { unfold store1. apply list_lookup_total_alter_ne. congruence. }
    assert (HB : store1 !!! _bestOpponent t
                 = opponentStore t !!! _bestOpponent t).
    { unfold store1. apply list_lookup_total_alter_ne. congruence. }
    rewrite Hr'. unfold AITrainer.bestEvaluation in Hr3.
    unfold best'. rewrite HB.
    destruct (evaluation copy
              >? evaluation (opponentStore t !!! _bestOpponent t))%num
      eqn:Hgt.
    + rewrite Hnew. exact (gtb_not_above _ _ _ Hr3 Hgt).
    + rewrite (Hold _ Hb), HB. exact Hr3.
  - split; [lia|]. split; [lia|].
    rewrite lookup_total_app_l by (rewrite length_app; cbn [length]; lia).
    rewrite Hnew. unfold best'.
    destruct (evaluation copy
              >? evaluation (store1 !!! _bestOpponent t))%num eqn:Hgt.
    + rewrite Hnew. apply ltb_irrefl.
    + rewrite (Hold _ Hb). exact Hgt.
Qed.

Lemma trainingSteps_bestDominates (env : Env) (t : AITrainer) (k : nat) :
  sessionState t -> bestDominates t ->
  (_iteration t <= trainIterations (ai cfg))%nat ->
  let t' := Nat.iter k (AITrainer.trainingStep cfg Math_random env) t in
  sessionState t' /\ bestDominates t'
  /\ (_iteration t' <= trainIterations (ai cfg))%nat.
Proof.
  intros Hss Hdom Hit. induction k as [|k IH]; [now cbn|].
  cbn [Nat.iter]. destruct IH as (I1 & I2 & I3).
  destruct (train_bestDominates _ I1 I2 I3) as [J1 J2].
  split; [exact (train_sessionState cfg Math_random _ I1)|].
  split; [exact J1|exact J2].
Qed.

End Dominance.

(** X22: throughout a session, from [startSession] on and for as long as the
    training loop runs, the opponents recorded are as many as the iterations
    counted, which never exceed [trainIterations] and have reached it when
    the session is finished, and none of the recorded opponents has an
    evaluation greater than the best opponent's. *)
Theorem session_best_dominates (cfg : IGameConfig) (Math_random : nat -> R)
    (env : Env) (fuel loopFuel : nat) (gameWorld : GameWorld)
    (t s : AITrainer) :
  AITrainer.beginSession cfg Math_random fuel gameWorld t = Some s ->
  let s' := AITrainer.opponentTrainingLoop cfg Math_random env loopFuel s in
  bestDominates s'
  /\ (_iteration s' <= trainIterations (ai cfg))%nat
  /\ (_finishedSession s' = true ->
      _iteration s' = trainIterations (ai cfg))
  /\ bestDominates s /\ _iteration s = 0%nat.
Proof.
  intros Hs s'.
  pose proof (beginSession_state cfg Math_random fuel gameWorld t s Hs) as Hss.
  assert (H0 : _opponents s = [] /\ _iteration s = 0%nat
               /\ _finishedSession s = false).
  { unfold AITrainer.beginSession in Hs.
    destruct (if GameWorld.isBallInHand gameWorld then _ else _) as [gw|];
      [|discriminate].
    injection Hs as <-. now cbn. }
  destruct H0 as (Hops & Hit0 & Hfin0).
  assert (Hdom : bestDominates s).
  { unfold bestDominates. rewrite Hops, Hit0. split; [reflexivity|].
    intros r []. }
  split; [|split; [|split; [|split; [exact Hdom|exact Hit0]]]].
  - destruct (opponentTrainingLoop_steps cfg Math_random env loopFuel s)
      as (j & _ & Hj).
    unfold s'. rewrite Hj.
    apply (trainingSteps_bestDominates cfg Math_random env s j Hss Hdom).
    lia.
  - destruct (opponentTrainingLoop_steps cfg Math_random env loopFuel s)
      as (j & _ & Hj).
    unfold s'. rewrite Hj.
    apply (trainingSteps_bestDominates cfg Math_random env s j Hss Hdom).
    lia.
  - unfold s'. clear s'. revert Hfin0. generalize s. clear.
    induction loopFuel as [|n IH]; intros s Hfin0 Hfin.
    + cbn in Hfin. congruence.
    + cbn [AITrainer.opponentTrainingLoop] in *. rewrite Hfin0 in *.
      set (s1 := AITrainer.trainingStep cfg Math_random env s) in *.
      destruct (_finishedSession s1) eqn:Hf1; [|now apply IH].
      assert (Hs1 : AITrainer.opponentTrainingLoop cfg Math_random env n s1
                    = s1).
      { destruct n; cbn [AITrainer.opponentTrainingLoop];
          [reflexivity|]. now rewrite Hf1. }
      rewrite Hs1. unfold s1, AITrainer.trainingStep in *.
      cbn [_finishedSession _iteration AITrainer.with_worlds] in *.
      unfold AITrainer.train in *.
      destruct (Nat.eqb_spec (_iteration s) (trainIterations (ai cfg)))
        as [Heq|Hne]; [exact Heq|].
      destruct (GameWorld.isBallsMoving (_gameWorld s)); cbn in Hf1;
        congruence.
Qed.

Lemma session_best_dominates_witness :
  let s :=
    match AITrainer.beginSession GameConfig (fun _ : nat => 1 / 2) 0
            worldTwoColorsPocketed sampleTrainer with
    | Some s => s
    | None => sampleTrainer
    end in
  bestDominates
    (AITrainer.opponentTrainingLoop GameConfig (fun _ : nat => 1 / 2)
       (env_pressed_at 0 0) 2 s).
Proof.
  intros s.
  refine (proj1 (session_best_dominates GameConfig (fun _ : nat => 1 / 2)
                   (env_pressed_at 0 0) 0 2 worldTwoColorsPocketed
                   sampleTrainer s _)).
  reflexivity.
Defined.

(** ** Putting the cue ball down for the computer *)

(** X23: the search of the trainer's [placeBallInHand] walks to the right from
    its first position in steps of 5.  It returns the first position of the
    walk at which the cue ball may be put down: a result is valid, and every
    position before it was not; and when the position after [k] steps is the
    first valid one, the search returns it, given at least [k] turns of the
    loop. *)
Theorem findPlaceForCueBall_first_valid (cfg : IGameConfig) (w : GameWorld)
    (b : R) (fuel : nat) :
  forall a : R,
  let at_step (k : nat) := V (a + 5 * INR k) b in
  let valid (p : Vector2) := GameWorld.isValidPosToPlaceCueBall cfg w p in
  (forall p, AITrainer.findPlaceForCueBall cfg fuel w (V a b) = Some p ->
     exists k, (k <= fuel)%nat /\ p = at_step k /\ valid p = true
       /\ forall j, (j < k)%nat -> valid (at_step j) = false)
  /\ (forall k, (k <= fuel)%nat -> valid (at_step k) = true ->
        (forall j, (j < k)%nat -> valid (at_step j) = false) ->
        AITrainer.findPlaceForCueBall cfg fuel w (V a b) = Some (at_step k))
  /\ (AITrainer.findPlaceForCueBall cfg fuel w (V a b) = None ->
        forall k, (k <= fuel)%nat -> valid (at_step k) = false).
Proof.
  assert (Hstep : forall a k, V (a + 5 + 5 * INR k) b
                              = V (a + 5 * INR (S k)) b).
  { intros a k. apply V_eq; [|reflexivity]. rewrite S_INR. ring. }
  assert (H0 : forall a, V (a + 5 * INR 0) b = V a b).
  { intros a. apply V_eq; [|reflexivity]. cbn. ring. }
  induction fuel as [|fuel IH]; intros a at_step valid.
  - cbn [AITrainer.findPlaceForCueBall].
    destruct (GameWorld.isValidPosToPlaceCueBall cfg w (V a b)) eqn:E.
    + split; [|split; [|discriminate]].
      * intros p [= <-]. exists 0%nat. unfold at_step, valid.
        rewrite H0. repeat split; [lia|exact E|intros j Hj; lia].
      * intros k Hk _ _. replace k with 0%nat by lia.
        unfold at_step. now rewrite H0.
    + split; [discriminate|split].
      * intros k Hk Hv _. replace k with 0%nat in Hv by lia.
        unfold valid, at_step in Hv. rewrite H0 in Hv. congruence.
      * intros _ k Hk. replace k with 0%nat by lia.
        unfold valid, at_step. now rewrite H0.
  - cbn [AITrainer.findPlaceForCueBall].
    destruct (GameWorld.isValidPosToPlaceCueBall cfg w (V a b)) eqn:E.
    + split; [|split; [|discriminate]].
      * intros p [= <-]. exists 0%nat. unfold at_step, valid.
        rewrite H0. repeat split; [lia|exact E|intros j Hj; lia].
      * intros k Hk Hv Hmin. destruct k as [|k].
        { unfold at_step. now rewrite H0. }
        specialize (Hmin 0%nat ltac:(lia)).
        unfold valid, at_step in Hmin. rewrite H0 in Hmin. congruence.
    + change (Vector2.addToX (V a b) (Fin 5)) with (V (a + 5) b).
      destruct (IH (a + 5)) as (I1 & I2 & I3). cbv zeta in I1, I2, I3.
      split; [|split].
      * intros p Hp. destruct (I1 p Hp) as (k & Hk & -> & Hv & Hmin).
        exists (S k). unfold at_step, valid. rewrite <- Hstep.
        repeat split; [lia|exact Hv|].
        intros [|j] Hj; [now rewrite H0|].
        rewrite <- Hstep. apply Hmin. lia.
      * intros [|k] Hk Hv Hmin.
        { unfold valid, at_step in Hv. rewrite H0 in Hv. congruence. }
        unfold at_step, valid in *. rewrite <- Hstep in *.
        apply I2; [lia|exact Hv|].
        intros j Hj. rewrite Hstep. apply Hmin. lia.
      * intros Hn [|k] Hk; unfold valid, at_step.
        { now rewrite H0. }
        rewrite <- Hstep. apply I3; [exact Hn|lia].
Qed.

(** ** The stick *)

(** X24: a frame of the stick keeps a finite power within one step of the range
    from 0 to [maxPower], changes it by at most one step, and moves the
    origin along with it: [origin.x * powerToAddPerFrame - power *
    movementPerFrame] is the same before and after.  A stick that cannot be
    moved is left as it is. *)
Theorem Stick_update_power (cfg : IGameConfig) (env : Env) (s : Stick)
    (p ox oy : R) :
  0 <= powerToAddPerFrame (stick cfg) ->
  s_power s = Fin p -> s_origin s = V ox oy ->
  - powerToAddPerFrame (stick cfg) <= p
    < maxPower (stick cfg) + powerToAddPerFrame (stick cfg) ->
  let s' := Stick.update cfg env s in
  (exists p' ox',
     s_power s' = Fin p' /\ s_origin s' = V ox' oy
     /\ - powerToAddPerFrame (stick cfg) <= p'
        < maxPower (stick cfg) + powerToAddPerFrame (stick cfg)
     /\ (p' = p \/ p' = p + powerToAddPerFrame (stick cfg)
         \/ p' = p - powerToAddPerFrame (stick cfg))
     /\ ox' * powerToAddPerFrame (stick cfg) - p' * movementPerFrame (stick cfg)
        = ox * powerToAddPerFrame (stick cfg) - p * movementPerFrame (stick cfg))
  /\ s_position s' = s_position s /\ s_visible s' = s_visible s
  /\ s_movable s' = s_movable s
  /\ (s_movable s = false -> s' = s).
Proof.
  intros Hstep Hp Ho Hr s'. unfold s', Stick.update.
  destruct (s_movable s) eqn:Hm.
  2:{ split; [|repeat split; auto].
      exists p, ox. repeat split; auto; lra. }
  unfold Stick.updatePower, Stick.isLessThanMaxPower,
    Stick.isMoreThanMinPower, Stick.updateRotation, Stick.set_rotation.
  cbn [s_power s_origin s_position s_visible s_movable].
  rewrite Hp, ltb_Fin, geb_Fin.
  destruct (Keyboard_isDown env (increaseShotPowerKey (input cfg))
            && Rltb p (maxPower (stick cfg))) eqn:E1.
  - apply andb_true_iff in E1 as [_ E1]. apply Rltb_true in E1.
    unfold Stick.increasePower.
    cbn [s_power s_origin s_position s_visible s_movable].
    rewrite ?Hp, ?Ho, ?add_Fin. split; [|repeat split; auto; discriminate].
    exists (p + powerToAddPerFrame (stick cfg)),
           (ox + movementPerFrame (stick cfg)).
    repeat split; auto; first [lra | ring].
  - destruct (Keyboard_isDown env (decreaseShotPowerKey (input cfg))
              && Rleb 0 p) eqn:E2.
    + apply andb_true_iff in E2 as [_ E2]. apply Rleb_true in E2.
      unfold Stick.decreasePower.
      cbn [s_power s_origin s_position s_visible s_movable].
      rewrite ?Hp, ?Ho, ?sub_Fin, ?add_Fin, ?neg_Fin. split; [|repeat split; auto; discriminate].
      exists (p - powerToAddPerFrame (stick cfg)),
             (ox + - movementPerFrame (stick cfg)).
      repeat split; auto; first [lra | ring].
    + cbn [s_power s_origin s_position s_visible s_movable].
      rewrite ?Ho.
      split; [|repeat split; auto; discriminate].
      exists p, ox. repeat split; auto; lra.
Qed.

Lemma Stick_update_power_witness :
  let s' := Stick.update GameConfig (env_pressed_at 0 0)
              (Stick.new GameConfig (V 413 413)) in
  s_position s' = s_position (Stick.new GameConfig (V 413 413)).
Proof.
  refine (proj1 (proj2 (Stick_update_power GameConfig (env_pressed_at 0 0)
                          (Stick.new GameConfig (V 413 413)) 0
                          (fst (origin (stick GameConfig)))
                          (snd (origin (stick GameConfig))) _ _ _ _))).
  - cbn. lra.
  - reflexivity.
  - reflexivity.
  - cbn. lra.
Defined.

(** ** Vectors *)

Lemma sub_sq_comm (a c : number) :
  ((a - c) * (a - c))%num = ((c - a) * (c - a))%num.
Proof. destruct a, c; cbn; try reflexivity. f_equal. ring. Qed.

Lemma sqrt_not_negative (a : number) : (Num.sqrt a <? Fin 0)%num = false.
Proof.
  destruct a as [r| | |]; cbn; try reflexivity.
  destruct (Rltb r 0); [reflexivity|].
  cbn. apply Rltb_false, sqrt_pos.
Qed.

(** X25: for all vectors, with infinite and [NaN] coordinates too:
    [distFrom] is symmetric and never negative; it is 0 from a vector with
    finite coordinates to itself and [NaN] from a vector with a coordinate
    that is not finite to itself.  The length of a vector is [NaN] when a
    coordinate is [NaN], and [Infinity] when a coordinate is infinite and
    none is [NaN]. *)
Theorem Vector2_distFrom_symmetric (v w : Vector2) (a b : R) :
  Vector2.distFrom v w = Vector2.distFrom w v
  /\ (Vector2.distFrom v w <? Fin 0)%num = false
  /\ Vector2.distFrom (V a b) (V a b) = Fin 0
  /\ (Num.isFinite (x v) = false \/ Num.isFinite (y v) = false ->
      Vector2.distFrom v v = NaN)
  /\ (x v = NaN \/ y v = NaN -> Vector2.length v = NaN)
  /\ (x v <> NaN -> y v <> NaN ->
      Num.isFinite (x v) = false \/ Num.isFinite (y v) = false ->
      Vector2.length v = PInf).
Proof.
  split.
  { unfold Vector2.distFrom, Vector2.length, Vector2.subtract,
      Vector2.subtractTo, Vector2.copy. cbn [x y].
    now rewrite (sub_sq_comm (x v) (x w)), (sub_sq_comm (y v) (y w)). }
  split; [apply sqrt_not_negative|].
  split.
  { rewrite distFrom_V. f_equal.
    replace ((a - a) * (a - a) + (b - b) * (b - b)) with 0 by ring.
    apply sqrt_0. }
  destruct v as [[r| | |] [s| | |]];
    unfold Vector2.distFrom, Vector2.length, Vector2.subtract,
      Vector2.subtractTo, Vector2.copy; cbn;
    repeat split; intros; try reflexivity; try congruence;
    repeat match goal with
           | H : _ \/ _ |- _ => destruct H
           end; congruence.
Qed.

(** ** The mouse *)

Lemma Mouse_three_states (m : Mouse) :
  length (_buttonStates m) = 3%nat ->
  exists s0 s1 s2 p, m = mkMouse [s0; s1; s2] p.
Proof.
  destruct m as [[|s0 [|s1 [|s2 [|s3 l]]]] p]; try discriminate.
  intros _. now exists s0, s1, s2, p.
Qed.

Lemma Mouse_dispatch_pressed (ox oy sx sy : number) (m : Mouse)
    (ev : MouseEvent) (b : nat) :
  length (_buttonStates m) = 3%nat -> (b < 3)%nat ->
  let m' := Mouse.dispatch ox oy sx sy m ev in
  length (_buttonStates m') = 3%nat
  /\ exists p, Mouse.isPressed m b = Some p
       /\ Mouse.isPressed m' b
          = Some (p || match ev with
                       | mousedown button => Nat.eqb button b
                       | _ => false
                       end).
Proof.
  intros Hlen Hb.
  destruct (Mouse_three_states m Hlen) as (s0 & s1 & s2 & p & ->).
  destruct ev as [px py|button|button].
  - split; [reflexivity|].
    destruct b as [|[|[|b]]]; [| | |lia]; eexists; split;
      try reflexivity; cbn; now rewrite orb_false_r.
  - destruct button as [|[|[|button]]];
      (split; [reflexivity|]);
      destruct b as [|[|[|b]]]; try lia; eexists; split;
      try reflexivity; cbn; now rewrite ?orb_false_r, ?orb_true_r.
  - destruct button as [|[|[|button]]];
      (split; [reflexivity|]);
      destruct b as [|[|[|b]]]; try lia; eexists; split;
      try reflexivity; cbn; now rewrite ?orb_false_r.
Qed.

Lemma Mouse_run_pressed (ox oy sx sy : number) (evs : list MouseEvent)
    (b : nat) :
  (b < 3)%nat ->
  forall m, length (_buttonStates m) = 3%nat ->
  let m' := fold_left (Mouse.dispatch ox oy sx sy) evs m in
  length (_buttonStates m') = 3%nat
  /\ exists p, Mouse.isPressed m b = Some p
       /\ Mouse.isPressed m' b
          = Some (p || existsb (fun ev => match ev with
                                          | mousedown button =>
                                              Nat.eqb button b
                                          | _ => false
                                          end) evs).
Proof.
  intros Hb. induction evs as [|ev evs IH]; intros m Hlen.
  - cbn. split; [exact Hlen|].
    destruct (Mouse_three_states m Hlen) as (s0 & s1 & s2 & p & ->).
    destruct b as [|[|[|b]]]; [| | |lia]; eexists; split;
      try reflexivity; cbn; now rewrite orb_false_r.
  - cbn [fold_left existsb].
    destruct (Mouse_dispatch_pressed ox oy sx sy m ev b Hlen Hb)
      as (Hlen1 & p & Hp & Hp1).
    destruct (IH _ Hlen1) as (Hlen2 & p1 & Hq & Hq1).
    split; [exact Hlen2|]. exists p. split; [exact Hp|].
    cbv zeta in *. rewrite Hq1. rewrite Hp1 in Hq. injection Hq as <-.
    now rewrite orb_assoc.
Qed.

(** X26: the press of a button is latched until the end of the frame.  On a mouse
    with its three button states, [reset] succeeds, clears every [pressed]
    flag and keeps every [down] flag and the position; and after any events
    that follow, a button is reported as pressed exactly when one of them was
    a press of that button, whether or not it was released since. *)
Theorem Mouse_pressed_latch (ox oy sx sy : number) (m : Mouse)
    (evs : list MouseEvent) (b : nat) :
  length (_buttonStates m) = 3%nat -> (b < 3)%nat ->
  exists m0,
    Mouse.reset m = Some m0
    /\ Mouse.isPressed m0 b = Some false
    /\ Mouse.isDown m0 b = Mouse.isDown m b
    /\ Mouse.position m0 = Mouse.position m
    /\ exists p,
         Mouse.isPressed (fold_left (Mouse.dispatch ox oy sx sy) evs m0) b
         = Some p
         /\ (p = true <-> In (mousedown b) evs).
Proof.
  intros Hlen Hb.
  destruct (Mouse_three_states m Hlen) as (s0 & s1 & s2 & q & ->).
  eexists. split; [reflexivity|].
  set (m0 := mkMouse _ _).
  assert (Hlen0 : length (_buttonStates m0) = 3%nat) by reflexivity.
  assert (Hp0 : Mouse.isPressed m0 b = Some false).
  { destruct b as [|[|[|b]]]; [| | |lia]; reflexivity. }
  split; [exact Hp0|].
  split; [destruct b as [|[|[|b]]]; [| | |lia]; reflexivity|].
  split; [reflexivity|].
  destruct (Mouse_run_pressed ox oy sx sy evs b Hb m0 Hlen0)
    as (_ & p & Hp & Hrun).
  rewrite Hp0 in Hp. injection Hp as <-. cbn [orb] in Hrun.
  eexists. split; [exact Hrun|].
  rewrite existsb_exists. split.
  - intros (ev & Hin & Hev). destruct ev as [px py|button|button];
      try discriminate.
    apply Nat.eqb_eq in Hev. now subst.
  - intros Hin. exists (mousedown b). split; [exact Hin|apply Nat.eqb_refl].
Qed.

Lemma Mouse_pressed_latch_witness :
  exists m0,
    Mouse.reset Mouse.new = Some m0
    /\ Mouse.isPressed m0 0%nat = Some false
    /\ Mouse.isDown m0 0%nat = Mouse.isDown Mouse.new 0%nat
    /\ Mouse.position m0 = Mouse.position Mouse.new
    /\ exists p,
         Mouse.isPressed
           (fold_left (Mouse.dispatch (Fin 0) (Fin 0) (Fin 1) (Fin 1))
              [mousedown 0%nat; mouseup 0%nat] m0) 0%nat
         = Some p
         /\ (p = true <-> In (mousedown 0%nat) [mousedown 0%nat; mouseup 0%nat]).
Proof.
  refine (Mouse_pressed_latch (Fin 0) (Fin 0) (Fin 1) (Fin 1) Mouse.new
            [mousedown 0%nat; mouseup 0%nat] 0%nat _ _).
  - reflexivity.
  - lia.
Defined.

(** X27: the mouse holds the states of three buttons.  For any other button,
    the fourth and fifth buttons of a mouse among them, the listeners for a
    press and a release throw, as do the two queries, and the mouse stays as
    it is. *)
Theorem Mouse_other_button_throws (ox oy sx sy : number) (m : Mouse)
    (button : nat) :
  length (_buttonStates m) = 3%nat -> (3 <= button)%nat ->
  Mouse.handleMouseDown m button = None
  /\ Mouse.handleMouseUp m button = None
  /\ Mouse.isDown m button = None
  /\ Mouse.isPressed m button = None
  /\ Mouse.dispatch ox oy sx sy m (mousedown button) = m
  /\ Mouse.dispatch ox oy sx sy m (mouseup button) = m.
Proof.
  intros Hlen Hb.
  assert (Hnone : _buttonStates m !! button = None)
    by (apply lookup_ge_None; lia).
  unfold Mouse.dispatch, Mouse.handleMouseDown, Mouse.handleMouseUp,
    Mouse.set_down, Mouse.isDown, Mouse.isPressed.
  rewrite Hnone. repeat split.
Qed.

Lemma Mouse_other_button_throws_witness :
  Mouse.handleMouseDown Mouse.new 3%nat = None.
Proof.
  refine (proj1 (Mouse_other_button_throws (Fin 0) (Fin 0) (Fin 1) (Fin 1)
                   Mouse.new 3%nat _ _)).
  - reflexivity.
  - lia.
Defined.

(** ** The sound switch *)

(** X28: [execute] flips the sound switch and swaps the sprites of the mute
    button with the pressed ones; executed twice it restores the switch and
    all four paths, so after any number of executions the configuration is
    the one before or the one after a single execution, by the parity of
    the number. *)
Theorem ToggleSoundCommand_execute_twice (c : SoundConfig) (n : nat) :
  ToggleSoundCommand.execute (ToggleSoundCommand.execute c) = c
  /\ ToggleSoundCommand.execute c
     = mkSoundConfig (negb (soundOn c)) (muteButtonPressed c)
         (muteButtonPressedHovered c) (muteButton c) (muteButtonHovered c)
  /\ Nat.iter n ToggleSoundCommand.execute c
     = if Nat.even n then c else ToggleSoundCommand.execute c.
Proof.
  assert (H2 : forall c,
            ToggleSoundCommand.execute (ToggleSoundCommand.execute c) = c).
  { intros [[] a b p q]; reflexivity. }
  split; [apply H2|]. split; [reflexivity|].
  induction n as [|n IH]; [reflexivity|].
  rewrite Nat.iter_succ, IH, Nat.even_succ, <- Nat.negb_even.
  destruct (Nat.even n); cbn [negb]; [reflexivity|apply H2].
Qed.

(** ** The black ball decides the match *)

Lemma nextTurn_game_over_players (cfg : IGameConfig) (env : Env)
    (w : GameWorld) :
  GameWorld.isGameOver w = true ->
  _players (fst (GameWorld.nextTurn cfg env w))
  = (fun p => GameWorld.set_color (GameWorld.set_matchScore p 0) None)
    <$> alter (fun p => GameWorld.set_overallScore p (overallScore p + 1)%Z)
          (if isValid (_turnState w) then _currentPlayerIndex w
           else GameWorld.nextPlayerIndex w)
          (_players w).
Proof.
  intros Hover. unfold GameWorld.nextTurn. rewrite Hover.
  unfold GameWorld.handleGameOver.
  now destruct (isValid (_turnState w)).
Qed.

Lemma concludeTurn_overallScore (w : GameWorld) (i : nat) :
  (_currentPlayerIndex w < length (_players w))%nat ->
  overallScore (_players (GameWorld.concludeTurn w) !!! i)
  = overallScore (_players w !!! i).
Proof.
  intros Hcur. pose proof (concludeTurn_players w Hcur i) as Hp.
  cbv zeta in Hp. rewrite Hp.
  destruct (color (_players w !!! i)); [|reflexivity].
  now case_decide.
Qed.

Lemma isValidPocketedBalls_own_color (player : Player) (pocketed : list Ball)
    (c : Color) (b : Ball) :
  color player = Some c -> matchScore player <> 8%Z -> In b pocketed ->
  Referee.isValidPocketedBalls player pocketed = true -> _color b = c.
Proof.
  intros Hc H8 Hin. unfold Referee.isValidPocketedBalls.
  destruct pocketed as [|b0 rest]; [destruct Hin|]. rewrite Hc.
  destruct (Z.eqb_spec (matchScore player) 8) as [E|_]; [contradiction|].
  intros Hall. exact (proj1 (everyColor_In _ _) Hall b Hin).
Qed.

Lemma filter_nil_length {A : Type} (f : A -> bool) (l : list A) :
  (forall a, In a l -> f a = false) -> length (List.filter f l) = 0%nat.
Proof.
  induction l as [|a l IH]; intros H; [reflexivity|]. cbn.
  rewrite (H a (or_introl eq_refl)). apply IH.
  intros a' Ha'. apply H. now right.
Qed.

Section BlackBall.
Variable cfg : IGameConfig.
Variable env : Env.

(** X29: pocketing the black ball too early loses the match.  When the
    player to move has a color, a ball of that color is still on the table
    after the turn, and the hidden black 8-ball is among the balls pocketed
    in the turn, then [concludeTurn] finds the turn invalid and the game
    over, and [nextTurn] gives the point of the match to the next player
    and, with two players or more, none to the player who pocketed it. *)
Theorem black_pocketed_early_loses (w : GameWorld) (c : Color) (r : ref) :
  (_currentPlayerIndex w < length (_players w))%nat ->
  List.NoDup (_balls w) ->
  List.NoDup (pocketedBalls (_turnState w)) ->
  (forall x, In x (pocketedBalls (_turnState w)) -> In x (_balls w)) ->
  color (GameWorld.currentPlayer w) = Some c -> c <> black ->
  In (_8Ball w) (pocketedBalls (_turnState w)) ->
  _color (GameWorld.deref w (_8Ball w)) = black ->
  _visible (GameWorld.deref w (_8Ball w)) = false ->
  In r (_balls w) -> ~ In r (pocketedBalls (_turnState w)) ->
  _color (GameWorld.deref w r) = c ->
  let w1 := GameWorld.concludeTurn w in
  let w2 := fst (GameWorld.nextTurn cfg env w1) in
  isValid (_turnState w1) = false
  /\ GameWorld.isGameOver w1 = true
  /\ overallScore (_players w2 !!! GameWorld.nextPlayerIndex w)
     = (overallScore (_players w !!! GameWorld.nextPlayerIndex w) + 1)%Z
  /\ (GameWorld.nextPlayerIndex w <> _currentPlayerIndex w ->
      overallScore (_players w2 !!! _currentPlayerIndex w)
      = overallScore (_players w !!! _currentPlayerIndex w)).
Proof.
  intros Hcur Hnd Hndp Hsub Hc Hcb H8in H8c H8v Hr Hrp Hrc w1 w2.
  destruct (concludeTurn_shape w)
    as (H1 & H2 & _ & _ & H5 & H6 & _ & _ & _ & Hlen).
  destruct (concludeTurn_splice_balls _ w Hnd Hndp Hsub) as [_ Hx].
  cbv zeta in H1, H2, H5, H6, Hlen, Hx. rewrite <- H2 in Hx.
  fold w1 in H1, H2, H5, H6, Hlen, Hx.
  pose proof (concludeTurn_players w Hcur (_currentPlayerIndex w)) as Hp.
  cbv zeta in Hp. fold w1 in Hp.
  unfold GameWorld.currentPlayer in Hc. rewrite Hc in Hp.
  case_decide as Hd; [clear Hd|exfalso; apply Hd; now left].
  assert (Hscore : matchScore (GameWorld.currentPlayer w1) <> 8%Z).
  { unfold GameWorld.currentPlayer. rewrite H6, Hp.
    cbn [matchScore GameWorld.set_matchScore].
    assert (Hin : In r (GameWorld.getBallsByColor w1 c)).
    { unfold GameWorld.getBallsByColor. apply filter_In. split.
      - apply Hx. split; [exact Hr|]. intros [Hin _]. contradiction.
      - unfold GameWorld.deref. rewrite H1. apply Color_eqb_eq. exact Hrc. }
    destruct (GameWorld.getBallsByColor w1 c) as [|x l]; [destruct Hin|].
    cbn [length]. lia. }
  assert (Hcol : color (GameWorld.currentPlayer w1) = Some c).
  { unfold GameWorld.currentPlayer. rewrite H6, Hp. exact Hc. }
  assert (Hfoul : isValid (_turnState w1) = false).
  { unfold w1. rewrite concludeTurn_verdict. fold w1.
    destruct (Referee.isValidTurn (store w) (GameWorld.currentPlayer w1)
                (_turnState w)) eqn:E; [exfalso|reflexivity].
    unfold Referee.isValidTurn in E. apply andb_true_iff in E as [_ E].
    apply Hcb. rewrite <- H8c. symmetry.
    refine (isValidPocketedBalls_own_color _ _ c (store w !!! _8Ball w)
              Hcol Hscore _ E).
    apply list_elem_of_In.
    apply (list_elem_of_fmap_2 (fun r : ref => store w !!! r)).
    now apply list_elem_of_In. }
  assert (Hover : GameWorld.isGameOver w1 = true).
  { unfold GameWorld.isGameOver, Referee.isGameOver, GameWorld.deref.
    rewrite H1, H5. unfold GameWorld.deref in H8v. now rewrite H8v. }
  split; [exact Hfoul|]. split; [exact Hover|].
  assert (Hnext : GameWorld.nextPlayerIndex w1 = GameWorld.nextPlayerIndex w).
  { unfold GameWorld.nextPlayerIndex. now rewrite H6, Hlen. }
  assert (Hnlt : (GameWorld.nextPlayerIndex w < length (_players w))%nat).
  { unfold GameWorld.nextPlayerIndex. apply Nat.mod_upper_bound. lia. }
  unfold w2. rewrite (nextTurn_game_over_players cfg env w1 Hover).
  rewrite Hfoul, Hnext.
  split.
  - rewrite (@list_lookup_total_fmap _ _ _ Player_inhabited Player_inhabited)
      by (rewrite length_alter, Hlen; exact Hnlt).
    rewrite list_lookup_total_alter_eq by (rewrite Hlen; exact Hnlt).
    cbn [overallScore GameWorld.set_color GameWorld.set_matchScore
           GameWorld.set_overallScore].
    unfold w1. now rewrite concludeTurn_overallScore.
  - intros Hne.
    rewrite (@list_lookup_total_fmap _ _ _ Player_inhabited Player_inhabited)
      by (rewrite length_alter, Hlen; exact Hcur).
    rewrite list_lookup_total_alter_ne by exact Hne.
    cbn [overallScore GameWorld.set_color GameWorld.set_matchScore].
    unfold w1. now rewrite concludeTurn_overallScore.
Qed.

(** X30: pocketing the black ball last wins the match.  When the player to
    move has a color, no ball of that color is on the table, the black
    8-ball, the only black ball of the table, was touched first and is the
    one ball pocketed in the turn, then [concludeTurn] sets the player's
    match score to 8 and finds the turn valid and the game over, and
    [nextTurn] gives the point of the match to that player and, with two
    players or more, none to the next one. *)
Theorem black_pocketed_last_wins (w : GameWorld) (c : Color) :
  (_currentPlayerIndex w < length (_players w))%nat ->
  List.NoDup (_balls w) ->
  color (GameWorld.currentPlayer w) = Some c -> c <> black ->
  pocketedBalls (_turnState w) = [_8Ball w] ->
  firstCollidedBallColor (_turnState w) = Some black ->
  In (_8Ball w) (_balls w) ->
  _color (GameWorld.deref w (_8Ball w)) = black ->
  _visible (GameWorld.deref w (_8Ball w)) = false ->
  (forall x, In x (_balls w) -> _color (GameWorld.deref w x) <> c) ->
  (forall x, In x (_balls w) -> _color (GameWorld.deref w x) = black ->
             x = _8Ball w) ->
  let w1 := GameWorld.concludeTurn w in
  let w2 := fst (GameWorld.nextTurn cfg env w1) in
  matchScore (GameWorld.currentPlayer w1) = 8%Z
  /\ isValid (_turnState w1) = true
  /\ GameWorld.isGameOver w1 = true
  /\ overallScore (_players w2 !!! _currentPlayerIndex w)
     = (overallScore (_players w !!! _currentPlayerIndex w) + 1)%Z
  /\ (GameWorld.nextPlayerIndex w <> _currentPlayerIndex w ->
      overallScore (_players w2 !!! GameWorld.nextPlayerIndex w)
      = overallScore (_players w !!! GameWorld.nextPlayerIndex w)).
Proof.
  intros Hcur Hnd Hc Hcb Hp8 Hft H8in H8c H8v Hown Hblack w1 w2.
  assert (Hndp : List.NoDup (pocketedBalls (_turnState w))).
  { rewrite Hp8. constructor; [intros []|constructor]. }
  assert (Hsub : forall x, In x (pocketedBalls (_turnState w)) ->
            In x (_balls w)).
  { rewrite Hp8. intros x [<-|[]]. exact H8in. }
  destruct (concludeTurn_shape w)
    as (H1 & H2 & _ & _ & H5 & H6 & _ & _ & _ & Hlen).
  destruct (concludeTurn_splice_balls _ w Hnd Hndp Hsub) as [_ Hx].
  cbv zeta in H1, H2, H5, H6, Hlen, Hx. rewrite <- H2 in Hx.
  fold w1 in H1, H2, H5, H6, Hlen, Hx.
  pose proof (concludeTurn_players w Hcur (_currentPlayerIndex w)) as Hp.
  cbv zeta in Hp. fold w1 in Hp.
  unfold GameWorld.currentPlayer in Hc. rewrite Hc in Hp.
  case_decide as Hd; [clear Hd|exfalso; apply Hd; now left].
  assert (Hown1 : length (GameWorld.getBallsByColor w1 c) = 0%nat).
  { apply filter_nil_length. intros x Hx1. apply Color_eqb_neq.
    unfold GameWorld.deref. rewrite H1. apply Hown. now apply Hx. }
  assert (Hblack1 : length (GameWorld.getBallsByColor w1 black) = 0%nat).
  { apply filter_nil_length. intros x Hx1. apply Color_eqb_neq.
    unfold GameWorld.deref. rewrite H1. intros Hxb.
    apply Hx in Hx1 as [Hxin Hno].
    pose proof (Hblack x Hxin Hxb) as ->. apply Hno. rewrite Hp8.
    split; [now left|]. rewrite H8c. discriminate. }
  assert (Hscore : matchScore (GameWorld.currentPlayer w1) = 8%Z).
  { unfold GameWorld.currentPlayer. rewrite H6, Hp.
    cbn [matchScore GameWorld.set_matchScore]. rewrite Hown1, Hblack1.
    reflexivity. }
  assert (Hcol : color (GameWorld.currentPlayer w1) = Some c).
  { unfold GameWorld.currentPlayer. rewrite H6, Hp. exact Hc. }
  assert (Hvalid : isValid (_turnState w1) = true).
  { unfold w1. rewrite concludeTurn_verdict. fold w1.
    unfold Referee.isValidTurn, Referee.isValidFirstTouch,
      Referee.isValidPocketedBalls.
    rewrite Hft, Hp8, Hcol, Hscore. cbn [fmap list_fmap length Nat.eqb negb].
    unfold GameWorld.deref in H8c. rewrite H8c.
    destruct c; try contradiction; reflexivity. }
  assert (Hover : GameWorld.isGameOver w1 = true).
  { unfold GameWorld.isGameOver, Referee.isGameOver, GameWorld.deref.
    rewrite H1, H5. unfold GameWorld.deref in H8v. now rewrite H8v. }
  split; [exact Hscore|]. split; [exact Hvalid|]. split; [exact Hover|].
  assert (Hnlt : (GameWorld.nextPlayerIndex w < length (_players w))%nat).
  { unfold GameWorld.nextPlayerIndex. apply Nat.mod_upper_bound. lia. }
  unfold w2. rewrite (nextTurn_game_over_players cfg env w1 Hover).
  rewrite Hvalid, H6.
  split.
  - rewrite (@list_lookup_total_fmap _ _ _ Player_inhabited Player_inhabited)
      by (rewrite length_alter, Hlen; exact Hcur).
    rewrite list_lookup_total_alter_eq by (rewrite Hlen; exact Hcur).
    cbn [overallScore GameWorld.set_color GameWorld.set_matchScore
           GameWorld.set_overallScore].
    unfold w1. now rewrite concludeTurn_overallScore.
  - intros Hne.
    rewrite (@list_lookup_total_fmap _ _ _ Player_inhabited Player_inhabited)
      by (rewrite length_alter, Hlen; exact Hnlt).
    rewrite list_lookup_total_alter_ne by congruence.
    cbn [overallScore GameWorld.set_color GameWorld.set_matchScore].
    unfold w1. now rewrite concludeTurn_overallScore.
Qed.

End BlackBall.

Lemma black_pocketed_early_loses_witness :
  isValid (_turnState (GameWorld.concludeTurn worldBlackPocketedEarly))
  = false.
Proof.
  refine (proj1 (black_pocketed_early_loses GameConfig (env_pressed_at 0 0)
                   worldBlackPocketedEarly yellow 1%nat
                   _ _ _ _ _ _ _ _ _ _ _ _)).
  - cbn. lia.
  - cbn. repeat constructor; cbn; intuition lia.
  - cbn. repeat constructor; cbn; intuition lia.
  - cbn. intuition lia.
  - reflexivity.
  - discriminate.
  - cbn. auto.
  - reflexivity.
  - reflexivity.
  - cbn. auto.
  - cbn. intuition lia.
  - reflexivity.
Defined.

Lemma black_pocketed_last_wins_witness :
  matchScore
    (GameWorld.currentPlayer (GameWorld.concludeTurn worldBlackPocketedLast))
  = 8%Z.
Proof.
  refine (proj1 (black_pocketed_last_wins GameConfig (env_pressed_at 0 0)
                   worldBlackPocketedLast yellow _ _ _ _ _ _ _ _ _ _ _)).
  - cbn. lia.
  - cbn. repeat constructor; cbn; intuition lia.
  - reflexivity.
  - discriminate.
  - reflexivity.
  - reflexivity.
  - cbn. auto.
  - reflexivity.
  - reflexivity.
  - cbn. intros x [<-|[<-|[<-|[]]]]; cbn; discriminate.
  - cbn. intros x [<-|[<-|[<-|[]]]]; cbn; (reflexivity || discriminate).
Defined.

(** * The cushions in a whole tick *)






Section Tick.
Variable cfg : IGameConfig.




















End Tick.



Section CushionTick.
Variable cfg : IGameConfig.
Let k := 1 - friction (physics cfg).
Let e := 1 - collisionLoss (physics cfg).
Let cw := cushionWidth (table cfg).
Let D := diameter (ball cfg).
Let W := fst (gameSize cfg).
Let H := snd (gameSize cfg).


End CushionTick.

(** ** The cushions for a ball that meets one border or none *)

Section CushionCases.
Variable cfg : IGameConfig.
Let k := 1 - friction (physics cfg).
Let e := 1 - collisionLoss (physics cfg).
Let cw := cushionWidth (table cfg).
Let D := diameter (ball cfg).
Let W := fst (gameSize cfg).
Let H := snd (gameSize cfg).





End CushionCases.

(** ** A ball that rolls to the left cushion *)





(** ** A ball pushed across the cushion by the ball behind it *)







